(** * goroutine-3000: the rate-limited gateway

    A shallow embedding of the gateway subsystem of goroutine-3000:
    - [pkg/ratelimit]: [TokenBucket] and the multi-key [Limiter];
    - [pkg/gateway]: [Backend], [Route], [Gateway] with round-robin selection,
      route registration and health checking;
    - [pkg/middleware]: the rate-limit HTTP middleware.

    Go's [int64] is a [Z] whose wrap-around is written out with [int64.wrap];
    [time.Duration] is an [int64] count of nanoseconds; maps are [gmap]s;
    pointers to buckets are locations in an explicit heap.  A runtime panic
    (integer division by zero, index out of range) is the result [None]. *)

From Stdlib Require Import ZArith Lia.
From stdpp Require Import gmap strings list fin_maps pretty.

Local Open Scope Z_scope.

(** ** Machine integers *)

Module int64.
Definition min : Z := - 2 ^ 63.
Definition max : Z := 2 ^ 63 - 1.

(** Two's-complement wrap-around of an arithmetic result. *)
Definition wrap (z : Z) : Z := (z + 2 ^ 63) mod 2 ^ 64 - 2 ^ 63.

Definition ok (z : Z) : Prop := min <= z <= max.

(** Go's [/] on [int64]: truncated quotient; [min / -1] wraps to [min]. *)
Definition quo (a b : Z) : Z := wrap (Z.quot a b).
End int64.

(** ** Package [time] (standard library, modelled from its documentation)

    An instant is a number of nanoseconds on an unbounded time line; a
    [Duration] is an [int64] number of nanoseconds.  [Sub] saturates at the
    largest and smallest [Duration], as documented for [Time.Sub]. *)

Module time.
Definition Time := Z.
Definition Duration := Z.

Definition Nanosecond : Duration := 1.
Definition Millisecond : Duration := 1000000.
Definition Second : Duration := 1000000000.
Definition Minute : Duration := 60 * Second.

Definition Sub (t u : Time) : Duration :=
  if t - u <? int64.min then int64.min
  else if int64.max <? t - u then int64.max
  else t - u.

Definition Add (t : Time) (d : Duration) : Time := t + d.

(** [Duration.Milliseconds]: integer millisecond count, truncated. *)
Definition Milliseconds (d : Duration) : Z := Z.quot d 1000000.

(** [Time.Unix]: whole seconds since the epoch (instant 0). *)
Definition Unix (t : Time) : Z := t / 1000000000.
End time.

(** ** Package [ratelimit]: the token bucket *)

Module ratelimit.
Import time.

Record TokenBucket := mkTokenBucket {
  capacity : Z;          (* Maximum tokens *)
  tokens : Z;            (* Current tokens *)
  refillRate : Z;        (* Tokens added per refill interval *)
  interval : Duration;   (* Refill interval *)
  lastRefill : Time
}.

#[global] Instance TokenBucket_eq_dec : EqDecision TokenBucket.
Proof. solve_decision. Defined.

Definition NewTokenBucket (now : Time) (capacity refillRate : Z)
    (interval : Duration) : TokenBucket :=
  {| capacity := capacity; tokens := capacity; refillRate := refillRate;
     interval := interval; lastRefill := now |}.

(** [refill]: [now] is the reading of [time.Now()].  The division panics
    when [interval] is zero. *)
Definition refill (now : Time) (tb : TokenBucket) : option TokenBucket :=
  let elapsed := Sub now (lastRefill tb) in
  if elapsed <? interval tb then Some tb
  else if interval tb =? 0 then None
  else
    let periods := int64.quo elapsed (interval tb) in
    let tokensToAdd := int64.wrap (periods * refillRate tb) in
    let tokens1 := int64.wrap (tokens tb + tokensToAdd) in
    let tokens2 := if tokens1 >? capacity tb then capacity tb else tokens1 in
    Some {| capacity := capacity tb; tokens := tokens2;
            refillRate := refillRate tb; interval := interval tb;
            lastRefill :=
              Add (lastRefill tb) (int64.wrap (periods * interval tb)) |}.

Definition set_tokens (t : Z) (tb : TokenBucket) : TokenBucket :=
  {| capacity := capacity tb; tokens := t; refillRate := refillRate tb;
     interval := interval tb; lastRefill := lastRefill tb |}.

(** The part of [Allow] after [tb.refill()]. *)
Definition take_one (tb : TokenBucket) : bool * TokenBucket :=
  if tokens tb >? 0
  then (true, set_tokens (int64.wrap (tokens tb - 1)) tb)
  else (false, tb).

(** The part of [AllowN] after [tb.refill()]. *)
Definition take_n (n : Z) (tb : TokenBucket) : bool * TokenBucket :=
  if tokens tb >=? n
  then (true, set_tokens (int64.wrap (tokens tb - n)) tb)
  else (false, tb).

Definition Allow (now : Time) (tb : TokenBucket)
    : option (bool * TokenBucket) :=
  tb' ← refill now tb; Some (take_one tb').

Definition AllowN (now : Time) (n : Z) (tb : TokenBucket)
    : option (bool * TokenBucket) :=
  tb' ← refill now tb; Some (take_n n tb').

Definition Available (now : Time) (tb : TokenBucket)
    : option (Z * TokenBucket) :=
  tb' ← refill now tb; Some (tokens tb', tb').

Definition Capacity (tb : TokenBucket) : Z := capacity tb.

(** A call of the bucket's API, for sequences of calls. *)
Inductive call :=
  | CallAllow (now : Time)
  | CallAllowN (now : Time) (n : Z).

Definition run_call (c : call) (tb : TokenBucket)
    : option (bool * TokenBucket) :=
  match c with
  | CallAllow now => Allow now tb
  | CallAllowN now n => AllowN now n tb
  end.

Definition call_now (c : call) : Time :=
  match c with CallAllow now | CallAllowN now _ => now end.

(** The number of tokens a call asks for. *)
Definition call_amount (c : call) : Z :=
  match c with CallAllow _ => 1 | CallAllowN _ n => n end.

(** The part of a call after the refill step. *)
Definition call_take (c : call) : TokenBucket → bool * TokenBucket :=
  match c with
  | CallAllow _ => take_one
  | CallAllowN _ n => take_n n
  end.

(** Runs the calls in order; the state after every call is recorded. *)
Fixpoint run_calls (cs : list call) (tb : TokenBucket)
    : option (list (bool * TokenBucket)) :=
  match cs with
  | [] => Some []
  | c :: cs' =>
      r ← run_call c tb;
      rest ← run_calls cs' (snd r);
      Some (r :: rest)
  end.

(** The bucket of [TestTokenBucketAllowN]: capacity 10, refilled by 10
    every second, created at instant 0. *)
Definition bucket10 : TokenBucket := NewTokenBucket 0 10 10 Second.

(** *** The multi-key limiter

    [buckets] maps a key to a pointer, an index into [heap]; the buckets
    themselves live in [heap], so that a bucket removed from the map can
    still be used by whoever holds its pointer.  Every [time.Now()] of
    the code is a reading of its own: the one of [NewTokenBucket], the one
    of [cleanupIfNeeded], the one of each [Available] in the cleanup loop
    and the one of the bucket's [Allow] or [AllowN].  The read/write lock
    is held around the map accesses and is not modelled in this sequential
    part. *)

Record Limiter := mkLimiter {
  buckets : gmap string nat;
  lcapacity : Z;
  lrefillRate : Z;
  linterval : Duration;
  cleanupInterval : Duration;
  lastCleanup : Time
}.

Record State := mkState {
  heap : list TokenBucket;
  limiter : Limiter
}.

Definition NewLimiter (now : Time) (capacity refillRate : Z)
    (interval : Duration) : State :=
  {| heap := [];
     limiter := {| buckets := ∅; lcapacity := capacity;
                   lrefillRate := refillRate; linterval := interval;
                   cleanupInterval := 5 * Minute; lastCleanup := now |} |}.

Definition set_buckets (bs : gmap string nat) (l : Limiter) : Limiter :=
  {| buckets := bs; lcapacity := lcapacity l; lrefillRate := lrefillRate l;
     linterval := linterval l; cleanupInterval := cleanupInterval l;
     lastCleanup := lastCleanup l |}.

Definition set_lastCleanup (t : Time) (l : Limiter) : Limiter :=
  {| buckets := buckets l; lcapacity := lcapacity l;
     lrefillRate := lrefillRate l; linterval := linterval l;
     cleanupInterval := cleanupInterval l; lastCleanup := t |}.

(** A method call through a bucket pointer: the bucket is read from the
    heap and the mutated bucket written back. *)
Definition at_loc {R} (f : TokenBucket → option (R * TokenBucket))
    (p : nat) (h : list TokenBucket) : option (R * list TokenBucket) :=
  tb ← h !! p;
  r ← f tb;
  Some (r.1, <[p := r.2]> h).

(** One iteration of the loop of [cleanupIfNeeded]; [avail k] is the
    reading of the clock in the [Available] of the bucket of key [k]. *)
Definition cleanup_step (avail : string → Time)
    (acc : option (list TokenBucket * gmap string nat))
    (kb : string * nat) : option (list TokenBucket * gmap string nat) :=
  a ← acc;
  r ← at_loc (Available (avail kb.1)) kb.2 a.1;
  tb ← r.2 !! kb.2;
  Some (r.2, if r.1 =? Capacity tb then delete kb.1 a.2 else a.2).

(** [cleanupIfNeeded]; [now] is the reading of its first line. *)
Definition cleanupIfNeeded (now : Time) (avail : string → Time)
    (st : State) : option State :=
  let l := limiter st in
  if Sub now (lastCleanup l) <? cleanupInterval l then Some st
  else
    r ← foldl (cleanup_step avail) (Some (heap st, buckets l))
              (map_to_list (buckets l));
    Some {| heap := r.1;
            limiter := set_lastCleanup now (set_buckets r.2 l) |}.

(** The readings of the clock that one [getBucket] may take: in
    [NewTokenBucket], at the start of [cleanupIfNeeded], and in the
    [Available] of the bucket of each key that the cleanup loop visits. *)
Record Clock := mkClock {
  at_new : Time;
  at_cleanup : Time;
  at_bucket : string → Time
}.

(** The clock that gives the same reading every time. *)
Definition frozen (now : Time) : Clock :=
  {| at_new := now; at_cleanup := now; at_bucket := λ _, now |}.

Definition getBucket (clk : Clock) (key : string) (st : State)
    : option (nat * State) :=
  let l := limiter st in
  (* Fast path: read lock for existing bucket *)
  match buckets l !! key with
  | Some bucket => Some (bucket, st)
  | None =>
      (* Double-check after acquiring write lock *)
      match buckets l !! key with
      | Some bucket => Some (bucket, st)
      | None =>
          let bucket := length (heap st) in
          let st1 :=
            {| heap := heap st ++
                 [NewTokenBucket (at_new clk) (lcapacity l) (lrefillRate l)
                                 (linterval l)];
               limiter := set_buckets (<[key := bucket]> (buckets l)) l |} in
          st2 ← cleanupIfNeeded (at_cleanup clk) (at_bucket clk) st1;
          Some (bucket, st2)
      end
  end.

(** [Limiter.Allow]: [clk] gives the readings inside [getBucket], [now]
    is the reading of the bucket's [Allow]. *)
Definition Limiter_Allow (clk : Clock) (now : Time) (key : string)
    (st : State) : option (bool * State) :=
  g ← getBucket clk key st;
  r ← at_loc (Allow now) g.1 (heap g.2);
  Some (r.1, {| heap := r.2; limiter := limiter g.2 |}).

Definition Limiter_AllowN (clk : Clock) (now : Time) (key : string) (n : Z)
    (st : State) : option (bool * State) :=
  g ← getBucket clk key st;
  r ← at_loc (AllowN now n) g.1 (heap g.2);
  Some (r.1, {| heap := r.2; limiter := limiter g.2 |}).

(** A call of the limiter's API for [key]; the reading of the call [c] is
    the one of the bucket's method. *)
Definition Limiter_run (clk : Clock) (c : call) (key : string) (st : State)
    : option (bool * State) :=
  match c with
  | CallAllow now => Limiter_Allow clk now key st
  | CallAllowN now n => Limiter_AllowN clk now key n st
  end.

Record StatsT := mkStats {
  total_keys : nat;
  stats_capacity : Z;
  refill_rate : Z;
  interval_ms : Z
}.

Definition Stats (st : State) : StatsT :=
  let l := limiter st in
  {| total_keys := size (buckets l); stats_capacity := lcapacity l;
     refill_rate := lrefillRate l;
     interval_ms := Milliseconds (linterval l) |}.

Definition Reset (key : string) (st : State) : State :=
  {| heap := heap st;
     limiter := set_buckets (delete key (buckets (limiter st)))
                            (limiter st) |}.

Definition ResetAll (st : State) : State :=
  {| heap := heap st; limiter := set_buckets ∅ (limiter st) |}.

(** A bucket with the configuration of the limiter, as [getBucket] makes
    them. *)
Definition made_by (l : Limiter) (tb : TokenBucket) : Prop :=
  capacity tb = lcapacity l ∧ refillRate tb = lrefillRate l ∧
  interval tb = linterval l.

(** Well-formed states: every pointer of the map is allocated, and every
    bucket was made by this limiter, whose interval is positive. *)
Definition wf (st : State) : Prop :=
  0 < linterval (limiter st) ∧
  (∀ k p, buckets (limiter st) !! k = Some p → (p < length (heap st))%nat) ∧
  Forall (made_by (limiter st)) (heap st).

(** A sequence of limiter calls, each with its own clock readings and for
    its own key; the answers, in order, and the state they leave. *)
Fixpoint Limiter_runs (ks : list (Clock * (string * call))) (st : State)
    : option (list bool * State) :=
  match ks with
  | [] => Some ([], st)
  | kc :: ks' =>
      r ← Limiter_run kc.1 kc.2.2 kc.2.1 st;
      rest ← Limiter_runs ks' r.2;
      Some (r.1 :: rest.1, rest.2)
  end.

(** A full bucket of the limiter last refilled at [t0] or later is still
    full after a refill at [t]: no whole period has passed since [t0], or
    the rate is not negative and the sum cannot overflow. *)
Definition keeps_full (l : Limiter) (t0 t : Time) : Prop :=
  Sub t t0 < linterval l ∨
  (0 ≤ lrefillRate l ∧ int64.min ≤ lcapacity l ∧
   lcapacity l + Sub t t0 / linterval l * lrefillRate l ≤ int64.max).

(** No two keys share a bucket. *)
Definition distinct_buckets (st : State) : Prop :=
  ∀ k1 k2 p,
    buckets (limiter st) !! k1 = Some p →
    buckets (limiter st) !! k2 = Some p → k1 = k2.
End ratelimit.

(** ** Package [gateway]: backends, routes, registration, health checks *)

Module url.
(** The fields of [net/url.URL] that the gateway reads or writes. *)
Record URL := mkURL { Scheme : string; Host : string; Path : string }.

Definition set_Path (p : string) (u : URL) : URL :=
  {| Scheme := Scheme u; Host := Host u; Path := p |}.
End url.

Module gateway.
Import time.

(** A backend; its [ReverseProxy] is the forwarding mechanism and carries
    no state of the gateway. *)
Record Backend := mkBackend { URL : url.URL; Alive : bool }.

Definition SetAlive (alive : bool) (b : Backend) : Backend :=
  {| URL := URL b; Alive := alive |}.

Definition IsAlive (b : Backend) : bool := Alive b.

Record Route := mkRoute {
  Path : string;
  Backends : list Backend;
  current : Z
}.

Definition set_current (c : Z) (r : Route) : Route :=
  {| Path := Path r; Backends := Backends r; current := c |}.

Definition set_Backends (bs : list Backend) (r : Route) : Route :=
  {| Path := Path r; Backends := bs; current := current r |}.

(** The loop of [NextBackend] with [n] iterations left; [None] is the
    index-out-of-range panic of [r.Backends[r.current]]. *)
Fixpoint NextBackend_loop (n : nat) (bs : list Backend) (cur : Z)
    : option (option Backend * Z) :=
  match n with
  | O => Some (None, cur)
  | S n' =>
      let cur' := Z.rem (int64.wrap (cur + 1)) (Z.of_nat (length bs)) in
      if cur' <? 0 then None
      else
        match bs !! Z.to_nat cur' with
        | None => None
        | Some backend =>
            if IsAlive backend then Some (Some backend, cur')
            else NextBackend_loop n' bs cur'
        end
  end.

Definition NextBackend (r : Route) : option (option Backend * Route) :=
  res ← NextBackend_loop (length (Backends r)) (Backends r) (current r);
  Some (res.1, set_current res.2 r).

(** [k] successive calls of [NextBackend]; the backends returned, in
    order. *)
Fixpoint NextBackend_iter (k : nat) (r : Route)
    : option (list (option Backend) * Route) :=
  match k with
  | O => Some ([], r)
  | S k' =>
      x ← NextBackend r;
      rest ← NextBackend_iter k' x.2;
      Some (x.1 :: rest.1, rest.2)
  end.

(** The cursor of a route is an index into its backends (0 when there
    are none), and a slice has at most [int64.max] elements. *)
Definition cursor_ok (r : Route) : Prop :=
  0 ≤ current r < Z.max 1 (Z.of_nat (length (Backends r))) ∧
  Z.of_nat (length (Backends r)) ≤ int64.max.

(** The index looked at by iteration [j] (from 0) of the loop of
    [NextBackend] when the cursor was [cur] on entry. *)
Definition scan_pos (bs : list Backend) (cur : Z) (j : nat) : nat :=
  Z.to_nat ((cur + 1 + Z.of_nat j) `mod` Z.of_nat (length bs)).

(** Three backends, the second one dead. *)
Definition B1 : Backend :=
  {| URL := url.mkURL "http" "localhost:8081" EmptyString; Alive := true |}.
Definition B2 : Backend :=
  {| URL := url.mkURL "http" "localhost:8082" EmptyString; Alive := false |}.
Definition B3 : Backend :=
  {| URL := url.mkURL "http" "localhost:8083" EmptyString; Alive := true |}.

Definition route3 : Route :=
  {| Path := "/api"; Backends := [B1; B2; B3]; current := 0 |}.

Definition route3_dead : Route :=
  {| Path := "/api";
     Backends := SetAlive false <$> [B1; B2; B3]; current := 0 |}.

(** [a; b; a; b; ...], [k] elements. *)
Fixpoint alternate {A} (a b : A) (k : nat) : list A :=
  match k with
  | O => []
  | S k' => a :: alternate b a k'
  end.

Record Gateway := mkGateway {
  routes : gmap string Route;
  limiter : ratelimit.State;
  healthCheck : Duration
}.

Definition set_routes (rs : gmap string Route) (g : Gateway) : Gateway :=
  {| routes := rs; limiter := limiter g; healthCheck := healthCheck g |}.

Inductive error := InvalidBackendURL (backendURL : string).

(** The [&Backend{URL: u, Alive: true, ReverseProxy: proxy}] of
    [AddRoute]. *)
Definition new_backend (u : url.URL) : Backend :=
  {| URL := u; Alive := true |}.

Section AddRoute.
(** [url.Parse]; [None] stands for a non-nil error. *)
Variable Parse : string → option url.URL.

(** The loop of [AddRoute] over the target addresses: [inl u] is the
    early return at the unparseable [u]. *)
Fixpoint parse_backends (backendURLs : list string) (acc : list Backend)
    : string + list Backend :=
  match backendURLs with
  | [] => inr acc
  | backendURL :: rest =>
      match Parse backendURL with
      | None => inl backendURL
      | Some u => parse_backends rest (acc ++ [new_backend u])
      end
  end.

Definition AddRoute (path : string) (backendURLs : list string)
    (g : Gateway) : option error * Gateway :=
  match parse_backends backendURLs [] with
  | inl bad => (Some (InvalidBackendURL bad), g)
  | inr bs =>
      (None,
       set_routes
         (<[path := {| Path := path; Backends := bs; current := 0 |}]>
            (routes g)) g)
  end.
End AddRoute.

Section HealthCheck.
(** The network, as the health checker sees it: building the request
    ([http.NewRequestWithContext]) and sending it
    ([http.DefaultClient.Do], status code of the response); [None]
    stands for a non-nil error, a timeout or cancellation included. *)
Variable request : Type.
Variable NewRequestWithContext : url.URL → option request.
Variable Do : request → option Z.

Definition isBackendAlive (u : url.URL) : bool :=
  let healthURL := url.set_Path "/health" u in
  match NewRequestWithContext healthURL with
  | None => false
  | Some req =>
      match Do req with
      | None => false
      | Some StatusCode => (StatusCode >=? 200) && (StatusCode <? 500)
      end
  end.

(** One probe task: [b.SetAlive(g.isBackendAlive(b.URL))]. *)
Definition probe (b : Backend) : Backend :=
  SetAlive (isBackendAlive (URL b)) b.

(** Every backend of every route is probed by its own task and all
    tasks are joined; each task writes its own backend only. *)
Definition healthCheckAll (g : Gateway) : Gateway :=
  set_routes
    ((λ route, set_Backends (probe <$> Backends route) route)
       <$> routes g) g.
End HealthCheck.

(** *** Construction and statistics *)

Record Config := mkConfig {
  RateLimitCapacity : Z;
  RateLimitRefill : Z;
  RateLimitInterval : Duration;
  HealthCheckInterval : Duration
}.

(** [NewGateway]; the cancellable context is not part of the model. *)
Definition NewGateway (now : Time) (config : Config) : Gateway :=
  let healthCheckInterval :=
    if HealthCheckInterval config =? 0 then 10 * Second
    else HealthCheckInterval config in
  let rateLimitCapacity :=
    if RateLimitCapacity config =? 0 then 100
    else RateLimitCapacity config in
  let rateLimitRefill :=
    if RateLimitRefill config =? 0 then 100 else RateLimitRefill config in
  let rateLimitInterval :=
    if RateLimitInterval config =? 0 then Minute
    else RateLimitInterval config in
  {| routes := ∅;
     limiter := ratelimit.NewLimiter now rateLimitCapacity rateLimitRefill
                                     rateLimitInterval;
     healthCheck := healthCheckInterval |}.

Record RouteStats := mkRouteStats {
  total_backends : nat;
  alive_backends : nat
}.

(** The inner loop of [Stats]: [aliveCount++] for every alive backend. *)
Definition aliveCount (bs : list Backend) : nat :=
  foldl (λ n b, if IsAlive b then S n else n) O bs.

Definition route_stats (route : Route) : RouteStats :=
  {| total_backends := length (Backends route);
     alive_backends := aliveCount (Backends route) |}.

Record StatsT := mkStatsT {
  stats_routes : gmap string RouteStats;
  rate_limit : ratelimit.StatsT
}.

Definition Stats (g : Gateway) : StatsT :=
  {| stats_routes := route_stats <$> routes g;
     rate_limit := ratelimit.Stats (limiter g) |}.
End gateway.

(** ** Package [middleware]: the rate-limit middleware *)

Module http.
Record Request := mkRequest {
  Header : gmap string string;
  RemoteAddr : string;
  URLPath : string
}.

(** What a handler has written so far. *)
Record ResponseWriter := mkResponseWriter {
  header : gmap string string;
  status : option Z;
  body : string
}.

Definition StatusOK : Z := 200.
Definition StatusTooManyRequests : Z := 429.

Definition empty_response : ResponseWriter :=
  {| header := ∅; status := None; body := EmptyString |}.

Definition Header_Set (k v : string) (w : ResponseWriter) : ResponseWriter :=
  {| header := <[k := v]> (header w); status := status w; body := body w |}.

Definition WriteHeader (code : Z) (w : ResponseWriter) : ResponseWriter :=
  {| header := header w;
     status := match status w with None => Some code | s => s end;
     body := body w |}.

Definition Write (s : string) (w : ResponseWriter) : ResponseWriter :=
  {| header := header w;
     status := match status w with None => Some StatusOK | s => s end;
     body := body w +:+ s |}.

Definition Header_Get (k : string) (r : Request) : string :=
  default EmptyString (Header r !! k).

(** The JSON text [{"error":e,"message":m}] of the error bodies. *)
Definition quoted (s : string) : string :=
  let q := String (Ascii.ascii_of_nat 34) EmptyString in q +:+ s +:+ q.

Definition error_body (e m : string) : string :=
  "{" +:+ quoted "error" +:+ ":" +:+ quoted e +:+ "," +:+
  quoted "message" +:+ ":" +:+ quoted m +:+ "}".

Definition StatusNotFound : Z := 404.
Definition StatusServiceUnavailable : Z := 503.

Definition Header_Del (k : string) (w : ResponseWriter) : ResponseWriter :=
  {| header := delete k (header w); status := status w; body := body w |}.

(** [http.Error] and [http.NotFound] (standard library, modelled from
    their documentation): a plain-text reply with the given code. *)
Definition Error (w : ResponseWriter) (error : string) (code : Z)
    : ResponseWriter :=
  Write (error +:+ String (Ascii.ascii_of_nat 10) EmptyString)
    (WriteHeader code
       (Header_Set "X-Content-Type-Options" "nosniff"
          (Header_Set "Content-Type" "text/plain; charset=utf-8"
             (Header_Del "Content-Length" w)))).

Definition NotFound (w : ResponseWriter) (r : Request) : ResponseWriter :=
  Error w "404 page not found" StatusNotFound.
End http.

Module middleware.
Import time http.

(** The readings of the clock while one request is served: those inside
    the limiter's [getBucket], the one of the bucket's [Allow], and the one
    of [AddRateLimitHeaders]. *)
Record Readings := mkReadings {
  limiter_clock : ratelimit.Clock;
  allow_now : Time;
  headers_now : Time
}.

(** Every reading equal to [now]. *)
Definition at_instant (now : Time) : Readings :=
  {| limiter_clock := ratelimit.frozen now; allow_now := now;
     headers_now := now |}.

Definition Handler : Type :=
  Readings → Request → ratelimit.State * ResponseWriter →
  option (ratelimit.State * ResponseWriter).

Section RateLimit.
(** [net.SplitHostPort], host part; [None] stands for a non-nil error. *)
Variable SplitHostPort : string → option string.

Definition IPKeyExtractor (r : Request) : string :=
  let xff := Header_Get "X-Forwarded-For" r in
  if negb (String.eqb xff EmptyString) then
    match SplitHostPort xff with
    | Some host => host
    | None => xff
    end
  else
    let xri := Header_Get "X-Real-IP" r in
    if negb (String.eqb xri EmptyString) then xri
    else
      match SplitHostPort (RemoteAddr r) with
      | Some host => host
      | None => RemoteAddr r
      end.

Record RateLimitConfig := mkRateLimitConfig {
  KeyExtractor : option (Request → string);
  OnRateLimitExceeded :
    option (ResponseWriter → Request → ResponseWriter);
  SkipFunc : option (Request → bool)
}.

Definition DefaultRateLimitHandler (w : ResponseWriter) (r : Request)
    : ResponseWriter :=
  Write (error_body "rate limit exceeded"
                    "Too many requests. Please try again later.")
    (WriteHeader StatusTooManyRequests
       (Header_Set "Content-Type" "application/json" w)).

Definition AddRateLimitHeaders (now : Time) (w : ResponseWriter)
    (limiter : ratelimit.State) (key : string) : ResponseWriter :=
  let stats := ratelimit.Stats limiter in
  Header_Set "X-RateLimit-Reset"
    (pretty (Unix (Add now (int64.wrap
               (ratelimit.interval_ms stats * Millisecond)))))
    (Header_Set "X-RateLimit-Limit"
       (pretty (ratelimit.stats_capacity stats)) w).

(** The handler built by [RateLimit(config)(next)].  The limiter of the
    configuration is the [ratelimit.State] threaded through. *)
Definition RateLimit (config : RateLimitConfig) (next : Handler)
    : Handler :=
  let extract := default IPKeyExtractor (KeyExtractor config) in
  let exceeded :=
    default DefaultRateLimitHandler (OnRateLimitExceeded config) in
  λ rd r sw,
    if match SkipFunc config with Some skip => skip r | None => false end
    then next rd r sw
    else
      let key := extract r in
      a ← ratelimit.Limiter_Allow (limiter_clock rd) (allow_now rd) key sw.1;
      if negb a.1 then Some (a.2, exceeded sw.2 r)
      else next rd r
             (a.2, AddRateLimitHeaders (headers_now rd) sw.2 a.2 key).

Definition APIKeyExtractor (r : Request) : string :=
  let apiKey := Header_Get "Authorization" r in
  if String.eqb apiKey EmptyString then IPKeyExtractor r else apiKey.

Definition PathBasedKeyExtractor (r : Request) : string :=
  IPKeyExtractor r +:+ ":" +:+ URLPath r.

(** [NewDefaultConfig] and [NewAPIKeyConfig]: the configuration together
    with the limiter it points to. *)
Definition NewDefaultConfig (now : Time)
    : ratelimit.State * RateLimitConfig :=
  (ratelimit.NewLimiter now 100 100 Minute,
   {| KeyExtractor := Some IPKeyExtractor;
      OnRateLimitExceeded := Some DefaultRateLimitHandler;
      SkipFunc := None |}).

Definition NewAPIKeyConfig (now : Time)
    : ratelimit.State * RateLimitConfig :=
  (ratelimit.NewLimiter now 1000 1000 Minute,
   {| KeyExtractor := Some APIKeyExtractor;
      OnRateLimitExceeded := Some DefaultRateLimitHandler;
      SkipFunc := None |}).

(** The skip decision and the key that [RateLimit] computes for a
    request, with the defaults filled in. *)
Definition skipped (config : RateLimitConfig) (r : Request) : bool :=
  match SkipFunc config with Some skip => skip r | None => false end.

Definition key_of (config : RateLimitConfig) (r : Request) : string :=
  default IPKeyExtractor (KeyExtractor config) r.

Definition exceeded (config : RateLimitConfig)
    : ResponseWriter → Request → ResponseWriter :=
  default DefaultRateLimitHandler (OnRateLimitExceeded config).

(** The call of the limiter that [RateLimit] makes for a request that is
    not skipped. *)
Definition limiter_call (config : RateLimitConfig)
    (tr : Readings * Request)
    : ratelimit.Clock * (string * ratelimit.call) :=
  (limiter_clock tr.1,
   (key_of config tr.2, ratelimit.CallAllow (allow_now tr.1))).
End RateLimit.

(** Requests served one after the other by a handler, each with its own
    clock readings and a fresh response writer; the responses, in order. *)
Fixpoint serve (h : Handler) (reqs : list (Readings * Request))
    (st : ratelimit.State) : option (list ResponseWriter * ratelimit.State) :=
  match reqs with
  | [] => Some ([], st)
  | tr :: reqs' =>
      x ← h tr.1 tr.2 (st, empty_response);
      rest ← serve h reqs' x.1;
      Some (x.2 :: rest.1, rest.2)
  end.
End middleware.

(** ** Package [gateway]: the request path *)

Module proxy.
Import http gateway.

Section handleRequest.
(** [backend.ReverseProxy.ServeHTTP]: what forwarding the request to the
    backend writes, the bad-gateway reply of its error handler included. *)
Variable ServeHTTP : Backend → Request → ResponseWriter → ResponseWriter.

(** [handleRequest]; the route found is mutated in place by
    [NextBackend], so it is written back under its path. *)
Definition handleRequest (r : Request) (gw : Gateway * ResponseWriter)
    : option (Gateway * ResponseWriter) :=
  match routes gw.1 !! URLPath r with
  | None => Some (gw.1, NotFound gw.2 r)
  | Some route =>
      nb ← NextBackend route;
      let g := set_routes (<[URLPath r := nb.2]> (routes gw.1)) gw.1 in
      match nb.1 with
      | None =>
          Some (g, Write (error_body "service unavailable"
                                     "No healthy backends available")
                     (WriteHeader StatusServiceUnavailable gw.2))
      | Some backend => Some (g, ServeHTTP backend r gw.2)
      end
  end.
End handleRequest.

Section Handler.
Variable SplitHostPort : string → option string.
Variable ServeHTTP : Backend → Request → ResponseWriter → ResponseWriter.

Definition set_limiter (l : ratelimit.State) (g : Gateway) : Gateway :=
  {| routes := routes g; limiter := l; healthCheck := healthCheck g |}.

(** The configuration that [Handler] gives to [middleware.RateLimit]; its
    limiter is the gateway's. *)
Definition Handler_config : middleware.RateLimitConfig :=
  {| middleware.KeyExtractor := Some (middleware.IPKeyExtractor SplitHostPort);
     middleware.OnRateLimitExceeded :=
       Some middleware.DefaultRateLimitHandler;
     middleware.SkipFunc := None |}.

(** The handler returned by [Gateway.Handler]: the closure of
    [middleware.RateLimit] for [Handler_config], with [handleRequest] as
    the next handler.  The limiter and the routes are both fields of the
    gateway, which is the state threaded here. *)
Definition Handler (rd : middleware.Readings) (r : Request)
    (gw : Gateway * ResponseWriter) : option (Gateway * ResponseWriter) :=
  let key := middleware.key_of SplitHostPort Handler_config r in
  a ← ratelimit.Limiter_Allow (middleware.limiter_clock rd)
         (middleware.allow_now rd) key (limiter gw.1);
  let g := set_limiter a.2 gw.1 in
  if negb a.1 then Some (g, middleware.exceeded Handler_config gw.2 r)
  else
    handleRequest ServeHTTP r
      (g, middleware.AddRateLimitHeaders (middleware.headers_now rd) gw.2
            a.2 key).

(** [handleRequest] of the gateway [g] as a handler of the middleware,
    which threads the limiter only. *)
Definition next_of (g : Gateway) : middleware.Handler :=
  λ _ r sw,
    x ← handleRequest ServeHTTP r (set_limiter sw.1 g, sw.2);
    Some (sw.1, x.2).
End Handler.

(** The limiter is well formed and every cursor is inside its route. *)
Definition gateway_ok (g : Gateway) : Prop :=
  ratelimit.wf (limiter g) ∧
  ∀ path route, routes g !! path = Some route → cursor_ok route.
End proxy.

(** ** Goroutines calling [TokenBucket.Allow] concurrently

    The bucket's mutex makes the body of [Allow] a critical section.  A
    goroutine is at one of the control points below; a scheduler picks, at
    every step, a goroutine and the clock reading it would see. *)

Module sched.
Import time ratelimit.

Inductive pc :=
  | AtLock                 (* before tb.mu.Lock() *)
  | AtRefill               (* lock held, before tb.refill() *)
  | AtTest                 (* before the test tb.tokens > 0 *)
  | AtDecr                 (* before tb.tokens-- *)
  | AtUnlock (r : bool)    (* result fixed, deferred Unlock pending *)
  | Returned (r : bool).

#[global] Instance pc_eq_dec : EqDecision pc.
Proof. solve_decision. Defined.












(** The goroutine has taken its token / has been refused. *)
Definition admitted (p : pc) : bool :=
  match p with AtUnlock true | Returned true => true | _ => false end.




End sched.

(** * Properties *)

(** ** Machine arithmetic *)

Section arith.
Import time.

Lemma wrap_ok z : int64.ok z → int64.wrap z = z.
Proof.
  unfold int64.ok, int64.wrap, int64.min, int64.max. intros H.
  rewrite Z.mod_small; lia.
Qed.

Lemma wrap_range z : int64.ok (int64.wrap z).
Proof.
  unfold int64.ok, int64.wrap, int64.min, int64.max.
  pose proof (Z.mod_pos_bound (z + 2 ^ 63) (2 ^ 64)). lia.
Qed.

Lemma wrap_add_wrap a b : int64.wrap (a + int64.wrap b) = int64.wrap (a + b).
Proof.
  unfold int64.wrap. f_equal.
  replace (a + ((b + 2 ^ 63) mod 2 ^ 64 - 2 ^ 63) + 2 ^ 63)
    with (a + (b + 2 ^ 63) mod 2 ^ 64) by lia.
  rewrite Zplus_mod_idemp_r. f_equal. lia.
Qed.

Lemma Sub_range t u : int64.ok (Sub t u).
Proof.
  unfold Sub, int64.ok, int64.min, int64.max.
  repeat case_match; lia.
Qed.

Lemma Sub_exact t u : int64.ok (t - u) → Sub t u = t - u.
Proof.
  unfold Sub, int64.ok, int64.min, int64.max.
  intros H. repeat case_match; lia.
Qed.

Lemma Sub_mono t u u' : u ≤ u' → Sub t u' ≤ Sub t u.
Proof.
  unfold Sub, int64.min, int64.max. intros H. repeat case_match; lia.
Qed.


(** For a positive divisor and a non-negative dividend, Go's truncated
    [int64] quotient is the floor of the exact quotient. *)
Lemma quo_floor a b :
  0 ≤ a → int64.ok a → 0 < b → int64.quo a b = a / b.
Proof.
  intros Ha Hok Hb. unfold int64.quo.
  rewrite Z.quot_div_nonneg by lia.
  apply wrap_ok. unfold int64.ok, int64.min, int64.max in *.
  pose proof (Z.div_pos a b Ha Hb).
  pose proof (Z.div_le_upper_bound a b a Hb). nia.
Qed.
End arith.

(** ** The token bucket *)

Section token_bucket.
Import time ratelimit.

Lemma refill_noop now tb :
  Sub now (lastRefill tb) < interval tb → refill now tb = Some tb.
Proof.
  intros H. unfold refill.
  destruct (Z.ltb_spec (Sub now (lastRefill tb)) (interval tb)); [done|lia].
Qed.

Lemma refill_total now tb : interval tb ≠ 0 → is_Some (refill now tb).
Proof.
  intros H. unfold refill.
  destruct (_ <? _); [eauto|].
  destruct (Z.eqb_spec (interval tb) 0); [done|eauto].
Qed.

Lemma refill_fields now tb tb' :
  refill now tb = Some tb' →
  capacity tb' = capacity tb ∧ refillRate tb' = refillRate tb ∧
  interval tb' = interval tb.
Proof.
  unfold refill. intros H.
  repeat case_match; simplify_eq; done.
Qed.

(** A refill after at least one whole period. *)
Lemma refill_periods (now : Time) (tb : TokenBucket) :
  let elapsed := Sub now (lastRefill tb) in
  let periods := elapsed / interval tb in
  interval tb ≤ elapsed →
  0 < interval tb →
  int64.ok (tokens tb + periods * refillRate tb) →
  ∃ tb',
    refill now tb = Some tb' ∧
    tokens tb' = Z.min (capacity tb) (tokens tb + periods * refillRate tb) ∧
    lastRefill tb' = lastRefill tb + periods * interval tb ∧
    capacity tb' = capacity tb ∧ refillRate tb' = refillRate tb ∧
    interval tb' = interval tb ∧
    (now - lastRefill tb ≤ int64.max →
     Sub now (lastRefill tb') = elapsed - periods * interval tb ∧
     0 ≤ Sub now (lastRefill tb') < interval tb).
Proof.
  intros elapsed periods Hge Hpos Hok.
  pose proof (Sub_range now (lastRefill tb)) as Hel. fold elapsed in Hel.
  assert (0 ≤ elapsed) as Hel0 by lia.
  assert (int64.quo elapsed (interval tb) = periods) as Hq
    by (by apply quo_floor).
  assert (0 ≤ periods * interval tb ≤ elapsed) as Hpi.
  { subst periods. pose proof (Z.mul_div_le elapsed (interval tb) Hpos).
    pose proof (Z.div_pos elapsed (interval tb) Hel0 Hpos). nia. }
  unfold refill. fold elapsed.
  destruct (Z.ltb_spec elapsed (interval tb)); [lia|].
  destruct (Z.eqb_spec (interval tb) 0); [lia|].
  rewrite Hq, wrap_add_wrap, (wrap_ok _ Hok).
  rewrite (wrap_ok (periods * interval tb))
    by (unfold int64.ok, int64.min, int64.max in *; lia).
  eexists; split; [reflexivity|]. simpl. split_and!; try done.
  - destruct (Z.gtb_spec (tokens tb + periods * refillRate tb) (capacity tb));
      lia.
  - intros Hsat. unfold Add.
    assert (elapsed = now - lastRefill tb) as Hexact.
    { subst elapsed. apply Sub_exact. revert Hel0 Hsat.
      unfold Sub, int64.ok, int64.min, int64.max.
      repeat case_match; lia. }
    assert (0 ≤ elapsed - periods * interval tb < interval tb) as Hrem.
    { subst periods. rewrite <- Zmod_eq_full by lia.
      apply Z.mod_pos_bound. lia. }
    rewrite Sub_exact.
    + lia.
    + unfold int64.ok, int64.min, int64.max in *. lia.
Qed.

(** C1, amended.  The refill step at the start of [Allow], [AllowN] and
    [Available]: with [elapsed = now - lastRefill], the bucket is unchanged
    when [elapsed < interval]; otherwise, for a positive interval and as
    long as the token sum fits the machine integer, with
    [periods = floor (elapsed / interval)] the tokens become
    [min capacity (tokens + periods * refillRate)], [lastRefill] advances
    by exactly [periods * interval], and, when [elapsed] is not saturated,
    the remainder [elapsed - periods * interval] is what the next call
    sees as elapsed. *)
Theorem refill_spec (now : Time) (tb : TokenBucket) :
  let elapsed := Sub now (lastRefill tb) in
  let periods := elapsed / interval tb in
  (Allow now tb = tb' ← refill now tb; Some (take_one tb')) ∧
  (∀ n, AllowN now n tb = tb' ← refill now tb; Some (take_n n tb')) ∧
  (Available now tb = tb' ← refill now tb; Some (tokens tb', tb')) ∧
  (elapsed < interval tb → refill now tb = Some tb) ∧
  (interval tb ≤ elapsed →
   0 < interval tb →
   int64.ok (tokens tb + periods * refillRate tb) →
   ∃ tb',
     refill now tb = Some tb' ∧
     tokens tb' = Z.min (capacity tb) (tokens tb + periods * refillRate tb) ∧
     lastRefill tb' = lastRefill tb + periods * interval tb ∧
     capacity tb' = capacity tb ∧ refillRate tb' = refillRate tb ∧
     interval tb' = interval tb ∧
     (now - lastRefill tb ≤ int64.max →
      Sub now (lastRefill tb') = elapsed - periods * interval tb ∧
      0 ≤ Sub now (lastRefill tb') < interval tb)).
Proof.
  intros elapsed periods. split_and!; [done|done|done|apply refill_noop|].
  apply refill_periods.
Qed.

Lemma refill_spec_witness :
  let tb := {| capacity := 10; tokens := 0; refillRate := 10;
               interval := 100 * Millisecond; lastRefill := 0 |} in
  ∃ tb', refill (150 * Millisecond) tb = Some tb' ∧
         tokens tb' = 10 ∧ lastRefill tb' = 100 * Millisecond ∧
         Sub (150 * Millisecond) (lastRefill tb') = 50 * Millisecond.
Proof.
  intros tb.
  destruct (refill_spec (150 * Millisecond) tb) as (_ & _ & _ & _ & H).
  destruct H as (tb' & Hr & Ht & Hl & _ & _ & _ & Hrem).
  - vm_compute. discriminate.
  - vm_compute. reflexivity.
  - vm_compute. split; discriminate.
  - exists tb'. split; [exact Hr|]. split; [exact Ht|]. split; [exact Hl|].
    destruct Hrem as [Hrem _].
    + vm_compute. discriminate.
    + exact Hrem.
Defined.

(** The claim as first stated, for every bucket, fails outside these
    conditions, on buckets as [NewTokenBucket] makes them.  With interval
    zero the refill step panics, even when no time has passed.  With a
    negative interval the quotient is truncated, not floored: after 2.5
    seconds with interval -1 second and rate 10 the full bucket of
    capacity 10 is left with -10 tokens, where the claim gives -20, and
    [lastRefill] moves by 2 seconds, where the claim gives 3.  With the
    largest refill rate the sum wraps around and is not clamped.  When
    the clock is more than the longest [Duration] ahead of [lastRefill],
    [elapsed] is saturated and the next call sees much more than the
    remainder. *)
Lemma refill_outside_conditions :
  refill 0 (NewTokenBucket 0 10 10 0) = None ∧
  (let tb := NewTokenBucket 0 10 10 (- Second) in
   let now := 2500 * Millisecond in
   let elapsed := Sub now (lastRefill tb) in
   let periods := elapsed / interval tb in
   ¬ elapsed < interval tb ∧
   ∃ tb',
     refill now tb = Some tb' ∧
     tokens tb' = -10 ∧
     Z.min (capacity tb) (tokens tb + periods * refillRate tb) = -20 ∧
     lastRefill tb' = 2 * Second ∧
     lastRefill tb + periods * interval tb = 3 * Second) ∧
  (let tb := NewTokenBucket 0 10 int64.max Second in
   let now := Second in
   let elapsed := Sub now (lastRefill tb) in
   let periods := elapsed / interval tb in
   ¬ elapsed < interval tb ∧
   ∃ tb',
     refill now tb = Some tb' ∧
     tokens tb' = -9223372036854775799 ∧
     Z.min (capacity tb) (tokens tb + periods * refillRate tb) = 10) ∧
  (let tb := NewTokenBucket (-5000000000 * Second) 10 10 Second in
   let now := 5000000000 * Second in
   let elapsed := Sub now (lastRefill tb) in
   let periods := elapsed / interval tb in
   ¬ elapsed < interval tb ∧
   ∃ tb',
     refill now tb = Some tb' ∧
     elapsed - periods * interval tb = 854775807 ∧
     Sub now (lastRefill tb') = 776627964 * Second).
Proof.
  split_and!.
  - reflexivity.
  - split; [vm_compute; discriminate|].
    eexists. split; [vm_compute; reflexivity|].
    split_and!; vm_compute; reflexivity.
  - split; [vm_compute; discriminate|].
    eexists. split; [vm_compute; reflexivity|].
    split_and!; vm_compute; reflexivity.
  - split; [vm_compute; discriminate|].
    eexists. split; [vm_compute; reflexivity|].
    split_and!; vm_compute; reflexivity.
Qed.

Lemma take_n_true n tb :
  n ≤ tokens tb →
  take_n n tb = (true, set_tokens (int64.wrap (tokens tb - n)) tb).
Proof.
  intros H. unfold take_n.
  destruct (Z.geb_spec (tokens tb) n); [done|lia].
Qed.

Lemma take_n_false n tb : tokens tb < n → take_n n tb = (false, tb).
Proof.
  intros H. unfold take_n.
  destruct (Z.geb_spec (tokens tb) n); [lia|done].
Qed.

(** C5, amended.  [AllowN n] is all-or-nothing.  After the refill step
    has produced [tb'], the call returns true and subtracts [n], in the
    machine integer, when [tokens tb' >= n], and returns false leaving the
    bucket as the refill left it otherwise.  For [n] not negative, a call
    that succeeds leaves exactly [tokens tb' - n], which is not negative:
    the count never becomes negative and nothing is consumed in part.
    With capacity 10: [AllowN 5] succeeds leaving 5, [AllowN 6] fails
    leaving 5, [AllowN 5] succeeds leaving 0. *)
Theorem AllowN_all_or_nothing (now : Time) (n : Z) (tb tb' : TokenBucket) :
  refill now tb = Some tb' →
  (tokens tb' >= n →
   AllowN now n tb =
     Some (true, set_tokens (int64.wrap (tokens tb' - n)) tb')) ∧
  (tokens tb' < n → AllowN now n tb = Some (false, tb')) ∧
  (0 ≤ n → tokens tb' ≤ int64.max →
   ∀ r tb'', AllowN now n tb = Some (r, tb'') →
     (r = true ∧ tokens tb' >= n ∧ tokens tb'' = tokens tb' - n ∧
      0 ≤ tokens tb'') ∨
     (r = false ∧ tokens tb' < n ∧ tb'' = tb')) ∧
  (0 ≤ n → 0 ≤ tokens tb' ≤ int64.max →
   ∀ r tb'', AllowN now n tb = Some (r, tb'') → 0 ≤ tokens tb'') ∧
  run_calls [CallAllowN 0 5; CallAllowN 0 6; CallAllowN 0 5] bucket10 =
    Some [(true, set_tokens 5 bucket10); (false, set_tokens 5 bucket10);
          (true, set_tokens 0 bucket10)].
Proof.
  intros Hr.
  assert (0 ≤ n → tokens tb' ≤ int64.max →
    ∀ r tb'', AllowN now n tb = Some (r, tb'') →
      (r = true ∧ tokens tb' >= n ∧ tokens tb'' = tokens tb' - n ∧
       0 ≤ tokens tb'') ∨
      (r = false ∧ tokens tb' < n ∧ tb'' = tb')) as Hcases.
  { intros Hn Hmax r tb'' H. unfold AllowN in H. rewrite Hr in H.
    simpl in H.
    destruct (Z.lt_ge_cases (tokens tb') n) as [Hlt|Hge].
    - rewrite take_n_false in H by done. simplify_eq. right. done.
    - rewrite take_n_true in H by done. simplify_eq. left. simpl.
      rewrite wrap_ok
        by (unfold int64.ok, int64.min, int64.max in *; lia).
      split_and!; [done|lia|done|lia]. }
  split_and!.
  - intros H. unfold AllowN. rewrite Hr. simpl.
    by rewrite take_n_true by lia.
  - intros H. unfold AllowN. rewrite Hr. simpl. by rewrite take_n_false.
  - exact Hcases.
  - intros Hn [H0 Hmax] r tb'' H.
    destruct (Hcases Hn Hmax r tb'' H) as [(_ & _ & _ & ?)|(_ & _ & ->)];
      done.
  - reflexivity.
Qed.

Lemma AllowN_all_or_nothing_witness :
  AllowN 0 6 (set_tokens 5 bucket10) = Some (false, set_tokens 5 bucket10) ∧
  AllowN 0 5 (set_tokens 5 bucket10) = Some (true, set_tokens 0 bucket10) ∧
  ∀ r tb'', AllowN 0 5 (set_tokens 5 bucket10) = Some (r, tb'') →
            0 ≤ tokens tb''.
Proof.
  pose proof (AllowN_all_or_nothing 0 6 (set_tokens 5 bucket10)
                (set_tokens 5 bucket10) eq_refl) as (_ & H6 & _).
  pose proof (AllowN_all_or_nothing 0 5 (set_tokens 5 bucket10)
                (set_tokens 5 bucket10) eq_refl) as (H5 & _ & _ & H0 & _).
  split; [|split].
  - apply H6. vm_compute. reflexivity.
  - apply H5. vm_compute. discriminate.
  - apply H0.
    + vm_compute. discriminate.
    + vm_compute. split; discriminate.
Defined.

(** The claim as first stated, for every [n], fails on a negative [n]:
    on a fresh bucket of capacity 10, [AllowN] of the smallest machine
    integer succeeds, the subtraction wraps around, and the bucket is left
    with a negative count, which is not the count less [n]. *)
Lemma AllowN_min_int64_leaves_negative :
  ∃ tb'',
    AllowN 0 int64.min bucket10 = Some (true, tb'') ∧
    0 ≤ tokens bucket10 ∧
    tokens tb'' = -9223372036854775798 ∧
    tokens tb'' < 0 ∧
    tokens tb'' ≠ tokens bucket10 - int64.min.
Proof.
  eexists. split_and!; [vm_compute; reflexivity|done|reflexivity|done|done].
Qed.

Lemma take_one_take_n tb : take_one tb = take_n 1 tb.
Proof.
  unfold take_one, take_n.
  destruct (Z.gtb_spec (tokens tb) 0), (Z.geb_spec (tokens tb) 1);
    done || lia.
Qed.

(** C10. [Allow] is [AllowN 1]: same answer, same bucket afterwards, for
    every bucket and every clock reading (a panic of the refill step
    included). *)
Theorem Allow_is_AllowN_1 (now : Time) (tb : TokenBucket) :
  Allow now tb = AllowN now 1 tb.
Proof.
  unfold Allow, AllowN. destruct (refill now tb) as [tb'|]; [|done].
  simpl. f_equal. apply take_one_take_n.
Qed.

(** C2. The capacity bound [0 <= tokens <= capacity] is broken by a
    negative argument of [AllowN]: on a fresh bucket of capacity 10,
    [AllowN (-5)] succeeds and leaves 15 tokens. *)
Theorem AllowN_negative_exceeds_capacity :
  run_calls [CallAllowN 0 (-5)] bucket10 =
    Some [(true, set_tokens 15 bucket10)] ∧
  1 ≤ capacity bucket10 ∧
  ¬ (0 ≤ tokens (set_tokens 15 bucket10) ≤ capacity (set_tokens 15 bucket10)).
Proof.
  split; [reflexivity|]. split; [done|]. simpl. lia.
Qed.

(** Where the bound does hold: a call whose [AllowN] argument is not
    negative keeps [0 <= tokens <= capacity], for a non-negative refill rate
    and a positive interval, as long as the refill stays within the machine
    integer. *)
Lemma capacity_bound_step (c : call) (tb : TokenBucket) r tb' :
  0 ≤ tokens tb ≤ capacity tb → capacity tb ≤ int64.max →
  0 < interval tb → 0 ≤ refillRate tb →
  int64.ok (tokens tb +
            Sub (call_now c) (lastRefill tb) / interval tb * refillRate tb) →
  0 ≤ call_amount c →
  run_call c tb = Some (r, tb') →
  0 ≤ tokens tb' ≤ capacity tb' ∧ capacity tb' = capacity tb.
Proof.
  intros Hb Hmax Hint Hrate Hok Hn Hrun.
  assert (∃ tb1, refill (call_now c) tb = Some tb1 ∧
                 0 ≤ tokens tb1 ≤ capacity tb1 ∧
                 capacity tb1 = capacity tb) as (tb1 & Hr & Hb1 & Hc1).
  { destruct (Z.lt_ge_cases (Sub (call_now c) (lastRefill tb)) (interval tb))
      as [Hlt|Hge].
    - exists tb. by rewrite refill_noop.
    - destruct (refill_periods (call_now c) tb Hge Hint Hok)
        as (tb1 & -> & Ht & _ & Hc & _).
      exists tb1. split; [done|]. rewrite Ht, Hc. split; [|done].
      assert (0 ≤ Sub (call_now c) (lastRefill tb) / interval tb)
        by (apply Z.div_pos; lia).
      nia. }
  assert (∀ n, 0 ≤ n → take_n n tb1 = (r, tb') →
               0 ≤ tokens tb' ≤ capacity tb' ∧ capacity tb' = capacity tb)
    as Htake.
  { intros n Hn0. unfold take_n.
    destruct (Z.geb_spec (tokens tb1) n) as [Hge|Hlt]; intros [= <- <-].
    - cbn [tokens capacity set_tokens].
      rewrite wrap_ok by (unfold int64.ok, int64.min, int64.max in *; lia).
      lia.
    - lia. }
  destruct c as [now|now n]; cbn [run_call call_now call_amount] in *.
  - unfold Allow in Hrun. rewrite Hr in Hrun.
    cbn [mbind option_bind] in Hrun. rewrite take_one_take_n in Hrun.
    apply (Htake 1); [lia|congruence].
  - unfold AllowN in Hrun. rewrite Hr in Hrun.
    cbn [mbind option_bind] in Hrun. apply (Htake n); [lia|congruence].
Qed.
End token_bucket.

(** ** Round-robin selection *)

Section route.
Import gateway.

Lemma set_current_id r : set_current (current r) r = r.
Proof. by destruct r. Qed.

Lemma NextBackend_loop_scan (bs : list Backend) (n : nat) (cur : Z) :
  0 < Z.of_nat (length bs) ≤ int64.max →
  0 ≤ cur < Z.of_nat (length bs) →
  ∃ res, NextBackend_loop n bs cur = Some res ∧
    0 ≤ res.2 < Z.of_nat (length bs) ∧
    match res.1 with
    | Some b =>
        ∃ i : nat, (i < n)%nat ∧
          res.2 = (cur + 1 + Z.of_nat i) `mod` Z.of_nat (length bs) ∧
          bs !! scan_pos bs cur i = Some b ∧ IsAlive b = true ∧
          ∀ j y, (j < i)%nat → bs !! scan_pos bs cur j = Some y →
                 IsAlive y = false
    | None =>
        res.2 = (cur + Z.of_nat n) `mod` Z.of_nat (length bs) ∧
        ∀ j y, (j < n)%nat → bs !! scan_pos bs cur j = Some y →
               IsAlive y = false
    end.
Proof.
  intros Hlen. revert cur. induction n as [|n IH]; intros cur Hcur.
  { exists (None, cur). simpl. split_and!; [done|lia|lia| |intros; lia].
    rewrite Z.add_0_r, Z.mod_small; lia. }
  simpl NextBackend_loop.
  rewrite (wrap_ok (cur + 1))
    by (unfold int64.ok, int64.min, int64.max in *; lia).
  rewrite Z.rem_mod_nonneg by lia.
  set (cur' := (cur + 1) `mod` Z.of_nat (length bs)).
  assert (0 ≤ cur' < Z.of_nat (length bs)) as Hcur'
    by (apply Z.mod_pos_bound; lia).
  destruct (Z.ltb_spec cur' 0); [lia|].
  destruct (lookup_lt_is_Some_2 bs (Z.to_nat cur')) as [b Hb]; [lia|].
  rewrite Hb.
  assert (scan_pos bs cur 0%nat = Z.to_nat cur') as Hpos0
    by (subst cur'; unfold scan_pos; do 2 f_equal; lia).
  destruct (IsAlive b) eqn:Hal.
  - exists (Some b, cur'). simpl. split_and!; [done|lia|lia|].
    exists 0%nat. split_and!; [lia| |by rewrite Hpos0|done|intros; lia].
    subst cur'. f_equal. lia.
  - destruct (IH cur' Hcur') as (res & Hres & Hrng & Hmatch).
    exists res. split; [done|]. split; [done|].
    assert (∀ j : nat, scan_pos bs cur' j = scan_pos bs cur (S j)) as Hshift.
    { intros j. subst cur'. unfold scan_pos. f_equal.
      rewrite <- Z.add_assoc, Zplus_mod_idemp_l. f_equal. lia. }
    destruct res as [[b'|] c]; simpl in *.
    + destruct Hmatch as (i & Hi & Hc & Hbi & Hali & Hbefore).
      exists (S i). split_and!; [lia| |by rewrite <- Hshift|done|].
      * rewrite Hc. subst cur'.
        rewrite <- Z.add_assoc, Zplus_mod_idemp_l. f_equal. lia.
      * intros [|j] y Hj Hy.
        -- rewrite Hpos0, Hb in Hy. by simplify_eq.
        -- rewrite <- Hshift in Hy. eapply Hbefore; [|done]. lia.
    + destruct Hmatch as (Hc & Hnone). split.
      * rewrite Hc. subst cur'. rewrite Zplus_mod_idemp_l. f_equal. lia.
      * intros [|j] y Hj Hy.
        -- rewrite Hpos0, Hb in Hy. by simplify_eq.
        -- rewrite <- Hshift in Hy. eapply Hnone; [|done]. lia.
Qed.

Lemma rotate_scan_pos (bs : list Backend) (cur : Z) (j : nat) :
  0 ≤ cur →
  rotate_nat_add (Z.to_nat cur + 1) j (length bs) = scan_pos bs cur j.
Proof.
  intros H. unfold rotate_nat_add, scan_pos. do 2 f_equal. lia.
Qed.

(** What one call does, in terms of the backends taken in scan order. *)
Lemma NextBackend_find (r : Route) :
  cursor_ok r →
  NextBackend r =
    Some (match list_find (λ b, IsAlive b = true)
                  (rotate (Z.to_nat (current r) + 1) (Backends r)) with
          | Some (i, b) =>
              (Some b,
               set_current ((current r + 1 + Z.of_nat i) `mod`
                              Z.of_nat (length (Backends r))) r)
          | None => (None, r)
          end).
Proof.
  intros [Hcur Hmax]. unfold NextBackend.
  destruct (decide (length (Backends r) = 0%nat)) as [Hz|Hnz].
  { rewrite Hz. simpl. apply nil_length_inv in Hz. rewrite Hz.
    unfold rotate. rewrite drop_nil, take_nil. simpl.
    by rewrite set_current_id. }
  destruct (NextBackend_loop_scan (Backends r) (length (Backends r))
              (current r)) as (res & -> & Hrng & Hm); [lia|lia|].
  simpl. f_equal. destruct res as [[b|] c]; simpl in *.
  - destruct Hm as (i & Hi & -> & Hb & Hal & Hbefore).
    erewrite (proj2 (list_find_Some _ _ i b)); [done|].
    split_and!; [|done|].
    + rewrite lookup_rotate_r by done. by rewrite rotate_scan_pos by lia.
    + intros j y Hy Hj. rewrite lookup_rotate_r in Hy by lia.
      rewrite rotate_scan_pos in Hy by lia.
      rewrite (Hbefore j y); done.
  - destruct Hm as (-> & Hnone).
    erewrite (proj2 (list_find_None _ _)).
    + assert ((current r + Z.of_nat (length (Backends r))) `mod`
                Z.of_nat (length (Backends r)) = current r) as ->.
      { rewrite <- (Z.mul_1_l (Z.of_nat (length (Backends r)))) at 1.
        rewrite Z.mod_add by lia. apply Z.mod_small. lia. }
      by rewrite set_current_id.
    + apply Forall_lookup. intros j y Hy.
      pose proof (lookup_lt_Some _ _ _ Hy) as Hj.
      rewrite length_rotate in Hj.
      rewrite lookup_rotate_r in Hy by lia.
      rewrite rotate_scan_pos in Hy by lia.
      rewrite (Hnone j y); done.
Qed.

Lemma NextBackend_iter_S k r :
  NextBackend_iter (S k) r =
    x ← NextBackend r; rest ← NextBackend_iter k x.2;
    Some (x.1 :: rest.1, rest.2).
Proof. reflexivity. Qed.

Lemma route3_cycle k :
  fst <$> NextBackend_iter k route3 =
    Some (alternate (Some B3) (Some B1) k) ∧
  fst <$> NextBackend_iter k (set_current 2 route3) =
    Some (alternate (Some B1) (Some B3) k).
Proof.
  induction k as [|k [IH0 IH2]]; [done|].
  rewrite !NextBackend_iter_S.
  change (NextBackend route3) with (Some (Some B3, set_current 2 route3)).
  change (NextBackend (set_current 2 route3)) with (Some (Some B1, route3)).
  simpl. split.
  - destruct (NextBackend_iter k (set_current 2 route3)) as [[l r']|];
      simpl in *; by simplify_eq.
  - destruct (NextBackend_iter k route3) as [[l r']|];
      simpl in *; by simplify_eq.
Qed.

Lemma route3_dead_none k :
  fst <$> NextBackend_iter k route3_dead = Some (replicate k None).
Proof.
  induction k as [|k IH]; [done|].
  rewrite NextBackend_iter_S.
  change (NextBackend route3_dead)
    with (Some (@None Backend, route3_dead)).
  simpl. destruct (NextBackend_iter k route3_dead) as [[l r']|];
    simpl in *; by simplify_eq.
Qed.

(** C4. One call of [NextBackend] on a route whose cursor is an index of
    its backends: the cursor moves on by one modulo the number of backends
    and the backends are scanned from there, at most once each; the first
    alive one is returned and the cursor stays on it; when no backend is
    alive the answer is none (and the cursor is back where it was).  With
    backends [B1 alive; B2 dead; B3 alive] and the cursor on B1, repeated
    calls return B3, B1, B3, B1, ... and never B2; with all three dead
    every call returns none. *)
Theorem NextBackend_round_robin (r : Route) :
  (cursor_ok r →
   NextBackend r =
     Some (match list_find (λ b, IsAlive b = true)
                   (rotate (Z.to_nat (current r) + 1) (Backends r)) with
           | Some (i, b) =>
               (Some b,
                set_current ((current r + 1 + Z.of_nat i) `mod`
                               Z.of_nat (length (Backends r))) r)
           | None => (None, r)
           end) ∧
   (∀ ob r', NextBackend r = Some (ob, r') →
      cursor_ok r' ∧ Backends r' = Backends r ∧
      match ob with
      | Some b =>
          IsAlive b = true ∧
          Backends r !! Z.to_nat (current r') = Some b
      | None => Forall (λ b, IsAlive b = false) (Backends r) ∧ r' = r
      end) ∧
   (Forall (λ b, IsAlive b = false) (Backends r) →
    NextBackend r = Some (None, r))) ∧
  (∀ k, fst <$> NextBackend_iter k route3 =
          Some (alternate (Some B3) (Some B1) k)) ∧
  (∀ k, Some B2 ∉ alternate (Some B3) (Some B1) k) ∧
  (∀ k, fst <$> NextBackend_iter k route3_dead = Some (replicate k None)).
Proof.
  split_and!.
  - intros Hok. pose proof (NextBackend_find r Hok) as Hfind.
    split_and!; [done| |].
    + intros ob r' H. rewrite Hfind in H.
      destruct (list_find _ _) as [[i b]|] eqn:Hlf; simplify_eq.
      * apply list_find_Some in Hlf as (Hb & Hal & _).
        pose proof (lookup_lt_Some _ _ _ Hb) as Hi.
        rewrite length_rotate in Hi.
        destruct Hok as [Hcur Hmax].
        pose proof (Z.mod_pos_bound (current r + 1 + Z.of_nat i)
                      (Z.of_nat (length (Backends r)))) as Hmod.
        split_and!; [split; simpl; [lia|done]|done|done|].
        simpl. rewrite lookup_rotate_r in Hb by done.
        by rewrite rotate_scan_pos in Hb by lia.
      * apply list_find_None in Hlf.
        split_and!; [done|done| |done].
        apply Forall_forall. intros b Hb.
        rewrite Forall_forall in Hlf.
        specialize (Hlf b). rewrite elem_of_rotate in Hlf.
        destruct (IsAlive b); [by destruct Hlf|done].
    + intros Hdead. rewrite Hfind.
      erewrite (proj2 (list_find_None _ _)); [done|].
      apply Forall_forall. intros b Hb. rewrite elem_of_rotate in Hb.
      rewrite Forall_forall in Hdead. by rewrite (Hdead b Hb).
  - intros k. apply route3_cycle.
  - intros k.
    assert (∀ a b : Backend, IsAlive a = true → IsAlive b = true →
              Some B2 ∉ alternate (Some a) (Some b) k) as Hgen.
    { induction k as [|k IH]; intros a b Ha Hb; simpl.
      - apply not_elem_of_nil.
      - apply not_elem_of_cons. split; [|by apply IH].
        intros Heq. simplify_eq. }
    by apply Hgen.
  - intros k. apply route3_dead_none.
Qed.

Lemma NextBackend_round_robin_witness :
  NextBackend route3 = Some (Some B3, set_current 2 route3) ∧
  NextBackend route3_dead = Some (None, route3_dead).
Proof.
  split.
  - destruct (NextBackend_round_robin route3) as [H _].
    destruct H as [H _].
    + vm_compute. repeat split; discriminate.
    + exact H.
  - destruct (NextBackend_round_robin route3_dead) as [H _].
    destruct H as (_ & _ & H).
    + vm_compute. repeat split; discriminate.
    + apply H. repeat constructor.
Defined.
End route.

(** ** Route registration *)

Section registration.
Import gateway.
Variable Parse : string → option url.URL.

Lemma parse_backends_ok urls acc us :
  Forall2 (λ u x, Parse u = Some x) urls us →
  parse_backends Parse urls acc = inr (acc ++ (new_backend <$> us)).
Proof.
  intros H. revert acc.
  induction H as [|u x urls us Hu _ IH]; intros acc; simpl.
  - by rewrite app_nil_r.
  - rewrite Hu, IH. by rewrite <- app_assoc.
Qed.

Lemma parse_backends_bad pre bad post acc :
  Forall (λ u, is_Some (Parse u)) pre → Parse bad = None →
  parse_backends Parse (pre ++ bad :: post) acc = inl bad.
Proof.
  intros Hpre Hbad. revert acc.
  induction Hpre as [|u pre [x Hu] _ IH]; intros acc; simpl.
  - by rewrite Hbad.
  - by rewrite Hu, IH.
Qed.

Lemma first_unparseable urls :
  Exists (λ u, Parse u = None) urls →
  ∃ pre bad post, urls = pre ++ bad :: post ∧
    Forall (λ u, is_Some (Parse u)) pre ∧ Parse bad = None.
Proof.
  induction urls as [|u urls IH]; intros H; [by inversion H|].
  destruct (Parse u) as [x|] eqn:Hu.
  - inversion H as [?? Hnone|?? Hex]; simplify_eq.
    destruct (IH Hex) as (pre & bad & post & -> & Hpre & Hbad).
    exists (u :: pre), bad, post. split_and!; [done| |done].
    constructor; [by rewrite Hu|done].
  - exists [], u, urls. split_and!; [done|constructor|done].
Qed.

Lemma all_parseable urls :
  ¬ Exists (λ u, Parse u = None) urls →
  ∃ us, Forall2 (λ u x, Parse u = Some x) urls us.
Proof.
  induction urls as [|u urls IH]; intros H.
  - exists []. constructor.
  - destruct (Parse u) as [x|] eqn:Hu.
    + destruct IH as [us Hus].
      * intros Hex. apply H. by right.
      * exists (x :: us). by constructor.
    + destruct H. by left.
Qed.

Lemma set_routes_insert_insert path r1 r2 g :
  set_routes
    (<[path := r2]> (routes (set_routes (<[path := r1]> (routes g)) g)))
    (set_routes (<[path := r1]> (routes g)) g) =
  set_routes (<[path := r2]> (routes g)) g.
Proof. unfold set_routes. simpl. by rewrite insert_insert_eq. Qed.

Lemma AddRoute_success path urls g :
  (AddRoute Parse path urls g).1 = None →
  ∃ bs, ∀ h, AddRoute Parse path urls h =
    (None, set_routes
       (<[path := {| Path := path; Backends := bs; current := 0 |}]>
          (routes h)) h).
Proof.
  intros H. unfold AddRoute in *.
  destruct (parse_backends Parse urls []) as [bad|bs]; [done|].
  by exists bs.
Qed.

(** C6. [AddRoute path targets] is atomic and idempotent per path.  When
    some target does not parse, the call returns the configuration error
    for the first such target and the gateway, its routing table
    included, is exactly what it was.  When every target parses, the
    route for [path] is installed with one alive backend per target, in
    order, and the cursor at 0; the routes of other paths are never
    touched; adding [path] again replaces the route installed before, and
    adding the same targets twice is the same as adding them once. *)
Theorem AddRoute_atomic (path : string) (urls : list string) (g : Gateway) :
  (Exists (λ u, Parse u = None) urls →
   ∃ pre bad post, urls = pre ++ bad :: post ∧
     Forall (λ u, is_Some (Parse u)) pre ∧ Parse bad = None ∧
     AddRoute Parse path urls g = (Some (InvalidBackendURL bad), g)) ∧
  (∀ us, Forall2 (λ u x, Parse u = Some x) urls us →
     AddRoute Parse path urls g =
       (None,
        set_routes
          (<[path := {| Path := path; Backends := new_backend <$> us;
                        current := 0 |}]> (routes g)) g)) ∧
  (∀ p, p ≠ path →
     routes (AddRoute Parse path urls g).2 !! p = routes g !! p) ∧
  (∀ again, (AddRoute Parse path again g).1 = None →
     AddRoute Parse path again (AddRoute Parse path urls g).2 =
     AddRoute Parse path again g) ∧
  AddRoute Parse path urls (AddRoute Parse path urls g).2 =
    AddRoute Parse path urls g.
Proof.
  split_and!.
  - intros Hex.
    destruct (first_unparseable urls Hex)
      as (pre & bad & post & -> & Hpre & Hbad).
    exists pre, bad, post. split_and!; [done..|].
    unfold AddRoute. by rewrite parse_backends_bad.
  - intros us Hus. unfold AddRoute.
    by rewrite (parse_backends_ok urls [] us Hus).
  - intros p Hp. unfold AddRoute.
    destruct (parse_backends Parse urls []) as [bad|bs]; [done|].
    simpl. by rewrite lookup_insert_ne.
  - intros again Hagain.
    destruct (AddRoute_success path again g Hagain) as [bs2 Hbs2].
    rewrite !Hbs2.
    destruct (AddRoute Parse path urls g) as [e g1] eqn:Hadd.
    unfold AddRoute in Hadd. cbn [snd].
    destruct (parse_backends Parse urls []) as [bad|bs]; simplify_eq;
      [done|].
    f_equal. apply set_routes_insert_insert.
  - destruct (AddRoute Parse path urls g) as [[e|] g1] eqn:Hadd.
    + unfold AddRoute in Hadd.
      destruct (parse_backends Parse urls []) as [bad|bs] eqn:Hp;
        simplify_eq.
      simpl. unfold AddRoute. by rewrite Hp.
    + destruct (AddRoute_success path urls g) as [bs Hbs];
        [by rewrite Hadd|].
      rewrite Hbs in Hadd. simplify_eq. rewrite Hbs. cbn [snd].
      f_equal. apply set_routes_insert_insert.
Qed.
End registration.

Lemma AddRoute_atomic_witness :
  let Parse := λ s : string,
    if String.eqb s "%zz" then None
    else Some (url.mkURL "http" s EmptyString) in
  let g := {| gateway.routes := ∅;
              gateway.limiter := ratelimit.NewLimiter 0 100 100 time.Minute;
              gateway.healthCheck := 10 * time.Second |} in
  (∃ bad, Parse bad = None ∧
     gateway.AddRoute Parse "/api" ["localhost:8081"; "%zz"] g =
       (Some (gateway.InvalidBackendURL bad), g)) ∧
  gateway.routes
    (gateway.AddRoute Parse "/api" ["localhost:8081"; "localhost:8082"] g).2
    !! "/api" =
  Some {| gateway.Path := "/api";
          gateway.Backends :=
            gateway.new_backend <$>
              [url.mkURL "http" "localhost:8081" EmptyString;
               url.mkURL "http" "localhost:8082" EmptyString];
          gateway.current := 0 |}.
Proof.
  intros Parse g. split.
  - destruct (AddRoute_atomic Parse "/api" ["localhost:8081"; "%zz"] g)
      as [H _].
    destruct H as (pre & bad & post & _ & _ & Hbad & Hres).
    + right. left. reflexivity.
    + exists bad. split; [exact Hbad|exact Hres].
  - destruct (AddRoute_atomic Parse "/api"
                ["localhost:8081"; "localhost:8082"] g) as (_ & H & _).
    rewrite (H [url.mkURL "http" "localhost:8081" EmptyString;
                url.mkURL "http" "localhost:8082" EmptyString]).
    + apply lookup_insert_eq.
    + repeat constructor.
Defined.

(** ** Health checks *)

Section health.
Import gateway.
Variable request : Type.
Variable NewRequestWithContext : url.URL → option request.
Variable Do : request → option Z.

Lemma healthCheckAll_lookup g path :
  routes (healthCheckAll request NewRequestWithContext Do g) !! path =
    (λ route,
       set_Backends (probe request NewRequestWithContext Do <$>
                       Backends route) route) <$> routes g !! path.
Proof. unfold healthCheckAll. simpl. by rewrite lookup_fmap. Qed.

(** C7. A probe answers alive exactly when the health request to the
    backend's [/health] path can be built, is answered, and the status
    code of the answer is from 200 to 499; a request that cannot be built
    and a transport failure both give not alive.  [healthCheckAll] is a
    total function: it fails in no case, keeps the paths, the order of
    the backends, their targets and the cursors, and sets the flag of
    every backend to the outcome of its own probe. *)
Theorem health_probe_alive :
  (∀ u, isBackendAlive request NewRequestWithContext Do u = true ↔
     ∃ req code,
       NewRequestWithContext (url.set_Path "/health" u) = Some req ∧
       Do req = Some code ∧ 200 ≤ code < 500) ∧
  (∀ u, NewRequestWithContext (url.set_Path "/health" u) = None →
        isBackendAlive request NewRequestWithContext Do u = false) ∧
  (∀ u req, NewRequestWithContext (url.set_Path "/health" u) = Some req →
            Do req = None → isBackendAlive request NewRequestWithContext Do u = false) ∧
  (∀ u req code,
     NewRequestWithContext (url.set_Path "/health" u) = Some req →
     Do req = Some code → 500 ≤ code ∨ code < 200 → isBackendAlive request NewRequestWithContext Do u = false) ∧
  (∀ g, dom (routes (healthCheckAll request NewRequestWithContext Do g)) = dom (routes g)) ∧
  (∀ g path route i b,
     routes g !! path = Some route → Backends route !! i = Some b →
     ∃ route',
       routes (healthCheckAll request NewRequestWithContext Do g) !! path = Some route' ∧
       Path route' = Path route ∧ current route' = current route ∧
       length (Backends route') = length (Backends route) ∧
       Backends route' !! i =
         Some {| URL := URL b; Alive := isBackendAlive request NewRequestWithContext Do (URL b) |}).
Proof.
  split_and!.
  - intros u. unfold isBackendAlive. split.
    + destruct (NewRequestWithContext _) as [req|]; [|done].
      destruct (Do req) as [code|] eqn:Hdo; [|done].
      intros [H1 H2]%andb_true_iff. exists req, code.
      split_and!; [done|done| |]; lia.
    + intros (req & code & -> & -> & H1 & H2).
      apply andb_true_iff. split; lia.
  - intros u H. unfold isBackendAlive. by rewrite H.
  - intros u req H1 H2. unfold isBackendAlive. by rewrite H1, H2.
  - intros u req code H1 H2 Hc. unfold isBackendAlive. rewrite H1, H2.
    apply andb_false_iff. destruct Hc; [right|left]; lia.
  - intros g. unfold healthCheckAll. simpl. apply dom_fmap_L.
  - intros g path route i b Hr Hb.
    eexists. rewrite healthCheckAll_lookup, Hr.
    unfold set_Backends. cbn [fmap option_fmap option_map Backends Path current].
    split_and!; [done|done|done|cbn [Backends]; apply length_fmap|].
    cbn [Backends]. by rewrite list_lookup_fmap, Hb.
Qed.
End health.

Lemma health_probe_alive_witness :
  let NewRequestWithContext := λ u : url.URL,
    if String.eqb (url.Host u) EmptyString then None else Some u in
  let Do := λ u : url.URL,
    if String.eqb (url.Host u) "localhost:8081" then Some 404
    else if String.eqb (url.Host u) "localhost:8083" then Some 503
    else None in
  gateway.isBackendAlive url.URL NewRequestWithContext Do
    (gateway.URL gateway.B1) = true ∧
  gateway.isBackendAlive url.URL NewRequestWithContext Do
    (gateway.URL gateway.B2) = false ∧
  gateway.isBackendAlive url.URL NewRequestWithContext Do
    (gateway.URL gateway.B3) = false.
Proof.
  intros NewRequestWithContext Do.
  destruct (health_probe_alive url.URL NewRequestWithContext Do)
    as (Hiff & _ & Herr & Hcode & _).
  split_and!.
  - apply Hiff. eexists _, 404. split_and!; [reflexivity|reflexivity|lia|lia].
  - eapply Herr; reflexivity.
  - eapply (Hcode _ _ 503); [reflexivity|reflexivity|left; lia].
Defined.

(** ** The limiter: cleanup running inside bucket creation *)

Section limiter.
Import time ratelimit.

Lemma refill_made_by l now tb tb' :
  made_by l tb → refill now tb = Some tb' → made_by l tb'.
Proof.
  intros (Hc & Hr & Hi) H. apply refill_fields in H as (Hc2 & Hr2 & Hi2).
  unfold made_by. split_and!; congruence.
Qed.

Lemma made_by_config l l' tb :
  lcapacity l' = lcapacity l → lrefillRate l' = lrefillRate l →
  linterval l' = linterval l → made_by l tb → made_by l' tb.
Proof. unfold made_by. intros -> -> ->. done. Qed.

(** A refill of a full bucket of the limiter leaves it full, and leaves it
    as it is when no whole period has passed. *)
Lemma refill_keeps_full l t0 t tb :
  0 < linterval l → made_by l tb → tokens tb = capacity tb →
  t0 ≤ lastRefill tb → keeps_full l t0 t →
  ∃ tb',
    refill t tb = Some tb' ∧ made_by l tb' ∧ tokens tb' = capacity tb' ∧
    t0 ≤ lastRefill tb' ∧
    (Sub t (lastRefill tb) < linterval l → tb' = tb).
Proof.
  intros Hi (Hc & Hr & Hint) Hfull Ht0 Hkeep.
  pose proof (Sub_mono t _ _ Ht0) as Hmono.
  destruct (Z.lt_ge_cases (Sub t (lastRefill tb)) (interval tb)) as [Hlt|Hge].
  { exists tb. rewrite refill_noop by done. by split_and!. }
  destruct Hkeep as [Hk|(Hrate & Hmin & Hmax)]; [rewrite Hint in Hge; lia|].
  pose proof (Sub_range t (lastRefill tb)) as Hok.
  set (p := Sub t (lastRefill tb) / interval tb).
  assert (0 ≤ p ≤ Sub t t0 / linterval l) as Hp.
  { subst p. rewrite Hint in *.
    split; [apply Z.div_pos; lia|apply Z.div_le_mono; lia]. }
  assert (0 ≤ p * refillRate tb ≤ Sub t t0 / linterval l * lrefillRate l)
    as Hpr by (rewrite Hr; nia).
  destruct (refill_periods t tb Hge)
    as (tb' & Hre & Htok & Hlast & Hc' & Hr' & Hi' & _); [lia| |].
  { fold p. rewrite Hfull, Hc.
    unfold int64.ok, int64.min, int64.max in *. lia. }
  fold p in Htok, Hlast.
  exists tb'. split_and!; [done| | | |].
  - unfold made_by. split_and!; congruence.
  - rewrite Htok, Hc', Hfull. lia.
  - rewrite Hlast. nia.
  - intros Hlt. rewrite Hint in Hge. lia.
Qed.

(** Calling [Available] through an allocated pointer. *)
Lemma at_loc_Available l now p h :
  0 < linterval l → Forall (made_by l) h → (p < length h)%nat →
  ∃ tb tb', h !! p = Some tb ∧ refill now tb = Some tb' ∧
    at_loc (Available now) p h = Some (tokens tb', <[p := tb']> h).
Proof.
  intros Hi Hh Hp.
  destruct (lookup_lt_is_Some_2 h p Hp) as [tb Htb].
  pose proof (Forall_lookup_1 _ _ _ _ Hh Htb) as (_ & _ & Hint).
  destruct (refill_total now tb) as [tb' Htb']; [lia|].
  exists tb, tb'. split_and!; [done..|].
  unfold at_loc, Available. rewrite Htb. simpl. rewrite Htb'. done.
Qed.

(** The loop of [cleanupIfNeeded], run over map entries with pairwise
    different keys: no panic; entries are only ever removed; a bucket that
    only one of the keys points to is refilled once, at the reading taken
    for that key, and the key is deleted exactly when the refilled bucket
    is full. *)
Lemma cleanup_fold_spec l avail kbs :
  0 < linterval l →
  ∀ h bs,
    Forall (made_by l) h →
    (∀ k p, (k, p) ∈ kbs → (p < length h)%nat) →
    NoDup kbs.*1 →
    ∃ h' bs',
      foldl (cleanup_step avail) (Some (h, bs)) kbs = Some (h', bs') ∧
      length h' = length h ∧ Forall (made_by l) h' ∧
      (∀ k q, bs' !! k = Some q → bs !! k = Some q) ∧
      (∀ k p, (k, p) ∈ kbs → (∀ k', (k', p) ∈ kbs → k' = k) →
         ∃ tb tb',
           h !! p = Some tb ∧ refill (avail k) tb = Some tb' ∧
           h' !! p = Some tb' ∧
           bs' !! k = if tokens tb' =? capacity tb' then None else bs !! k) ∧
      (∀ k, k ∉ kbs.*1 → bs' !! k = bs !! k) ∧
      (∀ q, (∀ k, (k, q) ∉ kbs) → h' !! q = h !! q).
Proof.
  intros Hi.
  induction kbs as [|[k1 p1] kbs IH]; intros h bs Hh Hin Hnd.
  { exists h, bs. split_and!; try done. intros k p Hk. by inversion Hk. }
  destruct (at_loc_Available l (avail k1) p1 h)
    as (tb & tb' & Htb & Hr & Hav); [done|done|apply (Hin k1); left|].
  pose proof (lookup_lt_Some _ _ _ Htb) as Hp1.
  set (h1 := <[p1 := tb']> h).
  set (bs1 := if tokens tb' =? Capacity tb' then delete k1 bs else bs).
  assert (cleanup_step avail (Some (h, bs)) (k1, p1) = Some (h1, bs1))
    as Hstep.
  { unfold cleanup_step. simpl. rewrite Hav. simpl.
    by rewrite list_lookup_insert_eq. }
  cbn [fmap list_fmap fst] in Hnd. apply NoDup_cons in Hnd as [Hk1 Hnd].
  assert (∀ k p, (k, p) ∈ kbs → k ≠ k1) as Hne.
  { intros k p Hk ->. apply Hk1. apply list_elem_of_fmap. by exists (k1, p). }
  assert (∀ k q, bs1 !! k = Some q → bs !! k = Some q) as Hsub1.
  { intros k q. subst bs1. destruct (_ =? _); [|done].
    intros H. apply lookup_delete_Some in H. tauto. }
  destruct (IH h1 bs1)
    as (h' & bs' & Hfold & Hlen & Hh' & Hsub & Hvis & Hkeys & Hsame).
  - subst h1. apply Forall_insert; [done|].
    eapply refill_made_by; [|done]. by eapply Forall_lookup_1.
  - intros k p Hkp. subst h1. rewrite length_insert.
    apply (Hin k). by right.
  - done.
  - exists h', bs'. cbn [foldl]. rewrite Hstep.
    split_and!; [done| |done| | | |].
    + subst h1. by rewrite length_insert in Hlen.
    + intros k q Hkq. auto.
    + intros k p Hk Huniq. apply elem_of_cons in Hk as [Heq|Hk].
      * simplify_eq. exists tb, tb'. split_and!; [done|done| |].
        -- rewrite Hsame.
           ++ subst h1. by apply list_lookup_insert_eq.
           ++ intros k Hk. apply (Hne k p1 Hk). apply Huniq. by right.
        -- rewrite Hkeys by done. subst bs1. unfold Capacity.
           destruct (tokens tb' =? capacity tb'); [|done].
           apply lookup_delete_eq.
      * pose proof (Hne k p Hk) as Hk'.
        assert (p ≠ p1) as Hp'.
        { intros ->. apply Hk'. symmetry. apply Huniq. by left. }
        destruct (Hvis k p Hk) as (tb2 & tb2' & Htb2 & Hr2 & Hh2 & Hbs2).
        { intros k' Hin'. apply Huniq. by right. }
        exists tb2, tb2'. split_and!; [|done|done|].
        -- subst h1. by rewrite list_lookup_insert_ne in Htb2.
        -- rewrite Hbs2. destruct (tokens tb2' =? capacity tb2'); [done|].
           subst bs1. destruct (_ =? _); [|done].
           by apply lookup_delete_ne.
    + intros k Hk. cbn [fmap list_fmap fst] in Hk.
      apply not_elem_of_cons in Hk as [Hk Hk'].
      rewrite Hkeys by done. subst bs1. destruct (_ =? _); [|done].
      by apply lookup_delete_ne.
    + intros q Hq. rewrite Hsame.
      * subst h1. apply list_lookup_insert_ne. intros ->.
        apply (Hq k1). by left.
      * intros k Hk. apply (Hq k). by right.
Qed.

(** [getBucket] for a key that has no bucket: the bucket is made at the
    next pointer; when the cleanup is due, the new bucket is refilled at
    the reading taken for its key and the key is deleted again exactly
    when it is then full. *)
Lemma getBucket_absent clk key st :
  wf st → buckets (limiter st) !! key = None →
  let l := limiter st in
  let p0 := length (heap st) in
  let nb :=
    NewTokenBucket (at_new clk) (lcapacity l) (lrefillRate l) (linterval l) in
  ∃ st',
    getBucket clk key st = Some (p0, st') ∧ wf st' ∧
    length (heap st') = S p0 ∧
    lcapacity (limiter st') = lcapacity l ∧
    lrefillRate (limiter st') = lrefillRate l ∧
    linterval (limiter st') = linterval l ∧
    cleanupInterval (limiter st') = cleanupInterval l ∧
    (∀ k q, buckets (limiter st') !! k = Some q →
            (k = key ∧ q = p0) ∨ buckets l !! k = Some q) ∧
    (cleanupInterval l ≤ Sub (at_cleanup clk) (lastCleanup l) →
     lastCleanup (limiter st') = at_cleanup clk ∧
     ∃ nb',
       refill (at_bucket clk key) nb = Some nb' ∧
       heap st' !! p0 = Some nb' ∧
       buckets (limiter st') !! key =
         if tokens nb' =? capacity nb' then None else Some p0) ∧
    (Sub (at_cleanup clk) (lastCleanup l) < cleanupInterval l →
     buckets (limiter st') = <[key := p0]> (buckets l) ∧
     heap st' = heap st ++ [nb] ∧
     lastCleanup (limiter st') = lastCleanup l) ∧
    (∀ q, (q < p0)%nat → (∀ k, buckets l !! k ≠ Some q) →
          heap st' !! q = heap st !! q).
Proof.
  intros (Hi & Hptr & Hheap) Habs l p0 nb.
  assert (made_by l nb) as Hnbmade by done.
  assert (Forall (made_by l) (heap st ++ [nb])) as Hheap1.
  { apply Forall_app. split; [done|]. by constructor. }
  assert ((heap st ++ [nb]) !! p0 = Some nb) as Hp0.
  { subst p0. by rewrite list_lookup_middle. }
  assert (∀ k q, <[key := p0]> (buckets l) !! k = Some q →
            (k = key ∧ q = p0) ∨ buckets l !! k = Some q) as Hins.
  { intros k q H.
    apply lookup_insert_Some in H as [[<- <-]|[_ H]]; [by left|by right]. }
  unfold getBucket. cbv zeta. rewrite Habs. fold l p0 nb.
  unfold cleanupIfNeeded. cbn [limiter heap].
  replace (lastCleanup (set_buckets (<[key := length (heap st)]> (buckets l)) l))
    with (lastCleanup l) by done.
  replace (cleanupInterval (set_buckets (<[key := length (heap st)]> (buckets l)) l))
    with (cleanupInterval l) by done.
  destruct (Z.ltb_spec (Sub (at_cleanup clk) (lastCleanup l))
              (cleanupInterval l)) as [Hlt|Hge].
  - eexists. cbn [mbind option_bind]. split; [reflexivity|].
    cbn [heap limiter]. split_and!; try done.
    + split_and!; [done| |done]. cbn [heap limiter]. intros k p Hk.
      rewrite length_app. simpl. apply Hins in Hk as [[_ ->]|Hk].
      * fold p0. lia.
      * apply Hptr in Hk. lia.
    + rewrite length_app. simpl. fold p0. lia.
    + intros Hdue. lia.
    + intros q Hq _. by apply lookup_app_l.
  - destruct (cleanup_fold_spec l (at_bucket clk)
                (map_to_list (<[key := p0]> (buckets l))) Hi
                (heap st ++ [nb]) (<[key := p0]> (buckets l)))
      as (h' & bs' & Hfold & Hlen & Hh' & Hsub & Hvis & _ & Hsame);
      [done| |apply NoDup_fst_map_to_list|].
    { intros k p Hk. apply elem_of_map_to_list in Hk.
      rewrite length_app. simpl. apply Hins in Hk as [[_ ->]|Hk].
      - fold p0. lia.
      - apply Hptr in Hk. lia. }
    destruct (Hvis key p0) as (tb & nb' & Htb & Hre & Hh'p0 & Hbs'key).
    { apply elem_of_map_to_list, lookup_insert_eq. }
    { intros k' Hk'.
      apply elem_of_map_to_list, Hins in Hk' as [[-> _]|Hk']; [done|].
      apply Hptr in Hk'. unfold p0 in Hk'. lia. }
    assert (tb = nb) as -> by congruence.
    rewrite lookup_insert_eq in Hbs'key.
    cbn [buckets set_buckets]. fold p0.
    change (NewTokenBucket (at_new clk) (lcapacity l) (lrefillRate l)
              (linterval l)) with nb.
    rewrite Hfold. cbn [mbind option_bind]. eexists. split; [reflexivity|].
    rewrite length_app in Hlen. simpl in Hlen.
    cbn [heap limiter fst snd]. split_and!; try done.
    + split_and!; [done| |done]. cbn [heap limiter fst snd]. intros k p Hk.
      cbn in Hk. apply Hsub, Hins in Hk as [[_ ->]|Hk].
      * fold p0. lia.
      * apply Hptr in Hk. lia.
    + fold p0. lia.
    + intros k q Hk. cbn in Hk. by apply Hsub, Hins in Hk.
    + intros _. split; [done|]. by exists nb'.
    + intros Hlt. lia.
    + intros q Hq Hfree. rewrite Hsame; [by apply lookup_app_l|].
      intros k Hk. apply elem_of_map_to_list, Hins in Hk as [[_ ->]|Hk].
      * unfold p0 in Hq. lia.
      * by apply (Hfree k).
Qed.

Lemma run_call_take c tb :
  run_call c tb = tb' ← refill (call_now c) tb; Some (call_take c tb').
Proof. by destruct c. Qed.

Lemma Limiter_run_unfold clk c key st :
  Limiter_run clk c key st =
    g ← getBucket clk key st;
    r ← at_loc (run_call c) g.1 (heap g.2);
    Some (r.1, {| heap := r.2; limiter := limiter g.2 |}).
Proof. by destruct c. Qed.

Lemma call_take_made_by l c tb : made_by l tb → made_by l (call_take c tb).2.
Proof.
  destruct c; cbn [call_take]; unfold take_one, take_n;
    by destruct (_ >? _) || destruct (_ >=? _).
Qed.

(** A call through an allocated pointer of a well-formed limiter: no
    panic, and the limiter stays well formed. *)
Lemma at_loc_run_call c p st :
  wf st → (p < length (heap st))%nat →
  ∃ tb tb1,
    heap st !! p = Some tb ∧ refill (call_now c) tb = Some tb1 ∧
    at_loc (run_call c) p (heap st) =
      Some ((call_take c tb1).1, <[p := (call_take c tb1).2]> (heap st)) ∧
    wf {| heap := <[p := (call_take c tb1).2]> (heap st);
          limiter := limiter st |}.
Proof.
  intros (Hint & Hptr & Hheap) Hp.
  destruct (lookup_lt_is_Some_2 _ _ Hp) as [tb Htb].
  pose proof (Forall_lookup_1 _ _ _ _ Hheap Htb) as Hmade.
  destruct (refill_total (call_now c) tb) as [tb1 Htb1];
    [destruct Hmade as (_ & _ & ->); lia|].
  exists tb, tb1. split_and!; [done|done| |].
  - unfold at_loc. rewrite Htb. cbn [mbind option_bind].
    rewrite run_call_take, Htb1. done.
  - split_and!; [done| |]; cbn [heap limiter].
    + intros k q Hk. rewrite length_insert. by apply (Hptr k).
    + apply Forall_insert; [done|]. apply call_take_made_by.
      by eapply refill_made_by.
Qed.

(** Well-formedness is an invariant of [Limiter.Allow] and
    [Limiter.AllowN], and on a well-formed limiter they do not panic,
    whatever the clock reads. *)
Lemma Limiter_run_wf clk c key st :
  wf st → ∃ a st', Limiter_run clk c key st = Some (a, st') ∧ wf st'.
Proof.
  intros Hwf.
  assert (∃ p st1, getBucket clk key st = Some (p, st1) ∧ wf st1 ∧
                   (p < length (heap st1))%nat) as (p & st1 & Hg & Hwf1 & Hp).
  { destruct (buckets (limiter st) !! key) as [p|] eqn:Hk.
    - exists p, st. unfold getBucket. rewrite Hk.
      split_and!; [done..|]. destruct Hwf as (_ & Hptr & _).
      by apply (Hptr key).
    - destruct (getBucket_absent clk key st Hwf Hk)
        as (st1 & Hg & Hwf1 & Hlen & _).
      exists (length (heap st)), st1. split_and!; [done..|]. lia. }
  destruct (at_loc_run_call c p st1 Hwf1 Hp) as (tb & tb1 & _ & _ & Hat & Hwf2).
  eexists _, _. split; [|exact Hwf2].
  rewrite Limiter_run_unfold, Hg. cbn [mbind option_bind fst snd].
  by rewrite Hat.
Qed.

Lemma NewLimiter_wf now c r i : 0 < i → wf (NewLimiter now c r i).
Proof.
  intros Hi. split_and!; [done| |constructor].
  intros k p H. cbn in H. by rewrite lookup_empty in H.
Qed.

(** [Limiter.Allow] or [Limiter.AllowN] for a key that has no bucket, when
    the bucket that [getBucket] has just made is still full at the later
    readings of the call: the call is answered from a full bucket,
    whatever [getBucket] left in the map, and the cleanup, when due, has
    removed the key again. *)
Lemma Limiter_run_absent clk c key st :
  wf st → buckets (limiter st) !! key = None →
  let l := limiter st in
  let p0 := length (heap st) in
  let nb :=
    NewTokenBucket (at_new clk) (lcapacity l) (lrefillRate l) (linterval l) in
  (cleanupInterval l ≤ Sub (at_cleanup clk) (lastCleanup l) →
   keeps_full l (at_new clk) (at_bucket clk key)) →
  keeps_full l (at_new clk) (call_now c) →
  ∃ st' tbf,
    getBucket clk key st = Some (p0, st') ∧ wf st' ∧
    length (heap st') = S p0 ∧
    made_by l tbf ∧ tokens tbf = capacity tbf ∧
    Limiter_run clk c key st =
      Some ((call_take c tbf).1,
            {| heap := <[p0 := (call_take c tbf).2]> (heap st');
               limiter := limiter st' |}) ∧
    wf {| heap := <[p0 := (call_take c tbf).2]> (heap st');
          limiter := limiter st' |} ∧
    (cleanupInterval l ≤ Sub (at_cleanup clk) (lastCleanup l) →
     buckets (limiter st') !! key = None) ∧
    ((cleanupInterval l ≤ Sub (at_cleanup clk) (lastCleanup l) →
      Sub (at_bucket clk key) (at_new clk) < linterval l) →
     Sub (call_now c) (at_new clk) < linterval l → tbf = nb).
Proof.
  intros Hwf Habs l p0 nb Hk1 Hk2.
  pose proof Hwf as (Hi & _ & _). fold l in Hi.
  destruct (getBucket_absent clk key st Hwf Habs)
    as (st' & Hget & Hwf' & Hlen & _ & _ & _ & _ & _ & Hdue & Hnot & _).
  fold l p0 nb in Hget, Hlen, Hdue, Hnot.
  assert (made_by l nb) as Hnb by done.
  assert (∃ nb0,
            heap st' !! p0 = Some nb0 ∧ made_by l nb0 ∧
            tokens nb0 = capacity nb0 ∧ at_new clk ≤ lastRefill nb0 ∧
            (cleanupInterval l ≤ Sub (at_cleanup clk) (lastCleanup l) →
             buckets (limiter st') !! key = None) ∧
            ((cleanupInterval l ≤ Sub (at_cleanup clk) (lastCleanup l) →
              Sub (at_bucket clk key) (at_new clk) < linterval l) →
             nb0 = nb))
    as (nb0 & Hp0 & Hmade0 & Hfull0 & Hlast0 & Hgone & Hsame0).
  { destruct (Z.lt_ge_cases (Sub (at_cleanup clk) (lastCleanup l))
                (cleanupInterval l)) as [Hlt|Hge].
    - destruct (Hnot Hlt) as (_ & Hheap & _).
      exists nb. split_and!; [|done|done|done|lia|done].
      rewrite Hheap. unfold p0. by rewrite list_lookup_middle.
    - destruct (Hdue Hge) as (_ & nb' & Hre & Hp0 & Hbs).
      destruct (refill_keeps_full l (at_new clk) (at_bucket clk key) nb)
        as (nb'' & Hre' & Hmade & Hfull & Hlast & Hsame);
        [done|done|done|done|by apply Hk1|].
      assert (nb'' = nb') as -> by congruence.
      exists nb'. split_and!; [done|done|done|done| |].
      + intros _. rewrite Hbs, Hfull. by rewrite Z.eqb_refl.
      + intros H. apply Hsame. by apply H. }
  destruct (refill_keeps_full l (at_new clk) (call_now c) nb0)
    as (tbf & Hre & Hmadef & Hfullf & _ & Hsamef); [done..|].
  destruct (at_loc_run_call c p0 st' Hwf')
    as (tb & tb1 & Htb & Hr & Hat & Hwf2); [lia|].
  assert (tb = nb0) as -> by congruence.
  assert (tb1 = tbf) as -> by congruence.
  exists st', tbf. split_and!; [done..| |done|done|].
  - rewrite Limiter_run_unfold, Hget. cbn [mbind option_bind fst snd].
    by rewrite Hat.
  - intros H1 H2. rewrite <- (Hsame0 H1). apply Hsamef.
    by rewrite (Hsame0 H1).
Qed.

Lemma submap_size (m1 m2 : gmap string nat) :
  (∀ k q, m1 !! k = Some q → m2 !! k = Some q) → (size m1 ≤ size m2)%nat.
Proof.
  intros H. apply map_subseteq_size, map_subseteq_spec. exact H.
Qed.

Lemma take_one_full (tb : TokenBucket) :
  tokens tb = capacity tb → 1 ≤ capacity tb ≤ int64.max →
  take_one tb = (true, set_tokens (capacity tb - 1) tb).
Proof.
  intros Hfull Hc. unfold take_one. rewrite Hfull.
  destruct (Z.gtb_spec (capacity tb) 0); [|lia].
  by rewrite wrap_ok by (unfold int64.ok, int64.min, int64.max in *; lia).
Qed.

Lemma keeps_full_config l l' t0 t :
  lcapacity l' = lcapacity l → lrefillRate l' = lrefillRate l →
  linterval l' = linterval l → keeps_full l t0 t → keeps_full l' t0 t.
Proof. unfold keeps_full. intros -> -> ->. done. Qed.

(** C9, amended.  Cleanup running inside the call that creates a bucket.
    On a well-formed limiter, when [key] has no bucket and the cleanup
    interval has passed at the reading of [cleanupIfNeeded], and when the
    bucket just made is still full at the later readings of the call (the
    one of its [Available] in the cleanup loop and the one of the call
    itself: they lie less than one interval after the creation, or the
    refill rate is not negative and the refill cannot overflow), a call [c]
    ([Allow], or [AllowN n]) for [key] is answered from a full bucket, the
    one it has just made at pointer [p], and that bucket keeps what the
    call consumed; but the cleanup pass of the same call has removed the
    bucket from the map: no key points to [p] any more and [Stats] does
    not count [key].  The next call [c'] for [key], under the same
    condition on its readings, is therefore answered from another full
    bucket, made at the next pointer, and the first bucket is left with a
    consumption that no later decision reads.  With a capacity of at least
    one, [Allow] is admitted both times and each bucket is left with
    [capacity - 1] tokens. *)
Theorem cleanup_evicts_new_bucket (clk : Clock) (c : call) (key : string)
    (st : State) :
  wf st →
  buckets (limiter st) !! key = None →
  cleanupInterval (limiter st) ≤
    Sub (at_cleanup clk) (lastCleanup (limiter st)) →
  keeps_full (limiter st) (at_new clk) (at_bucket clk key) →
  keeps_full (limiter st) (at_new clk) (call_now c) →
  let l := limiter st in
  let p := length (heap st) in
  ∃ st1 tb1,
    made_by l tb1 ∧ tokens tb1 = capacity tb1 ∧
    Limiter_run clk c key st = Some ((call_take c tb1).1, st1) ∧
    heap st1 !! p = Some (call_take c tb1).2 ∧
    buckets (limiter st1) !! key = None ∧
    (∀ k q, buckets (limiter st1) !! k = Some q →
            q ≠ p ∧ buckets l !! k = Some q) ∧
    total_keys (Stats st1) = size (buckets (limiter st1)) ∧
    (total_keys (Stats st1) ≤ size (buckets l))%nat ∧
    (∀ clk' c',
       (cleanupInterval l ≤ Sub (at_cleanup clk') (at_cleanup clk) →
        keeps_full l (at_new clk') (at_bucket clk' key)) →
       keeps_full l (at_new clk') (call_now c') →
       ∃ st2 tb2,
         made_by l tb2 ∧ tokens tb2 = capacity tb2 ∧
         Limiter_run clk' c' key st1 = Some ((call_take c' tb2).1, st2) ∧
         heap st2 !! S p = Some (call_take c' tb2).2 ∧
         heap st2 !! p = Some (call_take c tb1).2) ∧
    (1 ≤ lcapacity l ≤ int64.max →
     ∀ now, c = CallAllow now →
       Limiter_Allow clk now key st = Some (true, st1) ∧
       tokens <$> heap st1 !! p = Some (lcapacity l - 1) ∧
       ∀ clk' now',
         (cleanupInterval l ≤ Sub (at_cleanup clk') (at_cleanup clk) →
          keeps_full l (at_new clk') (at_bucket clk' key)) →
         keeps_full l (at_new clk') now' →
         ∃ st2,
           Limiter_Allow clk' now' key st1 = Some (true, st2) ∧
           tokens <$> heap st2 !! S p = Some (lcapacity l - 1) ∧
           tokens <$> heap st2 !! p = Some (lcapacity l - 1)) ∧
    (Sub (at_bucket clk key) (at_new clk) < linterval l →
     Sub (call_now c) (at_new clk) < linterval l →
     tb1 = NewTokenBucket (at_new clk) (lcapacity l) (lrefillRate l)
             (linterval l)).
Proof.
  intros Hwf Habs Hdue Hk1 Hk2 l p.
  destruct (getBucket_absent clk key st Hwf Habs)
    as (st' & Hget & _ & _ & Hc & Hr & Hi & Hci & Hfrom & Hev & _).
  destruct (Hev Hdue) as (Hlc & _).
  destruct (Limiter_run_absent clk c key st Hwf Habs (λ _, Hk1) Hk2)
    as (st'' & tb1 & Hget' & Hwf' & Hlen & Hmade1 & Hfull1 & Hrun & Hwf1 &
        Hgone & Hexact).
  rewrite Hget in Hget'. simplify_eq.
  specialize (Hgone Hdue).
  fold l p in Hrun, Hlen, Hc, Hr, Hi, Hci, Hfrom, Hwf1, Hmade1, Hexact.
  set (st1 := {| heap := <[p := (call_take c tb1).2]> (heap st'');
                 limiter := limiter st'' |}) in *.
  assert (∀ k q, buckets (limiter st1) !! k = Some q →
            q ≠ p ∧ buckets l !! k = Some q) as Hold.
  { intros k q Hk. cbn in Hk.
    destruct (Hfrom k q Hk) as [[-> _]|Hq]; [congruence|].
    split; [|done]. destruct Hwf as (_ & Hptr & _).
    apply Hptr in Hq. unfold p. lia. }
  assert (heap st1 !! p = Some (call_take c tb1).2) as Hp1.
  { subst st1. cbn [heap]. apply list_lookup_insert_eq. lia. }
  assert (∀ clk' c',
            (cleanupInterval l ≤ Sub (at_cleanup clk') (at_cleanup clk) →
             keeps_full l (at_new clk') (at_bucket clk' key)) →
            keeps_full l (at_new clk') (call_now c') →
            ∃ st2 tb2,
              made_by l tb2 ∧ tokens tb2 = capacity tb2 ∧
              Limiter_run clk' c' key st1 =
                Some ((call_take c' tb2).1, st2) ∧
              heap st2 !! S p = Some (call_take c' tb2).2 ∧
              heap st2 !! p = Some (call_take c tb1).2) as Hnext.
  { intros clk' c' Hk1' Hk2'.
    destruct (getBucket_absent clk' key st1 Hwf1 Hgone)
      as (st2' & Hget2 & _ & _ & _ & _ & _ & _ & _ & _ & _ & Hsame).
    destruct (Limiter_run_absent clk' c' key st1 Hwf1 Hgone)
      as (st2'' & tb2 & Hget2' & _ & Hlen2 & Hmade2 & Hfull2 & Hrun2 & _).
    { intros Hd. cbn [limiter st1] in Hd |- *. rewrite Hci, Hlc in Hd.
      by apply (keeps_full_config l); [..|apply Hk1']. }
    { cbn [limiter st1]. by apply (keeps_full_config l). }
    rewrite Hget2 in Hget2'. simplify_eq.
    assert (length (heap st1) = S p) as Hl1
      by (subst st1; cbn [heap]; by rewrite length_insert).
    rewrite Hl1 in *.
    exists {| heap := <[S p := (call_take c' tb2).2]> (heap st2'');
              limiter := limiter st2'' |}, tb2.
    split_and!; [|done|exact Hrun2| |].
    - by apply (made_by_config (limiter st1)).
    - cbn [heap]. apply list_lookup_insert_eq. lia.
    - cbn [heap]. rewrite list_lookup_insert_ne by lia.
      rewrite Hsame; [done|lia|].
      intros k Hk. by destruct (Hold k p Hk). }
  assert (1 ≤ lcapacity l ≤ int64.max →
          ∀ tb, made_by l tb → tokens tb = capacity tb →
            take_one tb = (true, set_tokens (lcapacity l - 1) tb)) as Htake.
  { intros Hcap tb (Hctb & _) Hfull. rewrite <- Hctb.
    apply take_one_full; [done|]. by rewrite Hctb. }
  exists st1, tb1. split_and!; try done.
  - cbn. apply submap_size. intros k q Hk. by apply (Hold k q).
  - intros Hcap now ->. cbn [call_now call_take Limiter_run] in *.
    rewrite (Htake Hcap tb1) in Hrun, Hp1 by done.
    split_and!; [done|by rewrite Hp1|].
    intros clk' now' Hk1' Hk2'.
    destruct (Hnext clk' (CallAllow now') Hk1' Hk2')
      as (st2 & tb2 & Hmade2 & Hfull2 & Hrun2 & Hp2 & Hp2').
    cbn [call_now call_take Limiter_run] in *.
    rewrite (Htake Hcap tb2) in Hrun2, Hp2 by done.
    rewrite (Htake Hcap tb1) in Hp2' by done.
    exists st2. split_and!; [done|by rewrite Hp2|by rewrite Hp2'].
  - intros H1 H2. apply Hexact; done.
Qed.
End limiter.

Lemma cleanup_evicts_new_bucket_witness :
  let st := ratelimit.NewLimiter 0 1 1 time.Minute in
  let clk := {| ratelimit.at_new := 5 * time.Minute;
                ratelimit.at_cleanup := 5 * time.Minute + 1;
                ratelimit.at_bucket := λ _, 5 * time.Minute + 2 |} in
  ∃ st1 st2,
    ratelimit.Limiter_Allow clk (5 * time.Minute + 3) "a" st =
      Some (true, st1) ∧
    ratelimit.total_keys (ratelimit.Stats st1) = 0%nat ∧
    ratelimit.Limiter_Allow clk (5 * time.Minute + 3) "a" st1 =
      Some (true, st2).
Proof.
  intros st clk.
  destruct (cleanup_evicts_new_bucket clk
              (ratelimit.CallAllow (5 * time.Minute + 3)) "a" st)
    as (st1 & tb1 & _ & _ & _ & _ & _ & _ & _ & Hle & _ & Hallow & _).
  - split; [reflexivity|]. split; [|constructor].
    intros k p H. unfold st in H. cbn in H.
    rewrite lookup_empty in H. discriminate H.
  - unfold st. cbn. apply lookup_empty.
  - vm_compute. discriminate.
  - left. reflexivity.
  - left. reflexivity.
  - destruct (Hallow ltac:(vm_compute; split; discriminate)
                (5 * time.Minute + 3) eq_refl) as (H1 & _ & Hnext).
    destruct (Hnext clk (5 * time.Minute + 3)) as (st2 & H2 & _).
    + intros _. left. reflexivity.
    + left. reflexivity.
    + exists st1, st2. split; [exact H1|]. split; [|exact H2].
      change (size (ratelimit.buckets (ratelimit.limiter st))) with 0%nat
        in Hle.
      lia.
Defined.

(** The claim as first stated fails when the bucket just made is no longer
    full at the later readings of the call.  Capacity 1, refill rate -1,
    interval one nanosecond: the bucket is made at five minutes; at its
    [Available] in the cleanup loop, 50 nanoseconds later, the refill has
    drained it to -49, so the cleanup keeps the key, and the call is
    refused; [Stats] counts the key.  And on a limiter whose interval is
    zero the creating call panics in the cleanup loop, all readings being
    the same. *)
Lemma cleanup_keeps_drained_bucket :
  (let st := ratelimit.NewLimiter 0 1 (-1) 1 in
   let clk := {| ratelimit.at_new := 5 * time.Minute;
                 ratelimit.at_cleanup := 5 * time.Minute;
                 ratelimit.at_bucket := λ _, 5 * time.Minute + 50 |} in
   ratelimit.wf st ∧
   ratelimit.buckets (ratelimit.limiter st) !! "a" = None ∧
   ratelimit.cleanupInterval (ratelimit.limiter st) ≤
     time.Sub (ratelimit.at_cleanup clk)
       (ratelimit.lastCleanup (ratelimit.limiter st)) ∧
   ∃ st1,
     ratelimit.Limiter_Allow clk (5 * time.Minute + 50) "a" st =
       Some (false, st1) ∧
     ratelimit.buckets (ratelimit.limiter st1) !! "a" = Some 0%nat ∧
     ratelimit.total_keys (ratelimit.Stats st1) = 1%nat ∧
     ratelimit.tokens <$> ratelimit.heap st1 !! 0%nat = Some (-49)) ∧
  (let st := ratelimit.NewLimiter 0 1 1 0 in
   let clk := ratelimit.frozen (5 * time.Minute) in
   ratelimit.buckets (ratelimit.limiter st) !! "a" = None ∧
   ratelimit.cleanupInterval (ratelimit.limiter st) ≤
     time.Sub (ratelimit.at_cleanup clk)
       (ratelimit.lastCleanup (ratelimit.limiter st)) ∧
   ratelimit.Limiter_Allow clk (5 * time.Minute) "a" st = None).
Proof.
  split.
  - intros st clk. split_and!.
    + apply NewLimiter_wf. reflexivity.
    + apply lookup_empty.
    + vm_compute. discriminate.
    + eexists. split; [vm_compute; reflexivity|].
      split_and!; vm_compute; reflexivity.
  - intros st clk. split_and!.
    + apply lookup_empty.
    + vm_compute. discriminate.
    + vm_compute. reflexivity.
Qed.

(** ** The rate-limit middleware *)

Section middleware_props.
Import time http ratelimit middleware.
Variable SplitHostPort : string → option string.

Lemma cleanupIfNeeded_config now avail st st' :
  cleanupIfNeeded now avail st = Some st' →
  lcapacity (limiter st') = lcapacity (limiter st) ∧
  linterval (limiter st') = linterval (limiter st).
Proof.
  unfold cleanupIfNeeded. destruct (_ <? _); [by intros [= <-]|].
  destruct (foldl _ _ _) as [r|]; [|done]. by intros [= <-].
Qed.

Lemma getBucket_config clk key st p st' :
  getBucket clk key st = Some (p, st') →
  lcapacity (limiter st') = lcapacity (limiter st) ∧
  linterval (limiter st') = linterval (limiter st).
Proof.
  unfold getBucket. destruct (_ !! key) as [q|]; [by intros [= _ <-]|].
  destruct (cleanupIfNeeded _ _ _) as [st2|] eqn:Hc; [|done].
  intros [= _ <-]. by apply cleanupIfNeeded_config in Hc.
Qed.

Lemma Limiter_Allow_config clk now key st a st' :
  Limiter_Allow clk now key st = Some (a, st') →
  lcapacity (limiter st') = lcapacity (limiter st) ∧
  linterval (limiter st') = linterval (limiter st).
Proof.
  unfold Limiter_Allow.
  destruct (getBucket clk key st) as [[p st1]|] eqn:Hg; [|done].
  cbn [mbind option_bind fst snd].
  destruct (at_loc _ _ _) as [r|]; [|done].
  intros [= _ <-]. by apply getBucket_config in Hg.
Qed.

(** The reset value written by [AddRateLimitHeaders]. *)
Lemma reset_whole_milliseconds now d :
  int64.ok d → d `rem` Millisecond = 0 →
  Add now (int64.wrap (Milliseconds d * Millisecond)) = Add now d.
Proof.
  intros Hok Hrem. unfold Add, Milliseconds, Millisecond in *. f_equal.
  pose proof (Z.quot_rem' d 1000000) as Hqr.
  rewrite wrap_ok; [lia|].
  unfold int64.ok, int64.min, int64.max in *. lia.
Qed.

(** C3, amended.  For a request that is not skipped: when the limiter
    admits it, the response handed to the next handler carries the limit
    header, equal to the limiter's capacity, and the reset header, equal
    to the epoch seconds of [now], the clock as [AddRateLimitHeaders]
    reads it, plus the interval taken in whole milliseconds (plus the
    interval itself when that is a whole number of milliseconds); when the
    limiter denies it, the response is the one of the exceeded-handler,
    and the default handler adds the content type, the status 429 and the
    error body, and no rate-limit header. *)
Theorem RateLimit_headers (config : RateLimitConfig) (next : Handler)
    (rd : Readings) (r : Request) (st st' : State) (w : ResponseWriter)
    (admitted : bool) :
  (∀ skip, SkipFunc config = Some skip → skip r = false) →
  Limiter_Allow (limiter_clock rd) (allow_now rd)
    (default (IPKeyExtractor SplitHostPort) (KeyExtractor config) r) st =
    Some (admitted, st') →
  let now := headers_now rd in
  let reset :=
    Unix (Add now (int64.wrap
            (Milliseconds (linterval (limiter st)) * Millisecond))) in
  let w' :=
    Header_Set "X-RateLimit-Reset" (pretty reset)
      (Header_Set "X-RateLimit-Limit" (pretty (lcapacity (limiter st))) w) in
  (admitted = true →
   RateLimit SplitHostPort config next rd r (st, w) =
     next rd r (st', w') ∧
   header w' !! "X-RateLimit-Limit" =
     Some (pretty (lcapacity (limiter st))) ∧
   header w' !! "X-RateLimit-Reset" = Some (pretty reset) ∧
   (int64.ok (linterval (limiter st)) →
    linterval (limiter st) `rem` Millisecond = 0 →
    reset = Unix (Add now (linterval (limiter st))))) ∧
  (admitted = false →
   RateLimit SplitHostPort config next rd r (st, w) =
     Some (st', default DefaultRateLimitHandler
                  (OnRateLimitExceeded config) w r) ∧
   header (DefaultRateLimitHandler w r) =
     <["Content-Type" := "application/json"]> (header w) ∧
   status (DefaultRateLimitHandler w r) =
     Some (default StatusTooManyRequests (status w)) ∧
   body (DefaultRateLimitHandler w r) =
     body w +:+ error_body "rate limit exceeded"
                           "Too many requests. Please try again later.").
Proof.
  intros Hskip Hallow now reset w'.
  assert (match SkipFunc config with
          | Some skip => skip r
          | None => false
          end = false) as Hns.
  { destruct (SkipFunc config) as [skip|] eqn:Hs; [by apply Hskip|done]. }
  destruct (Limiter_Allow_config _ _ _ _ _ _ Hallow) as [Hc Hi].
  split.
  - intros ->. split_and!.
    + unfold RateLimit. rewrite Hns. cbn [fst snd]. rewrite Hallow.
      cbn [mbind option_bind fst snd negb].
      unfold AddRateLimitHeaders, Stats.
      cbn [stats_capacity interval_ms]. by rewrite Hc, Hi.
    + unfold w'. cbn [header Header_Set].
      rewrite lookup_insert_ne by done. apply lookup_insert_eq.
    + unfold w'. cbn [header Header_Set]. apply lookup_insert_eq.
    + intros Hok Hrem. unfold reset.
      by rewrite reset_whole_milliseconds.
  - intros ->. split_and!.
    + unfold RateLimit. rewrite Hns. cbn [fst snd]. rewrite Hallow. done.
    + done.
    + unfold DefaultRateLimitHandler. cbn. by destruct (status w).
    + done.
Qed.
End middleware_props.

Lemma RateLimit_headers_witness :
  let split := λ _ : string, @None string in
  let config := {| middleware.KeyExtractor := None;
                   middleware.OnRateLimitExceeded := None;
                   middleware.SkipFunc := None |} in
  let next : middleware.Handler := λ _ _ sw, Some sw in
  let r := {| http.Header := ∅; http.RemoteAddr := "10.0.0.1:4711";
              http.URLPath := "/api" |} in
  let rd := {| middleware.limiter_clock := ratelimit.frozen 0;
               middleware.allow_now := 1000;
               middleware.headers_now := 2 * time.Second |} in
  ∃ st1 w1,
    middleware.RateLimit split config next rd r
      (ratelimit.NewLimiter 0 1 1 time.Minute, http.empty_response) =
      Some (st1, w1) ∧
    http.header w1 !! "X-RateLimit-Limit" = Some "1" ∧
    http.header w1 !! "X-RateLimit-Reset" = Some "62".
Proof.
  intros split config next r rd.
  destruct (ratelimit.Limiter_Allow (ratelimit.frozen 0) 1000
              (default (middleware.IPKeyExtractor split)
                       (middleware.KeyExtractor config) r)
              (ratelimit.NewLimiter 0 1 1 time.Minute))
    as [[a st1]|] eqn:Hallow; [|vm_compute in Hallow; discriminate Hallow].
  assert (a = true) as -> by (vm_compute in Hallow; congruence).
  destruct (RateLimit_headers split config next rd r
              (ratelimit.NewLimiter 0 1 1 time.Minute) st1
              http.empty_response true) as [H _].
  - intros skip Hs. discriminate Hs.
  - exact Hallow.
  - destruct (H eq_refl) as (Hrun & Hlimit & Hreset & _).
    eexists st1, _. split; [exact Hrun|]. split; [exact Hlimit|exact Hreset].
Defined.

(** The claim as first stated fails on a denied request: with capacity one,
    the second request of a client is answered 429 by the default handler
    and carries neither rate-limit header. *)
Lemma denied_response_lacks_headers :
  let split := λ _ : string, @None string in
  let config := {| middleware.KeyExtractor := None;
                   middleware.OnRateLimitExceeded := None;
                   middleware.SkipFunc := None |} in
  let next : middleware.Handler := λ _ _ sw, Some sw in
  let r := {| http.Header := ∅; http.RemoteAddr := "10.0.0.1:4711";
              http.URLPath := "/api" |} in
  ∃ st1 w1 st2 w2,
    middleware.RateLimit split config next (middleware.at_instant 0) r
      (ratelimit.NewLimiter 0 1 1 time.Minute, http.empty_response) =
      Some (st1, w1) ∧
    http.header w1 !! "X-RateLimit-Limit" = Some "1" ∧
    middleware.RateLimit split config next (middleware.at_instant 0) r
      (st1, http.empty_response) = Some (st2, w2) ∧
    http.status w2 = Some http.StatusTooManyRequests ∧
    http.header w2 !! "X-RateLimit-Limit" = None ∧
    http.header w2 !! "X-RateLimit-Reset" = None.
Proof.
  intros split config next r.
  eexists _, _, _, _.
  split; [vm_compute; reflexivity|].
  split; [vm_compute; reflexivity|].
  split; [vm_compute; reflexivity|].
  split; [vm_compute; reflexivity|].
  split; vm_compute; reflexivity.
Qed.

(** ** Concurrent callers of [Allow] *)

Section concurrent.
Import time ratelimit sched.















End concurrent.


(** * Further properties *)

(** ** The token bucket over time *)

Section token_bucket_more.
Import time ratelimit.

(** Where [refill] leaves [lastRefill], for a positive interval. *)
Lemma refill_advance now tb tb' :
  0 < interval tb → refill now tb = Some tb' →
  let elapsed := Sub now (lastRefill tb) in
  lastRefill tb' =
    lastRefill tb +
    (if elapsed <? interval tb then 0
     else elapsed / interval tb * interval tb) ∧
  interval tb' = interval tb ∧ capacity tb' = capacity tb ∧
  refillRate tb' = refillRate tb.
Proof.
  intros Hint Hr elapsed. unfold refill in Hr. fold elapsed in Hr.
  pose proof (Sub_range now (lastRefill tb)) as Hel. fold elapsed in Hel.
  destruct (Z.ltb_spec elapsed (interval tb)) as [Hlt|Hge].
  { simplify_eq. split_and!; [lia|done..]. }
  destruct (Z.eqb_spec (interval tb) 0); [lia|]. simplify_eq.
  cbn [lastRefill interval capacity refillRate]. split_and!; [|done..].
  unfold Add. rewrite quo_floor by (done || lia).
  rewrite wrap_ok; [done|].
  pose proof (Z.mul_div_le elapsed (interval tb) Hint).
  assert (0 ≤ elapsed / interval tb) by (apply Z.div_pos; lia).
  unfold int64.ok, int64.min, int64.max in *. nia.
Qed.

(** X1. Refilling twice at the same clock reading is refilling once: for a
    positive interval and a clock at most one [Duration] ahead of
    [lastRefill], the bucket that [refill] returns is left alone by a second
    [refill] at the same instant, so that [Available] asked again returns
    the same count and changes nothing; and [lastRefill] never moves back
    and never moves past a clock reading that is not behind it. *)
Theorem refill_idempotent (now : Time) (tb tb' : TokenBucket) :
  0 < interval tb → now - lastRefill tb ≤ int64.max →
  refill now tb = Some tb' →
  refill now tb' = Some tb' ∧
  Available now tb' = Some (tokens tb', tb') ∧
  lastRefill tb ≤ lastRefill tb' ∧
  (lastRefill tb ≤ now → lastRefill tb' ≤ now).
Proof.
  intros Hint Hsat Hr.
  destruct (refill_advance now tb tb' Hint Hr) as (Hl & Hi & _ & _).
  pose proof (Sub_range now (lastRefill tb)) as Hel.
  set (elapsed := Sub now (lastRefill tb)) in *.
  assert (lastRefill tb ≤ lastRefill tb' ∧
          (lastRefill tb ≤ now → lastRefill tb' ≤ now) ∧
          Sub now (lastRefill tb') < interval tb') as (H1 & H2 & H3).
  { destruct (Z.ltb_spec elapsed (interval tb)) as [Hlt|Hge].
    - rewrite Z.add_0_r in Hl. rewrite Hl, Hi. split_and!; [lia|done|done].
    - assert (elapsed = now - lastRefill tb) as Hex.
      { subst elapsed. apply Sub_exact.
        assert (0 ≤ Sub now (lastRefill tb)) as H0 by lia. revert H0 Hsat.
        unfold Sub, int64.ok, int64.min, int64.max.
        repeat case_match; lia. }
      assert (0 ≤ elapsed - elapsed / interval tb * interval tb
              < interval tb) as Hrem.
      { rewrite <- Zmod_eq_full by lia. apply Z.mod_pos_bound. lia. }
      assert (0 ≤ elapsed / interval tb) by (apply Z.div_pos; lia).
      split_and!; [nia|lia|].
      rewrite Sub_exact, Hi; [lia|].
      unfold int64.ok, int64.min, int64.max in *. lia. }
  assert (refill now tb' = Some tb') as Hagain by (by apply refill_noop).
  split_and!; [done| |done|done].
  unfold Available. by rewrite Hagain.
Qed.

Lemma refill_idempotent_witness :
  let tb := {| capacity := 10; tokens := 0; refillRate := 10;
               interval := 100 * Millisecond; lastRefill := 0 |} in
  ∃ tb', refill (150 * Millisecond) tb = Some tb' ∧
         refill (150 * Millisecond) tb' = Some tb'.
Proof.
  intros tb.
  destruct (refill (150 * Millisecond) tb) as [tb'|] eqn:Hr;
    [|vm_compute in Hr; discriminate Hr].
  exists tb'. split; [reflexivity|].
  destruct (refill_idempotent (150 * Millisecond) tb tb') as [H _].
  - reflexivity.
  - vm_compute. discriminate.
  - exact Hr.
  - exact H.
Defined.

Lemma set_tokens_self tb : set_tokens (tokens tb) tb = tb.
Proof. by destruct tb. Qed.

(** The state after [j] admissions or refusals of a bucket that had [t]
    tokens. *)
Lemma Allow_from (tb : TokenBucket) (t : Z) (nows : list Time) (m : nat) :
  0 ≤ t ≤ int64.max →
  Forall (λ now, Sub now (lastRefill tb) < interval tb) nows →
  run_calls (CallAllow <$> nows) (set_tokens (Z.max 0 (t - Z.of_nat m)) tb) =
    Some ((λ j : nat,
             (bool_decide (Z.of_nat j ≤ t),
              set_tokens (Z.max 0 (t - Z.of_nat j)) tb))
            <$> seq (S m) (length nows)).
Proof.
  intros Ht Hnows. revert m.
  induction Hnows as [|now nows Hnow _ IH]; intros m; [done|].
  cbn [fmap list_fmap run_calls run_call length seq].
  unfold Allow. rewrite refill_noop by exact Hnow.
  cbn [mbind option_bind]. unfold take_one. cbn [tokens set_tokens].
  assert (set_tokens (Z.max 0 (t - Z.of_nat (S m))) tb =
          (if Z.max 0 (t - Z.of_nat m) >? 0
           then (true, set_tokens
                   (int64.wrap (Z.max 0 (t - Z.of_nat m) - 1))
                   (set_tokens (Z.max 0 (t - Z.of_nat m)) tb))
           else (false, set_tokens (Z.max 0 (t - Z.of_nat m)) tb)).2 ∧
          bool_decide (Z.of_nat (S m) ≤ t) =
          (if Z.max 0 (t - Z.of_nat m) >? 0
           then (true, set_tokens
                   (int64.wrap (Z.max 0 (t - Z.of_nat m) - 1))
                   (set_tokens (Z.max 0 (t - Z.of_nat m)) tb))
           else (false, set_tokens (Z.max 0 (t - Z.of_nat m)) tb)).1)
    as [Hstate Hans].
  { destruct (Z.gtb_spec (Z.max 0 (t - Z.of_nat m)) 0) as [Hpos|Hnpos];
      cbn [fst snd].
    - rewrite wrap_ok by (unfold int64.ok, int64.min, int64.max in *; lia).
      split.
      + unfold set_tokens. cbn. f_equal. lia.
      + apply bool_decide_eq_true_2. lia.
    - split.
      + f_equal. lia.
      + apply bool_decide_eq_false_2. lia. }
  destruct (if Z.max 0 (t - Z.of_nat m) >? 0 then _ else _) as [a tb1].
  cbn [fst snd] in *. subst a tb1.
  rewrite (IH (S m)). done.
Qed.

(** X2. A bucket holding [t] tokens, called [k] times through [Allow]
    while no refill period passes, admits the first [t] calls and refuses
    the others: call number [j] (from 1) answers true exactly when
    [j <= t], and leaves [max 0 (t - j)] tokens and everything else of the
    bucket as it was. *)
Theorem Allow_sequence_exact (tb : TokenBucket) (nows : list Time) :
  0 ≤ tokens tb ≤ int64.max →
  Forall (λ now, Sub now (lastRefill tb) < interval tb) nows →
  run_calls (CallAllow <$> nows) tb =
    Some ((λ j : nat,
             (bool_decide (Z.of_nat j ≤ tokens tb),
              set_tokens (Z.max 0 (tokens tb - Z.of_nat j)) tb))
            <$> seq 1 (length nows)).
Proof.
  intros Ht Hnows.
  rewrite <- (Allow_from tb (tokens tb) nows 0 Ht Hnows).
  f_equal. rewrite <- (set_tokens_self tb) at 1. f_equal. simpl. lia.
Qed.

Lemma Allow_sequence_exact_witness :
  fmap (M := option) (fmap (M := list) fst)
    (run_calls (CallAllow <$> [0; 1; 2; 3]) (NewTokenBucket 0 2 2 Second)) =
    Some [true; true; false; false].
Proof.
  rewrite (Allow_sequence_exact (NewTokenBucket 0 2 2 Second) [0; 1; 2; 3]).
  - reflexivity.
  - vm_compute. split; discriminate.
  - repeat constructor.
Defined.

(** X3. A bucket whose interval is zero cannot be used: whenever the clock
    is not behind [lastRefill], the division of the refill step panics, in
    [Allow], [AllowN] and [Available] alike; for any other interval the
    refill step never panics. *)
Theorem zero_interval_panics (now : Time) (tb : TokenBucket) :
  (interval tb = 0 → 0 ≤ Sub now (lastRefill tb) →
   Allow now tb = None ∧ (∀ n, AllowN now n tb = None) ∧
   Available now tb = None) ∧
  (interval tb ≠ 0 →
   is_Some (Allow now tb) ∧ (∀ n, is_Some (AllowN now n tb)) ∧
   is_Some (Available now tb)).
Proof.
  split.
  - intros Hz Hel.
    assert (refill now tb = None) as Hr.
    { unfold refill. rewrite Hz.
      destruct (Z.ltb_spec (Sub now (lastRefill tb)) 0); [lia|done]. }
    unfold Allow, AllowN, Available. rewrite Hr. done.
  - intros Hnz. destruct (refill_total now tb Hnz) as [tb' Hr].
    unfold Allow, AllowN, Available. rewrite Hr. cbn. eauto.
Qed.

Lemma zero_interval_panics_witness :
  Allow 0 (NewTokenBucket 0 10 10 0) = None ∧
  is_Some (Allow 0 (NewTokenBucket 0 10 10 Second)).
Proof.
  split.
  - destruct (zero_interval_panics 0 (NewTokenBucket 0 10 10 0)) as [H _].
    destruct H as [H _]; [reflexivity|vm_compute; discriminate|exact H].
  - destruct (zero_interval_panics 0 (NewTokenBucket 0 10 10 Second))
      as [_ H].
    destruct H as [H _]; [vm_compute; discriminate|exact H].
Defined.

Lemma Sub_le_diff t u : 0 ≤ Sub t u → Sub t u ≤ t - u.
Proof.
  unfold Sub, int64.min, int64.max. repeat case_match; lia.
Qed.

(** One call keeps the bounds, the configuration and the time horizon. *)
Lemma bounded_call_step (c : call) (tb : TokenBucket) (t0 D : Z) :
  0 ≤ tokens tb ≤ capacity tb → 0 < interval tb → 0 ≤ refillRate tb →
  t0 ≤ lastRefill tb → 0 ≤ D →
  capacity tb + D / interval tb * refillRate tb ≤ int64.max →
  0 ≤ call_amount c → call_now c ≤ t0 + D →
  ∃ r tb',
    run_call c tb = Some (r, tb') ∧
    0 ≤ tokens tb' ≤ capacity tb' ∧ capacity tb' = capacity tb ∧
    interval tb' = interval tb ∧ refillRate tb' = refillRate tb ∧
    t0 ≤ lastRefill tb'.
Proof.
  intros Hb Hint Hrate Ht0 HD Hmax Hn Hnow.
  assert (0 ≤ D / interval tb) as HDq by (apply Z.div_pos; lia).
  assert (capacity tb ≤ int64.max) as Hcap by nia.
  assert (∃ tb1, refill (call_now c) tb = Some tb1 ∧
                 0 ≤ tokens tb1 ≤ capacity tb ∧ capacity tb1 = capacity tb ∧
                 interval tb1 = interval tb ∧
                 refillRate tb1 = refillRate tb ∧ t0 ≤ lastRefill tb1)
    as (tb1 & Hr & Hb1 & Hc1 & Hi1 & Hr1 & Hl1).
  { destruct (Z.lt_ge_cases (Sub (call_now c) (lastRefill tb)) (interval tb))
      as [Hlt|Hge].
    - exists tb. rewrite refill_noop by done. split_and!; done || lia.
    - set (elapsed := Sub (call_now c) (lastRefill tb)) in *.
      assert (elapsed ≤ D).
      { pose proof (Sub_le_diff (call_now c) (lastRefill tb)).
        fold elapsed in H. lia. }
      assert (0 ≤ elapsed / interval tb ≤ D / interval tb) as Hp.
      { split; [apply Z.div_pos; lia|apply Z.div_le_mono; lia]. }
      destruct (refill_periods (call_now c) tb Hge Hint)
        as (tb1 & -> & Htok & Hlast & Hc & Hrr & Hi & _).
      { fold elapsed. unfold int64.ok, int64.min, int64.max in *. nia. }
      fold elapsed in Htok, Hlast.
      assert (0 ≤ elapsed / interval tb * refillRate tb) by nia.
      assert (0 ≤ elapsed / interval tb * interval tb) by nia.
      exists tb1. split_and!; try done; lia. }
  exists (call_take c tb1).1, (call_take c tb1).2.
  split.
  { rewrite run_call_take, Hr. cbn [mbind option_bind].
    by destruct (call_take c tb1). }
  assert (∀ n, 0 ≤ n →
            0 ≤ tokens (take_n n tb1).2 ≤ tokens tb1 ∧
            capacity (take_n n tb1).2 = capacity tb1 ∧
            interval (take_n n tb1).2 = interval tb1 ∧
            refillRate (take_n n tb1).2 = refillRate tb1 ∧
            lastRefill (take_n n tb1).2 = lastRefill tb1) as Htake.
  { intros n Hn0. unfold take_n.
    destruct (Z.geb_spec (tokens tb1) n) as [Hge|Hlt];
      cbn [snd tokens capacity interval refillRate lastRefill set_tokens].
    - rewrite wrap_ok by (unfold int64.ok, int64.min, int64.max in *; lia).
      split_and!; [lia|lia|done..].
    - split_and!; [lia|lia|done..]. }
  assert (call_take c tb1 = take_n (call_amount c) tb1) as ->
    by (destruct c; [apply take_one_take_n|done]).
  destruct (Htake (call_amount c) Hn) as (H1 & -> & -> & -> & ->).
  split_and!; [lia|lia|done..].
Qed.

(** X4. The capacity bound along a sequence of calls.  For a bucket with
    a positive interval and a non-negative refill rate, calls that ask for
    a non-negative number of tokens ([Allow] asks for one) and read clocks
    within a horizon [D] after [t0] over which refilling cannot overflow:
    no call panics and [0 <= tokens <= capacity] holds after every call,
    the capacity never changing. *)
Theorem capacity_bound_sequence (cs : list call) (tb : TokenBucket)
    (t0 D : Z) :
  0 ≤ tokens tb ≤ capacity tb → 0 < interval tb → 0 ≤ refillRate tb →
  t0 ≤ lastRefill tb → 0 ≤ D →
  capacity tb + D / interval tb * refillRate tb ≤ int64.max →
  Forall (λ c, 0 ≤ call_amount c ∧ call_now c ≤ t0 + D) cs →
  ∃ res,
    run_calls cs tb = Some res ∧ length res = length cs ∧
    Forall (λ r, 0 ≤ tokens r.2 ≤ capacity tb ∧ capacity r.2 = capacity tb)
           res.
Proof.
  intros Hb Hint Hrate Ht0 HD Hmax Hcs. revert tb Hb Hint Hrate Ht0 Hmax.
  induction Hcs as [|c cs [Hn Hnow] _ IH]; intros tb Hb Hint Hrate Ht0 Hmax.
  { exists []. by split_and!. }
  destruct (bounded_call_step c tb t0 D)
    as (r & tb1 & Hrun & Hb1 & Hc1 & Hi1 & Hr1 & Hl1); [done..|].
  destruct (IH tb1) as (res & Hres & Hlen & Hall).
  - by rewrite Hc1 in Hb1 |- *.
  - by rewrite Hi1.
  - by rewrite Hr1.
  - done.
  - by rewrite Hc1, Hi1, Hr1.
  - exists ((r, tb1) :: res). cbn [run_calls]. rewrite Hrun.
    cbn [mbind option_bind snd]. rewrite Hres. cbn [mbind option_bind].
    split_and!; [done|cbn [length]; by rewrite Hlen|].
    constructor; [cbn [snd]; split; [lia|done]|].
    eapply Forall_impl; [exact Hall|]. intros [a x] [H1 H2]. cbn [snd] in *.
    rewrite Hc1 in H1, H2. done.
Qed.

Lemma capacity_bound_sequence_witness :
  ∃ res,
    run_calls [CallAllowN 0 7; CallAllow (3 * Second); CallAllowN (10 * Second) 9]
              bucket10 = Some res ∧
    Forall (λ r, 0 ≤ tokens r.2 ≤ 10) res.
Proof.
  destruct (capacity_bound_sequence
              [CallAllowN 0 7; CallAllow (3 * Second);
               CallAllowN (10 * Second) 9] bucket10 0 (10 * Second))
    as (res & Hres & _ & Hall).
  - vm_compute. split; discriminate.
  - reflexivity.
  - vm_compute. discriminate.
  - vm_compute. discriminate.
  - vm_compute. discriminate.
  - vm_compute. discriminate.
  - repeat constructor; vm_compute; discriminate.
  - exists res. split; [exact Hres|].
    eapply Forall_impl; [exact Hall|]. intros r [H _]. exact H.
Defined.
End token_bucket_more.

(** ** The limiter, key by key *)

Section limiter_more.
Import time ratelimit.

Lemma State_eta st : {| heap := heap st; limiter := limiter st |} = st.
Proof. by destruct st. Qed.

(** A call for a key that has a bucket. *)
Lemma Limiter_run_present clk c key st p :
  wf st → buckets (limiter st) !! key = Some p →
  ∃ tb r tb',
    heap st !! p = Some tb ∧ run_call c tb = Some (r, tb') ∧
    Limiter_run clk c key st =
      Some (r, {| heap := <[p := tb']> (heap st); limiter := limiter st |}) ∧
    wf {| heap := <[p := tb']> (heap st); limiter := limiter st |}.
Proof.
  intros Hwf Hk.
  destruct (at_loc_run_call c p st Hwf) as (tb & tb1 & Htb & Hr & Hat & Hwf1).
  { destruct Hwf as (_ & Hptr & _). by apply (Hptr key). }
  exists tb, (call_take c tb1).1, (call_take c tb1).2.
  split_and!; [done| | |done].
  - rewrite run_call_take, Hr. cbn [mbind option_bind].
    by destruct (call_take c tb1).
  - rewrite Limiter_run_unfold. unfold getBucket. rewrite Hk.
    cbn [mbind option_bind fst snd]. by rewrite Hat.
Qed.

Lemma last_default_cons (tb x : TokenBucket) l :
  default tb (last (x :: l)) = default x (last l).
Proof. rewrite last_cons. by destruct (last l). Qed.

(** Calls for one key that has a bucket are calls on that bucket,
    whatever the clock would read inside [getBucket]. *)
Lemma Limiter_runs_present (cs : list (Clock * call)) key st p tb :
  wf st → buckets (limiter st) !! key = Some p → heap st !! p = Some tb →
  ∃ res,
    run_calls cs.*2 tb = Some res ∧
    Limiter_runs ((λ x, (x.1, (key, x.2))) <$> cs) st =
      Some (res.*1,
            {| heap := <[p := default tb (last res.*2)]> (heap st);
               limiter := limiter st |}).
Proof.
  revert st tb. induction cs as [|[clk c] cs IH]; intros st tb Hwf Hk Htb.
  { exists []. split; [done|]. cbn. rewrite list_insert_id by done.
    by rewrite State_eta. }
  destruct (Limiter_run_present clk c key st p Hwf Hk)
    as (tb0 & r & tb' & Htb0 & Hcall & Hrun & Hwf1).
  assert (tb0 = tb) as -> by congruence.
  destruct (IH {| heap := <[p := tb']> (heap st); limiter := limiter st |} tb')
    as (res & Hres & Hruns); [done|done| |].
  { cbn [heap]. apply list_lookup_insert_eq. by eapply lookup_lt_Some. }
  exists ((r, tb') :: res). split.
  - cbn [fmap list_fmap snd run_calls]. rewrite Hcall.
    cbn [mbind option_bind snd]. by rewrite Hres.
  - cbn [fmap list_fmap Limiter_runs fst snd]. rewrite Hrun.
    cbn [mbind option_bind fst snd]. rewrite Hruns.
    cbn [mbind option_bind fst snd heap limiter].
    rewrite list_insert_insert_eq.
    change (((r, tb') :: res).*2) with (tb' :: res.*2).
    by rewrite last_default_cons.
Qed.

(** X5. Per-key isolation.  On a well-formed limiter, any sequence of
    [Allow] and [AllowN] calls for a key that has a bucket is answered as
    the same calls made on that bucket directly, whatever the clock would
    read inside [getBucket]; the calls change that bucket only: the key
    map, the configuration, the cleanup time and every other bucket stay
    as they were. *)
Theorem Limiter_calls_act_on_own_bucket (cs : list (Clock * call))
    (key : string) (st : State) (p : nat) (tb : TokenBucket) :
  wf st → buckets (limiter st) !! key = Some p → heap st !! p = Some tb →
  ∃ res st',
    run_calls cs.*2 tb = Some res ∧
    Limiter_runs ((λ x, (x.1, (key, x.2))) <$> cs) st = Some (res.*1, st') ∧
    limiter st' = limiter st ∧
    heap st' !! p = Some (default tb (last res.*2)) ∧
    (∀ q, q ≠ p → heap st' !! q = heap st !! q).
Proof.
  intros Hwf Hk Htb.
  destruct (Limiter_runs_present cs key st p tb Hwf Hk Htb)
    as (res & Hres & Hruns).
  eexists res, _. split_and!; [done|done|done| |]; cbn [heap].
  - apply list_lookup_insert_eq. by eapply lookup_lt_Some.
  - intros q Hq. by apply list_lookup_insert_ne.
Qed.

Lemma Limiter_calls_act_on_own_bucket_witness :
  let st := {| heap := [set_tokens 1 bucket10; bucket10];
               limiter := set_buckets {[ "a" := 0%nat; "b" := 1%nat ]}
                            (limiter (NewLimiter 0 10 10 Second)) |} in
  ∃ st',
    Limiter_runs [(frozen 7, ("a", CallAllow 0));
                  (frozen 9, ("a", CallAllow 0))] st =
      Some ([true; false], st') ∧
    heap st' !! 1%nat = Some bucket10.
Proof.
  intros st.
  destruct (Limiter_calls_act_on_own_bucket
              [(frozen 7, CallAllow 0); (frozen 9, CallAllow 0)]
              "a" st 0 (set_tokens 1 bucket10))
    as (res & st' & Hres & Hruns & _ & _ & Hother).
  - split; [reflexivity|]. split.
    + intros k p H. unfold st in H. cbn in H.
      apply lookup_insert_Some in H as [[_ <-]|[_ H]]; [cbn; lia|].
      apply lookup_singleton_Some in H as [_ <-]. cbn. lia.
    + repeat constructor.
  - reflexivity.
  - reflexivity.
  - exists st'. vm_compute in Hres. injection Hres as <-.
    split; [exact Hruns|]. rewrite Hother; [reflexivity|lia].
Defined.

(** A call for a key without a bucket, when the cleanup is not due and the
    call reads the clock less than one period after the bucket was made. *)
Lemma Limiter_run_fresh clk c key st :
  wf st → buckets (limiter st) !! key = None →
  Sub (at_cleanup clk) (lastCleanup (limiter st)) <
    cleanupInterval (limiter st) →
  Sub (call_now c) (at_new clk) < linterval (limiter st) →
  let l := limiter st in
  let p0 := length (heap st) in
  let nb :=
    NewTokenBucket (at_new clk) (lcapacity l) (lrefillRate l) (linterval l) in
  ∃ st1,
    Limiter_run clk c key st = Some ((call_take c nb).1, st1) ∧ wf st1 ∧
    buckets (limiter st1) = <[key := p0]> (buckets l) ∧
    heap st1 = heap st ++ [(call_take c nb).2] ∧
    lastCleanup (limiter st1) = lastCleanup l ∧
    cleanupInterval (limiter st1) = cleanupInterval l ∧
    lcapacity (limiter st1) = lcapacity l ∧
    lrefillRate (limiter st1) = lrefillRate l ∧
    linterval (limiter st1) = linterval l.
Proof.
  intros Hwf Habs Hnot Hwithin l p0 nb.
  destruct (getBucket_absent clk key st Hwf Habs)
    as (st' & Hget & _ & _ & Hc & Hr & Hi & Hci & _ & _ & Hkeep & _).
  destruct (Hkeep Hnot) as (Hbs & Hheap & Hlc).
  destruct (Limiter_run_absent clk c key st Hwf Habs)
    as (st'' & tbf & Hget' & _ & _ & _ & _ & Hrun & Hwf1 & _ & Hexact).
  { intros Hd. lia. }
  { by left. }
  rewrite Hget in Hget'. simplify_eq.
  rewrite Hexact in Hrun, Hwf1 by (done || (intros Hd; lia)).
  eexists. split; [exact Hrun|]. cbn [heap limiter].
  split_and!; [done|done| |done..].
  rewrite Hheap. rewrite insert_app_r_alt by done.
  by rewrite Nat.sub_diag.
Qed.

(** X6. The first call for a key, when the cleanup is not due and the
    call reads the clock less than one refill period after the bucket was
    made, creates its bucket exactly once: the call is answered from a
    full bucket, the bucket is appended to the store, the key is added to
    the map, every other entry, the buckets of the other keys and the
    configuration are untouched, and [Stats] counts one key more.  A
    second call for the key finds the bucket and creates none. *)
Theorem Limiter_run_creates_once (clk clk' : Clock) (c c' : call)
    (key : string) (st : State) :
  wf st → buckets (limiter st) !! key = None →
  Sub (at_cleanup clk) (lastCleanup (limiter st)) <
    cleanupInterval (limiter st) →
  Sub (call_now c) (at_new clk) < linterval (limiter st) →
  let l := limiter st in
  let nb :=
    NewTokenBucket (at_new clk) (lcapacity l) (lrefillRate l) (linterval l) in
  ∃ st1 st2 r,
    Limiter_run clk c key st = Some ((call_take c nb).1, st1) ∧
    buckets (limiter st1) = <[key := length (heap st)]> (buckets l) ∧
    heap st1 = heap st ++ [(call_take c nb).2] ∧
    total_keys (Stats st1) = S (total_keys (Stats st)) ∧
    Limiter_run clk' c' key st1 = Some (r, st2) ∧
    run_call c' (call_take c nb).2 = Some (r, default nb (last (heap st2))) ∧
    buckets (limiter st2) = buckets (limiter st1) ∧
    length (heap st2) = length (heap st1) ∧
    lcapacity (limiter st1) = lcapacity l ∧
    lrefillRate (limiter st1) = lrefillRate l ∧
    linterval (limiter st1) = linterval l.
Proof.
  intros Hwf Habs Hnot Hwithin l nb.
  destruct (Limiter_run_fresh clk c key st Hwf Habs Hnot Hwithin)
    as (st1 & Hrun & Hwf1 & Hbs & Hheap & _ & _ & Hcap & Hrate & Hint).
  fold l nb in Hrun, Hbs, Hheap.
  destruct (Limiter_run_present clk' c' key st1 (length (heap st)) Hwf1)
    as (tb & r & tb' & Htb & Hcall & Hrun2 & _).
  { rewrite Hbs. apply lookup_insert_eq. }
  rewrite Hheap, list_lookup_middle in Htb by done. simplify_eq.
  eexists st1, _, r.
  split_and!; [done|done|done| |exact Hrun2| |done| |done|done|done].
  - unfold Stats. cbn [total_keys]. rewrite Hbs.
    by apply map_size_insert_None.
  - cbn [heap]. rewrite Hcall. do 2 f_equal. rewrite Hheap.
    rewrite insert_app_r_alt, Nat.sub_diag by done. cbn [insert list_insert].
    by rewrite last_snoc.
  - cbn [heap]. by rewrite length_insert.
Qed.

Lemma Limiter_run_creates_once_witness :
  let clk := {| at_new := 10; at_cleanup := 20; at_bucket := λ _, 30 |} in
  ∃ st1 st2,
    Limiter_run clk (CallAllow 40) "a" (NewLimiter 0 1 1 Minute) =
      Some (true, st1) ∧
    total_keys (Stats st1) = 1%nat ∧
    Limiter_run clk (CallAllow 50) "a" st1 = Some (false, st2) ∧
    total_keys (Stats st2) = 1%nat.
Proof.
  intros clk.
  destruct (Limiter_run_creates_once clk clk (CallAllow 40) (CallAllow 50)
              "a" (NewLimiter 0 1 1 Minute))
    as (st1 & st2 & r & H1 & _ & _ & Hn & H2 & Hr & Hbs & _).
  - split; [reflexivity|]. split; [|constructor].
    intros k p H. cbn in H. rewrite lookup_empty in H. discriminate H.
  - apply lookup_empty.
  - vm_compute. reflexivity.
  - vm_compute. reflexivity.
  - exists st1, st2. split; [exact H1|]. split; [exact Hn|].
    assert (r = false) as ->.
    { vm_compute in Hr. injection Hr as Hr _. by rewrite <- Hr. }
    split; [exact H2|].
    unfold Stats in Hn |- *. cbn [total_keys] in Hn |- *.
    by rewrite Hbs.
Defined.

Lemma fmap_pair_fst {A B C} (f : A → B) (g : A → C) (l : list A) :
  ((λ x, (f x, g x)) <$> l).*1 = f <$> l.
Proof. induction l as [|x l IH]; [done|]. cbn. by rewrite <- IH. Qed.

Lemma take_one_new now c r i :
  0 ≤ c ≤ int64.max →
  take_one (NewTokenBucket now c r i) =
    (bool_decide (Z.of_nat 1 ≤ c),
     set_tokens (Z.max 0 (c - Z.of_nat 1)) (NewTokenBucket now c r i)).
Proof.
  intros Hc. unfold take_one. cbn [tokens NewTokenBucket].
  destruct (Z.gtb_spec c 0) as [Hpos|Hnpos].
  - rewrite wrap_ok by (unfold int64.ok, int64.min, int64.max in *; lia).
    rewrite bool_decide_eq_true_2 by lia. do 2 f_equal. lia.
  - rewrite bool_decide_eq_false_2 by lia.
    assert (c = 0) as -> by lia. done.
Qed.

(** Calls for a key without a bucket, all reading the clock less than one
    period after the bucket was made: the [j]-th is admitted exactly when
    [j] is at most the capacity. *)
Lemma Limiter_runs_new_key (key : string) (st : State) (clk0 : Clock)
    (now0 : Time) (rest : list (Clock * Time)) :
  wf st → 0 ≤ lcapacity (limiter st) ≤ int64.max →
  buckets (limiter st) !! key = None →
  Sub (at_cleanup clk0) (lastCleanup (limiter st)) <
    cleanupInterval (limiter st) →
  Forall (λ now, Sub now (at_new clk0) < linterval (limiter st))
         (now0 :: rest.*2) →
  ∃ st',
    Limiter_runs ((clk0, (key, CallAllow now0)) ::
                  ((λ x, (x.1, (key, CallAllow x.2))) <$> rest)) st =
      Some ((λ j : nat, bool_decide (Z.of_nat j ≤ lcapacity (limiter st)))
              <$> seq 1 (S (length rest)), st').
Proof.
  intros Hwf Hcap Habs Hnot Hall.
  apply Forall_cons in Hall as [Hfirst Hrest].
  set (l := limiter st) in *.
  set (nb := NewTokenBucket (at_new clk0) (lcapacity l) (lrefillRate l)
               (linterval l)).
  destruct (Limiter_run_fresh clk0 (CallAllow now0) key st Hwf Habs Hnot
              Hfirst)
    as (st1 & Hrun & Hwf1 & Hbs & Hheap & _).
  cbn [call_now call_take] in Hrun, Hheap. fold l in Hrun, Hbs, Hheap.
  rewrite (take_one_new (at_new clk0) _ _ _ Hcap) in Hrun, Hheap.
  cbn [fst snd] in Hrun, Hheap. fold nb in Hrun, Hheap.
  destruct (Limiter_runs_present ((λ x, (x.1, CallAllow x.2)) <$> rest)
              key st1 (length (heap st))
              (set_tokens (Z.max 0 (lcapacity l - Z.of_nat 1)) nb) Hwf1)
    as (res & Hres & Hruns).
  { rewrite Hbs. apply lookup_insert_eq. }
  { by rewrite Hheap, list_lookup_middle. }
  rewrite <- !list_fmap_compose in Hres, Hruns.
  assert ((snd ∘ (λ x : Clock * Time, (x.1, CallAllow x.2))) <$> rest =
          CallAllow <$> rest.*2) as Heq.
  { rewrite <- list_fmap_compose. by apply list_fmap_ext. }
  rewrite Heq in Hres.
  rewrite (Allow_from nb (lcapacity l) rest.*2 1 Hcap) in Hres
    by exact Hrest.
  injection Hres as <-.
  rewrite fmap_pair_fst, length_fmap in Hruns.
  set (st2 := {| heap := _; limiter := limiter st1 |}) in Hruns.
  assert (Limiter_runs ((λ x, (x.1, (key, CallAllow x.2))) <$> rest) st1 =
          Some ((λ j : nat, bool_decide (Z.of_nat j ≤ lcapacity l))
                  <$> seq 2 (length rest), st2)) as Hruns2 by exact Hruns.
  exists st2. cbn [Limiter_runs fst snd].
  rewrite Hrun. cbn [mbind option_bind fst snd]. rewrite Hruns2.
  done.
Qed.

(** X7. A new key gets exactly the limiter's capacity.  On a well-formed
    limiter of capacity [c] (not negative), when the cleanup is not due at
    the first call, [Allow] calls for a key that has no bucket yet, all
    reading the clock less than one refill period after the bucket was
    made, are admitted for the first [c] calls and refused afterwards. *)
Theorem Limiter_admits_capacity (key : string) (st : State) (clk0 : Clock)
    (now0 : Time) (rest : list (Clock * Time)) :
  wf st → 0 ≤ lcapacity (limiter st) ≤ int64.max →
  buckets (limiter st) !! key = None →
  Sub (at_cleanup clk0) (lastCleanup (limiter st)) <
    cleanupInterval (limiter st) →
  Forall (λ now, Sub now (at_new clk0) < linterval (limiter st))
         (now0 :: rest.*2) →
  ∃ st',
    Limiter_runs ((clk0, (key, CallAllow now0)) ::
                  ((λ x, (x.1, (key, CallAllow x.2))) <$> rest)) st =
      Some ((λ j : nat, bool_decide (Z.of_nat j ≤ lcapacity (limiter st)))
              <$> seq 1 (S (length rest)), st').
Proof. apply Limiter_runs_new_key. Qed.

Lemma Limiter_admits_capacity_witness :
  let clk := {| at_new := 10; at_cleanup := 20; at_bucket := λ _, 30 |} in
  ∃ st',
    Limiter_runs [(clk, ("a", CallAllow 40)); (clk, ("a", CallAllow 50));
                  (clk, ("a", CallAllow 60))]
                 (NewLimiter 0 2 2 Minute) =
      Some ([true; true; false], st').
Proof.
  intros clk.
  destruct (Limiter_admits_capacity "a" (NewLimiter 0 2 2 Minute) clk 40
              [(clk, 50); (clk, 60)])
    as [st' H].
  - split; [reflexivity|]. split; [|constructor].
    intros k p Hk. cbn in Hk. rewrite lookup_empty in Hk. discriminate Hk.
  - vm_compute. split; discriminate.
  - apply lookup_empty.
  - reflexivity.
  - repeat constructor.
  - exists st'. exact H.
Defined.

(** X8. Cleanup evicts idle buckets only.  On a well-formed limiter in
    which no two keys share a bucket, [cleanupIfNeeded] does nothing while
    the cleanup interval has not passed at its reading of the clock; when
    it has, every bucket in the map is refilled at the reading of its own
    [Available], a key is removed exactly when its refilled bucket holds
    its full capacity, and a key whose bucket has tokens outstanding keeps
    its bucket; no key is added, and the cleanup time becomes the reading
    of [cleanupIfNeeded]. *)
Theorem cleanup_evicts_only_full (now : Time) (avail : string → Time)
    (st : State) :
  wf st → distinct_buckets st →
  (Sub now (lastCleanup (limiter st)) < cleanupInterval (limiter st) →
   cleanupIfNeeded now avail st = Some st) ∧
  (cleanupInterval (limiter st) ≤ Sub now (lastCleanup (limiter st)) →
   ∃ st',
     cleanupIfNeeded now avail st = Some st' ∧ wf st' ∧
     distinct_buckets st' ∧
     lastCleanup (limiter st') = now ∧
     length (heap st') = length (heap st) ∧
     (∀ k p, buckets (limiter st) !! k = Some p →
        ∃ tb tb',
          heap st !! p = Some tb ∧ refill (avail k) tb = Some tb' ∧
          heap st' !! p = Some tb' ∧
          buckets (limiter st') !! k =
            if tokens tb' =? capacity tb' then None else Some p) ∧
     (∀ k, buckets (limiter st) !! k = None →
           buckets (limiter st') !! k = None)).
Proof.
  intros (Hint & Hptr & Hheap) Hdist. unfold cleanupIfNeeded. cbv zeta.
  destruct (Z.ltb_spec (Sub now (lastCleanup (limiter st)))
              (cleanupInterval (limiter st))) as [Hlt|Hge].
  { split; [done|lia]. }
  split; [lia|]. intros _.
  destruct (cleanup_fold_spec (limiter st) avail
              (map_to_list (buckets (limiter st))) Hint
              (heap st) (buckets (limiter st)))
    as (h' & bs' & Hfold & Hlen & Hh' & _ & Hvis & Hkeys & _).
  - done.
  - intros k p Hk. apply elem_of_map_to_list in Hk. by apply (Hptr k).
  - apply NoDup_fst_map_to_list.
  - rewrite Hfold. cbn [mbind option_bind fst snd].
    assert (∀ k p, buckets (limiter st) !! k = Some p →
              ∃ tb tb',
                heap st !! p = Some tb ∧ refill (avail k) tb = Some tb' ∧
                h' !! p = Some tb' ∧
                bs' !! k =
                  if tokens tb' =? capacity tb' then None else Some p)
      as Hvis2.
    { intros k p Hk.
      destruct (Hvis k p) as (tb & tb' & H1 & H2 & H3 & H4);
        [by apply elem_of_map_to_list| |].
      { intros k' Hk'. apply elem_of_map_to_list in Hk'.
        by apply (Hdist k' k p). }
      exists tb, tb'. by rewrite H4, Hk. }
    assert (∀ k, buckets (limiter st) !! k = None → bs' !! k = None)
      as Hnone.
    { intros k Hk. rewrite Hkeys; [done|].
      intros Hin. apply list_elem_of_fmap in Hin as ([k2 p] & -> & Hin).
      apply elem_of_map_to_list in Hin. cbn in Hk. congruence. }
    assert (∀ k q, bs' !! k = Some q → buckets (limiter st) !! k = Some q)
      as Hsub.
    { intros k q Hk.
      destruct (buckets (limiter st) !! k) as [p|] eqn:Hold.
      - destruct (Hvis2 k p Hold) as (tb & tb' & _ & _ & _ & H4).
        rewrite H4 in Hk. by destruct (_ =? _).
      - rewrite (Hnone k Hold) in Hk. done. }
    eexists. split; [reflexivity|]. cbn [heap limiter].
    split_and!; [|  |done|done|exact Hvis2|exact Hnone].
    + split_and!; [done| |done]. cbn [heap limiter]. intros k p Hk.
      cbn in Hk. rewrite Hlen. apply (Hptr k). by apply Hsub.
    + intros k1 k2 p H1 H2. cbn in H1, H2.
      apply (Hdist k1 k2 p); by apply Hsub.
Qed.

Lemma cleanup_evicts_only_full_witness :
  let full := NewTokenBucket 0 10 1 Minute in
  let st := {| heap := [set_tokens 3 full; full];
               limiter := set_buckets {[ "a" := 0%nat; "b" := 1%nat ]}
                            (limiter (NewLimiter 0 10 1 Minute)) |} in
  let avail := λ k : string,
    if String.eqb k "a" then 5 * Minute + 10 else 5 * Minute + 20 in
  ∃ st',
    cleanupIfNeeded (5 * Minute) avail st = Some st' ∧
    buckets (limiter st') !! "a" = Some 0%nat ∧
    buckets (limiter st') !! "b" = None.
Proof.
  intros full st avail.
  assert (∀ k p, buckets (limiter st) !! k = Some p →
            (k = "a" ∧ p = 0%nat) ∨ (k = "b" ∧ p = 1%nat)) as Hcases.
  { intros k p H. unfold st in H. cbn in H.
    apply lookup_insert_Some in H as [[<- <-]|[_ H]]; [by left|].
    apply lookup_singleton_Some in H as [<- <-]. by right. }
  destruct (cleanup_evicts_only_full (5 * Minute) avail st) as [_ H].
  - split; [reflexivity|]. split.
    + intros k p Hk. destruct (Hcases k p Hk) as [[_ ->]|[_ ->]]; cbn; lia.
    + repeat constructor.
  - intros k1 k2 p H1 H2.
    destruct (Hcases k1 p H1) as [[-> ->]|[-> ->]];
      destruct (Hcases k2 _ H2) as [[-> Hp]|[-> Hp]];
      first [reflexivity|discriminate Hp].
  - destruct H as (st' & Hrun & _ & _ & _ & _ & Hvis & _).
    + vm_compute. discriminate.
    + exists st'. split; [exact Hrun|]. split.
      * destruct (Hvis "a" 0%nat) as (tb & tb' & Htb & Hr & _ & Ha);
          [reflexivity|].
        cbn in Htb. injection Htb as <-.
        vm_compute in Hr. injection Hr as <-. exact Ha.
      * destruct (Hvis "b" 1%nat) as (tb & tb' & Htb & Hr & _ & Hb);
          [reflexivity|].
        cbn in Htb. injection Htb as <-.
        vm_compute in Hr. injection Hr as <-. exact Hb.
Defined.

Lemma call_take_fst c tb1 tb2 :
  tokens tb1 = tokens tb2 → (call_take c tb1).1 = (call_take c tb2).1.
Proof.
  intros H. destruct c; cbn [call_take]; unfold take_one, take_n;
    rewrite H; by destruct (_ >? _) || destruct (_ >=? _).
Qed.

(** The answer to a call that makes the bucket of its key, when that
    bucket is still full at the later readings of the call. *)
Lemma Limiter_run_full clk c key st :
  wf st → buckets (limiter st) !! key = None →
  let l := limiter st in
  (cleanupInterval l ≤ Sub (at_cleanup clk) (lastCleanup l) →
   keeps_full l (at_new clk) (at_bucket clk key)) →
  keeps_full l (at_new clk) (call_now c) →
  ∃ st',
    Limiter_run clk c key st =
      Some ((call_take c
               (NewTokenBucket (at_new clk) (lcapacity l) (lrefillRate l)
                  (linterval l))).1, st').
Proof.
  intros Hwf Habs l Hk1 Hk2.
  destruct (Limiter_run_absent clk c key st Hwf Habs Hk1 Hk2)
    as (st' & tbf & _ & _ & _ & (Hc & _) & Hfull & Hrun & _).
  eexists. rewrite Hrun. do 2 f_equal.
  apply call_take_fst. by rewrite Hfull, Hc.
Qed.

Lemma Reset_wf key st : wf st → wf (Reset key st).
Proof.
  intros (Hint & Hptr & Hheap). split_and!; [done| |done].
  intros k p Hk. cbn in Hk. apply lookup_delete_Some in Hk as [_ Hk].
  by apply (Hptr k).
Qed.

Lemma ResetAll_wf st : wf st → wf (ResetAll st).
Proof.
  intros (Hint & Hptr & Hheap). split_and!; [done| |done].
  intros k p Hk. cbn in Hk. by rewrite lookup_empty in Hk.
Qed.

(** X9. [Reset key] forgets one key and nothing else: the other keys keep
    their buckets, the store of buckets is untouched, [Stats] counts one
    key less when the key had a bucket and the limiter is unchanged when
    it had none; on a well-formed limiter the next call for [key], when
    the bucket it makes is still full at the later readings of that call,
    is answered from a full bucket, whatever the key had consumed
    before. *)
Theorem Reset_forgets_one_key (key : string) (st : State) :
  buckets (limiter (Reset key st)) !! key = None ∧
  (∀ k, k ≠ key →
        buckets (limiter (Reset key st)) !! k = buckets (limiter st) !! k) ∧
  heap (Reset key st) = heap st ∧
  (is_Some (buckets (limiter st) !! key) →
   S (total_keys (Stats (Reset key st))) = total_keys (Stats st)) ∧
  (buckets (limiter st) !! key = None → Reset key st = st) ∧
  (wf st → ∀ clk c,
     (cleanupInterval (limiter st) ≤
        Sub (at_cleanup clk) (lastCleanup (limiter st)) →
      keeps_full (limiter st) (at_new clk) (at_bucket clk key)) →
     keeps_full (limiter st) (at_new clk) (call_now c) →
     ∃ st',
       Limiter_run clk c key (Reset key st) =
         Some ((call_take c
                  (NewTokenBucket (at_new clk) (lcapacity (limiter st))
                     (lrefillRate (limiter st)) (linterval (limiter st)))).1,
               st')).
Proof.
  split_and!.
  - cbn. apply lookup_delete_eq.
  - intros k Hk. cbn. by apply lookup_delete_ne.
  - done.
  - intros [p Hp]. unfold Stats, Reset. cbn [total_keys limiter buckets
      set_buckets]. rewrite map_size_delete, Hp.
    assert (size (buckets (limiter st)) ≠ 0%nat); [|lia].
    intros Hz. apply map_size_empty_inv in Hz. rewrite Hz in Hp.
    by rewrite lookup_empty in Hp.
  - intros Hnone. unfold Reset. rewrite delete_id by done.
    destruct st as [h []]. done.
  - intros Hwf clk c Hk1 Hk2.
    destruct (Limiter_run_full clk c key (Reset key st)
                (Reset_wf key st Hwf)) as [st' Hrun]; [|done|done|].
    { cbn. apply lookup_delete_eq. }
    eexists. exact Hrun.
Qed.

Lemma Reset_forgets_one_key_witness :
  let st := {| heap := [set_tokens 0 bucket10];
               limiter := set_buckets {[ "a" := 0%nat ]}
                            (limiter (NewLimiter 0 10 10 Second)) |} in
  let clk := {| at_new := 10; at_cleanup := 20; at_bucket := λ _, 30 |} in
  (∃ st1, Limiter_run clk (CallAllow 0) "a" st = Some (false, st1)) ∧
  (∃ st2,
     Limiter_run clk (CallAllow 40) "a" (Reset "a" st) = Some (true, st2)) ∧
  total_keys (Stats (Reset "a" st)) = 0%nat.
Proof.
  intros st clk. split; [|split].
  - eexists. vm_compute. reflexivity.
  - destruct (Reset_forgets_one_key "a" st) as (_ & _ & _ & _ & _ & H).
    destruct (H ltac:(split; [reflexivity|]; split;
                      [intros k p Hk; unfold st in Hk; cbn in Hk;
                       apply lookup_singleton_Some in Hk as [_ <-]; cbn; lia
                      |repeat constructor]) clk (CallAllow 40))
      as [st2 H2].
    + intros _. left. reflexivity.
    + left. reflexivity.
    + exists st2. exact H2.
  - destruct (Reset_forgets_one_key "a" st) as (_ & _ & _ & H & _).
    assert (S (total_keys (Stats (Reset "a" st))) = 1%nat) as Hs.
    { rewrite H; [reflexivity|]. exists 0%nat. reflexivity. }
    lia.
Defined.

(** X10. [ResetAll] forgets every key: [Stats] reports zero keys and the
    same capacity, refill rate and interval as before, and on a
    well-formed limiter the next call for any key, when the bucket it
    makes is still full at the later readings of that call, is answered
    from a full bucket. *)
Theorem ResetAll_forgets_all (st : State) :
  total_keys (Stats (ResetAll st)) = 0%nat ∧
  stats_capacity (Stats (ResetAll st)) = stats_capacity (Stats st) ∧
  refill_rate (Stats (ResetAll st)) = refill_rate (Stats st) ∧
  interval_ms (Stats (ResetAll st)) = interval_ms (Stats st) ∧
  (∀ key, buckets (limiter (ResetAll st)) !! key = None) ∧
  (wf st → ∀ key clk c,
     (cleanupInterval (limiter st) ≤
        Sub (at_cleanup clk) (lastCleanup (limiter st)) →
      keeps_full (limiter st) (at_new clk) (at_bucket clk key)) →
     keeps_full (limiter st) (at_new clk) (call_now c) →
     ∃ st',
       Limiter_run clk c key (ResetAll st) =
         Some ((call_take c
                  (NewTokenBucket (at_new clk) (lcapacity (limiter st))
                     (lrefillRate (limiter st)) (linterval (limiter st)))).1,
               st')).
Proof.
  split_and!; [done..| |].
  - intros key. cbn. apply lookup_empty.
  - intros Hwf key clk c Hk1 Hk2.
    destruct (Limiter_run_full clk c key (ResetAll st)
                (ResetAll_wf st Hwf)) as [st' Hrun]; [|done|done|].
    { cbn. apply lookup_empty. }
    eexists. exact Hrun.
Qed.

Lemma ResetAll_forgets_all_witness :
  let st := {| heap := [set_tokens 0 bucket10];
               limiter := set_buckets {[ "a" := 0%nat ]}
                            (limiter (NewLimiter 0 10 10 Second)) |} in
  let clk := {| at_new := 10; at_cleanup := 20; at_bucket := λ _, 30 |} in
  ∃ st2,
    Limiter_run clk (CallAllow 40) "a" (ResetAll st) = Some (true, st2).
Proof.
  intros st clk.
  destruct (ResetAll_forgets_all st) as (_ & _ & _ & _ & _ & H).
  destruct (H ltac:(split; [reflexivity|]; split;
                    [intros k p Hk; unfold st in Hk; cbn in Hk;
                     apply lookup_singleton_Some in Hk as [_ <-]; cbn; lia
                    |repeat constructor]) "a" clk (CallAllow 40))
    as [st2 H2].
  - intros _. left. reflexivity.
  - left. reflexivity.
  - exists st2. exact H2.
Defined.

Lemma Limiter_runs_safe ks st :
  wf st →
  ∃ res st',
    Limiter_runs ks st = Some (res, st') ∧ length res = length ks ∧ wf st'.
Proof.
  revert st. induction ks as [|[clk [key c]] ks IH]; intros st Hwf.
  { by exists [], st. }
  destruct (Limiter_run_wf clk c key st Hwf) as (a & st1 & Hrun & Hwf1).
  destruct (IH st1 Hwf1) as (res & st' & Hruns & Hlen & Hwf').
  exists (a :: res), st'. cbn [Limiter_runs fst snd]. rewrite Hrun.
  cbn [mbind option_bind fst snd]. rewrite Hruns.
  split_and!; [done|cbn [length]; by rewrite Hlen|done].
Qed.

(** X11. A limiter with a positive interval never panics: on a
    well-formed state, which [NewLimiter] makes when given a positive
    interval, every sequence of [Allow] and [AllowN] calls, on whatever
    keys, with whatever amounts and clock readings, returns an answer for
    each call and leaves a well-formed state; in particular no refill
    divides by zero and no pointer of the map is dangling. *)
Theorem Limiter_never_panics (ks : list (Clock * (string * call)))
    (st : State) :
  (wf st →
   ∃ res st',
     Limiter_runs ks st = Some (res, st') ∧ length res = length ks ∧
     wf st') ∧
  (∀ now c r i, 0 < i → wf (NewLimiter now c r i)).
Proof.
  split; [apply Limiter_runs_safe|]. intros. by apply NewLimiter_wf.
Qed.

Lemma Limiter_never_panics_witness :
  let clk := {| at_new := 6 * Minute; at_cleanup := 6 * Minute + 5;
                at_bucket := λ _, 7 * Minute |} in
  ∃ res st',
    Limiter_runs [(frozen 0, ("a", CallAllowN (-7) 3));
                  (clk, ("b", CallAllow (8 * Minute)));
                  (frozen 9, ("a", CallAllowN 0 (-2)))]
                 (NewLimiter 0 2 (-1) Second) = Some (res, st') ∧
    length res = 3%nat.
Proof.
  intros clk.
  destruct (Limiter_never_panics
              [(frozen 0, ("a", CallAllowN (-7) 3));
               (clk, ("b", CallAllow (8 * Minute)));
               (frozen 9, ("a", CallAllowN 0 (-2)))]
              (NewLimiter 0 2 (-1) Second))
    as [H Hnew].
  destruct (H (Hnew 0 2 (-1) Second ltac:(reflexivity)))
    as (res & st' & Hruns & Hlen & _).
  exists res, st'. split; [exact Hruns|exact Hlen].
Defined.
End limiter_more.

(** ** Routes with every backend alive *)

Section route_more.
Import gateway.

(** One call when every backend is alive: the backend after the cursor. *)
Lemma NextBackend_all_alive (r : Route) :
  cursor_ok r → Backends r ≠ [] →
  Forall (λ b, IsAlive b = true) (Backends r) →
  let next := (current r + 1) `mod` Z.of_nat (length (Backends r)) in
  NextBackend r = Some (Backends r !! Z.to_nat next, set_current next r) ∧
  is_Some (Backends r !! Z.to_nat next) ∧
  cursor_ok (set_current next r).
Proof.
  intros Hok Hne Hall next.
  assert (0 < Z.of_nat (length (Backends r))) as Hlen
    by (destruct (Backends r); [done|cbn; lia]).
  assert (0 ≤ next < Z.of_nat (length (Backends r))) as Hnext
    by (apply Z.mod_pos_bound; lia).
  destruct (lookup_lt_is_Some_2 (Backends r) (Z.to_nat next)) as [b Hb];
    [lia|].
  destruct Hok as [Hcur Hmax].
  split_and!; [|by exists b|split; cbn; [lia|done]].
  rewrite NextBackend_find by done.
  assert (list_find (λ b, IsAlive b = true)
            (rotate (Z.to_nat (current r) + 1) (Backends r)) = Some (0%nat, b))
    as ->.
  { apply list_find_Some. split_and!.
    - rewrite lookup_rotate_r by lia. rewrite rotate_scan_pos by lia.
      unfold scan_pos. rewrite <- Hb. do 3 f_equal. lia.
    - exact (Forall_lookup_1 _ _ _ _ Hall Hb).
    - intros j y _ Hj. lia. }
  rewrite Hb. do 3 f_equal. unfold next. f_equal. lia.
Qed.

Lemma NextBackend_iter_all_alive (k : nat) (r : Route) :
  cursor_ok r → Backends r ≠ [] →
  Forall (λ b, IsAlive b = true) (Backends r) →
  fst <$> NextBackend_iter k r =
    Some ((λ j : nat,
             Backends r !! Z.to_nat ((current r + Z.of_nat j) `mod`
                                       Z.of_nat (length (Backends r))))
            <$> seq 1 k).
Proof.
  revert r. induction k as [|k IH]; intros r Hok Hne Hall; [done|].
  destruct (NextBackend_all_alive r Hok Hne Hall) as (Hnext & _ & Hok1).
  rewrite NextBackend_iter_S, Hnext. cbn [mbind option_bind fst snd].
  specialize (IH _ Hok1 Hne Hall). cbn [Backends current set_current] in IH.
  destruct (NextBackend_iter k _) as [[l r']|]; [|done].
  cbn [fmap option_fmap option_map fst] in IH. injection IH as ->.
  cbn [mbind option_bind fmap option_fmap option_map fst snd seq].
  rewrite fmap_cons. f_equal. f_equal.
  rewrite <- (fmap_S_seq 1 k), <- list_fmap_compose.
  apply list_fmap_ext. intros _ j _. unfold compose. do 2 f_equal.
  rewrite Zplus_mod_idemp_l. f_equal. lia.
Qed.

(** Where the cursor is after [k] calls when every backend is alive. *)
Lemma NextBackend_iter_cursor (k : nat) (r : Route) :
  cursor_ok r → Backends r ≠ [] →
  Forall (λ b, IsAlive b = true) (Backends r) →
  snd <$> NextBackend_iter k r =
    Some (set_current ((current r + Z.of_nat k) `mod`
                         Z.of_nat (length (Backends r))) r).
Proof.
  revert r. induction k as [|k IH]; intros r Hok Hne Hall.
  { destruct Hok as [Hcur Hmax].
    assert (0 < Z.of_nat (length (Backends r))) as Hlen
      by (destruct (Backends r); [done|cbn; lia]).
    cbn [NextBackend_iter fmap option_fmap option_map snd].
    rewrite Z.add_0_r, Z.mod_small by lia. by rewrite set_current_id. }
  destruct (NextBackend_all_alive r Hok Hne Hall) as (Hnext & _ & Hok1).
  rewrite NextBackend_iter_S, Hnext. cbn [mbind option_bind fst snd].
  specialize (IH _ Hok1 Hne Hall). cbn [Backends current set_current] in IH.
  destruct (NextBackend_iter k _) as [[l r']|]; [|done].
  cbn [fmap option_fmap option_map snd] in IH. injection IH as ->.
  cbn [mbind option_bind fmap option_fmap option_map fst snd].
  f_equal. unfold set_current. cbn [Path Backends]. f_equal.
  rewrite Zplus_mod_idemp_l. f_equal. lia.
Qed.

(** X12. Round-robin over alive backends is fair.  On a route whose
    backends are all alive, call number [j] of [NextBackend] returns the
    backend [j] places after the cursor, cyclically; so as many calls as
    there are backends return every backend exactly once, in list order
    starting after the cursor, and leave the cursor where it was. *)
Theorem NextBackend_fair (r : Route) :
  cursor_ok r → Backends r ≠ [] →
  Forall (λ b, IsAlive b = true) (Backends r) →
  (∀ k, fst <$> NextBackend_iter k r =
        Some ((λ j : nat,
                 Backends r !! Z.to_nat ((current r + Z.of_nat j) `mod`
                                           Z.of_nat (length (Backends r))))
                <$> seq 1 k)) ∧
  fst <$> NextBackend_iter (length (Backends r)) r =
    Some (Some <$> rotate (Z.to_nat (current r) + 1) (Backends r)) ∧
  snd <$> NextBackend_iter (length (Backends r)) r = Some r.
Proof.
  intros Hok Hne Hall.
  split; [intros k; by apply NextBackend_iter_all_alive|].
  rewrite NextBackend_iter_all_alive, NextBackend_iter_cursor by done.
  destruct Hok as [Hcur Hmax].
  assert (0 < Z.of_nat (length (Backends r))) as Hlen
    by (destruct (Backends r); [done|cbn; lia]).
  split.
  2: { replace (current r + Z.of_nat (length (Backends r)))
         with (current r + 1 * Z.of_nat (length (Backends r))) by lia.
       rewrite Z_mod_plus_full, Z.mod_small by lia.
       by rewrite set_current_id. }
  f_equal.
  apply list_eq. intros i. rewrite !list_lookup_fmap.
  destruct (decide (i < length (Backends r))%nat) as [Hi|Hi].
  - rewrite lookup_seq_lt by done. rewrite lookup_rotate_r by done.
    rewrite rotate_scan_pos by lia. unfold scan_pos. cbn.
    replace (current r + Z.of_nat (S i)) with (current r + 1 + Z.of_nat i)
      by lia.
    destruct (lookup_lt_is_Some_2 (Backends r)
                (Z.to_nat ((current r + 1 + Z.of_nat i) `mod`
                             Z.of_nat (length (Backends r))))) as [b ->];
      [|done].
    pose proof (Z.mod_pos_bound (current r + 1 + Z.of_nat i)
                  (Z.of_nat (length (Backends r))) Hlen). lia.
  - rewrite lookup_seq_ge by lia.
    rewrite (lookup_ge_None_2 (rotate _ _)); [done|].
    rewrite length_rotate. lia.
Qed.

Lemma NextBackend_fair_witness :
  let r := {| Path := "/api"; Backends := [B1; B3; B1]; current := 1 |} in
  fst <$> NextBackend_iter 3 r = Some [Some B1; Some B1; Some B3].
Proof.
  intros r.
  destruct (NextBackend_fair r) as (_ & H & _).
  - vm_compute. repeat split; discriminate.
  - discriminate.
  - repeat constructor.
  - exact H.
Defined.
End route_more.

(** ** The request path of the gateway *)

Section request_path.
Import http gateway proxy.
Variable ServeHTTP : Backend → Request → ResponseWriter → ResponseWriter.

Lemma set_routes_id g : set_routes (routes g) g = g.
Proof. by destruct g. Qed.

(** X13. What [handleRequest] does with a request.  A path without a
    route is answered 404 and the gateway is untouched.  A path whose
    route has no alive backend is answered 503 with the
    service-unavailable body, and the gateway is untouched.  Otherwise
    the request is forwarded to a backend of that route that is alive,
    the first one after the route's cursor, and only the cursor of that
    route changes: a backend marked dead is never chosen, and the limiter
    and the other routes are never touched. *)
Theorem handleRequest_outcomes (r : Request) (g : Gateway)
    (w : ResponseWriter) :
  (routes g !! URLPath r = None →
   handleRequest ServeHTTP r (g, w) = Some (g, NotFound w r) ∧
   status (NotFound w r) = Some (default StatusNotFound (status w))) ∧
  (∀ route,
     routes g !! URLPath r = Some route → cursor_ok route →
     (Forall (λ b, IsAlive b = false) (Backends route) →
      ∃ w',
        handleRequest ServeHTTP r (g, w) = Some (g, w') ∧
        status w' = Some (default StatusServiceUnavailable (status w)) ∧
        header w' = header w ∧
        body w' =
          body w +:+ error_body "service unavailable"
                                "No healthy backends available") ∧
     (Exists (λ b, IsAlive b = true) (Backends route) →
      ∃ b route' g',
        handleRequest ServeHTTP r (g, w) = Some (g', ServeHTTP b r w) ∧
        IsAlive b = true ∧
        NextBackend route = Some (Some b, route') ∧
        Backends route' = Backends route ∧ cursor_ok route' ∧
        Backends route !! Z.to_nat (current route') = Some b ∧
        routes g' = <[URLPath r := route']> (routes g) ∧
        limiter g' = limiter g ∧ healthCheck g' = healthCheck g)).
Proof.
  split.
  - intros Hnone. unfold handleRequest. cbn [fst snd]. rewrite Hnone.
    split; [done|]. unfold NotFound, Error. cbn. by destruct (status w).
  - intros route Hroute Hok. split.
    + intros Hdead.
      assert (NextBackend route = Some (None, route)) as Hnb.
      { rewrite NextBackend_find by done.
        erewrite (proj2 (list_find_None _ _)); [done|].
        apply Forall_forall. intros b Hb. rewrite elem_of_rotate in Hb.
        rewrite Forall_forall in Hdead. by rewrite (Hdead b Hb). }
      eexists. unfold handleRequest. cbn [fst snd]. rewrite Hroute, Hnb.
      cbn [mbind option_bind fst snd]. rewrite insert_id by done.
      rewrite set_routes_id. split; [reflexivity|].
      cbn. by destruct (status w).
    + intros Halive.
      pose proof (NextBackend_find route Hok) as Hnb.
      destruct (list_find (λ b, IsAlive b = true)
                  (rotate (Z.to_nat (current route) + 1) (Backends route)))
        as [[i b]|] eqn:Hlf.
      * apply list_find_Some in Hlf as (Hb & Hal & _).
        pose proof (lookup_lt_Some _ _ _ Hb) as Hi.
        rewrite length_rotate in Hi.
        destruct Hok as [Hcur Hmax].
        pose proof (Z.mod_pos_bound (current route + 1 + Z.of_nat i)
                      (Z.of_nat (length (Backends route)))) as Hmod.
        eexists b, _, _. unfold handleRequest. cbn [fst snd].
        rewrite Hroute, Hnb. cbn [mbind option_bind fst snd].
        split_and!; [reflexivity|done|reflexivity|done| | |done..].
        -- split; cbn; [lia|done].
        -- cbn. rewrite lookup_rotate_r in Hb by done.
           by rewrite rotate_scan_pos in Hb by lia.
      * apply list_find_None in Hlf. exfalso.
        apply Exists_exists in Halive as (b & Hb & Hal).
        rewrite Forall_forall in Hlf. apply (Hlf b); [|done].
        by rewrite elem_of_rotate.
Qed.

End request_path.

Lemma handleRequest_outcomes_witness :
  let serve := λ (b : gateway.Backend) (r : http.Request)
                 (w : http.ResponseWriter),
    http.Write (url.Host (gateway.URL b)) w in
  let g := {| gateway.routes :=
                {[ "/api" := gateway.route3; "/down" := gateway.route3_dead ]};
              gateway.limiter := ratelimit.NewLimiter 0 1 1 time.Minute;
              gateway.healthCheck := 10 * time.Second |} in
  let req p := {| http.Header := ∅; http.RemoteAddr := "10.0.0.1:4711";
                  http.URLPath := p |} in
  (∃ g', proxy.handleRequest serve (req "/api") (g, http.empty_response) =
           Some (g', serve gateway.B3 (req "/api") http.empty_response)) ∧
  (∃ w', proxy.handleRequest serve (req "/down") (g, http.empty_response) =
           Some (g, w') ∧
         http.status w' = Some http.StatusServiceUnavailable) ∧
  (∃ w', proxy.handleRequest serve (req "/none") (g, http.empty_response) =
           Some (g, w') ∧ http.status w' = Some http.StatusNotFound).
Proof.
  intros serve g req.
  split; [|split].
  - destruct (handleRequest_outcomes serve (req "/api") g
                http.empty_response) as [_ H].
    destruct (H gateway.route3 eq_refl) as [_ H2];
      [vm_compute; repeat split; discriminate|].
    destruct H2 as (b & route' & g' & Hrun & _ & Hnb & _);
      [left; reflexivity|].
    assert (b = gateway.B3) as ->
      by (vm_compute in Hnb; injection Hnb as <- _; reflexivity).
    exists g'. exact Hrun.
  - destruct (handleRequest_outcomes serve (req "/down") g
                http.empty_response) as [_ H].
    destruct (H gateway.route3_dead eq_refl) as [H1 _];
      [vm_compute; repeat split; discriminate|].
    destruct H1 as (w' & Hrun & Hst & _); [repeat constructor|].
    exists w'. split; [exact Hrun|exact Hst].
  - destruct (handleRequest_outcomes serve (req "/none") g
                http.empty_response) as [H _].
    destruct H as [Hrun Hst]; [reflexivity|].
    eexists. split; [exact Hrun|exact Hst].
Defined.

(** ** Building a gateway and reading its statistics *)

Section gateway_setup.
Import time gateway.
Variable Parse : string → option url.URL.
Variable request : Type.
Variable NewRequestWithContext : url.URL → option request.
Variable Do : request → option Z.


Lemma aliveCount_from (bs : list Backend) (m : nat) :
  foldl (λ n b, if IsAlive b then S n else n) m bs =
    (m + length (filter (λ b, IsAlive b = true) bs))%nat.
Proof.
  revert m. induction bs as [|b bs IH]; intros m; [cbn; lia|].
  cbn [foldl]. rewrite IH. rewrite filter_cons.
  destruct (IsAlive b) eqn:Hb.
  - rewrite decide_True by done. cbn [length]. lia.
  - rewrite decide_False by done. lia.
Qed.

Lemma route_stats_spec (route : Route) :
  route_stats route =
    {| total_backends := length (Backends route);
       alive_backends :=
         length (filter (λ b, IsAlive b = true) (Backends route)) |}.
Proof. unfold route_stats, aliveCount. by rewrite aliveCount_from. Qed.

(** X15. What [Stats] reports about routes.  For every route it reports
    the number of its backends and the number of those marked alive,
    which is never more; paths without a route are not reported.  Right
    after a successful [AddRoute] the route's backends are as many as its
    targets and all are reported alive; after [healthCheckAll] the total
    is what it was and the alive count is the number of backends whose
    probe answered alive. *)
Theorem Stats_routes (g : Gateway) (path : string) :
  (routes g !! path = None → stats_routes (Stats g) !! path = None) ∧
  (∀ route, routes g !! path = Some route →
     stats_routes (Stats g) !! path =
       Some {| total_backends := length (Backends route);
               alive_backends :=
                 length (filter (λ b, IsAlive b = true) (Backends route)) |} ∧
     (length (filter (λ b, IsAlive b = true) (Backends route))
        ≤ length (Backends route))%nat ∧
     stats_routes
       (Stats (healthCheckAll request NewRequestWithContext Do g)) !! path =
       Some {| total_backends := length (Backends route);
               alive_backends :=
                 length (filter
                           (λ b, isBackendAlive request NewRequestWithContext
                                   Do (URL b) = true)
                           (Backends route)) |}) ∧
  (∀ urls, (AddRoute Parse path urls g).1 = None →
     stats_routes (Stats (AddRoute Parse path urls g).2) !! path =
       Some {| total_backends := length urls;
               alive_backends := length urls |}).
Proof.
  split_and!.
  - intros H. unfold Stats. cbn. by rewrite lookup_fmap, H.
  - intros route H. split_and!.
    + unfold Stats. cbn [stats_routes].
      rewrite lookup_fmap, H. cbn [fmap option_fmap option_map].
      by rewrite route_stats_spec.
    + apply length_filter.
    + unfold Stats. cbn [stats_routes].
      rewrite lookup_fmap, healthCheckAll_lookup, H.
      cbn [fmap option_fmap option_map]. rewrite route_stats_spec.
      cbn [Backends set_Backends]. rewrite length_fmap. do 2 f_equal.
      induction (Backends route) as [|b bs IH]; [done|].
      rewrite fmap_cons, !filter_cons. cbn [IsAlive probe SetAlive Alive].
      destruct (isBackendAlive _ _ _ (URL b)) eqn:Hb.
      * rewrite !decide_True by done. cbn [length]. by rewrite IH.
      * by rewrite !decide_False by done.
  - intros urls Hok. unfold AddRoute in *.
    destruct (parse_backends Parse urls []) as [bad|bs] eqn:Hp; [done|].
    cbn [snd]. unfold Stats. cbn [stats_routes routes set_routes].
    rewrite lookup_fmap, lookup_insert_eq.
    cbn [fmap option_fmap option_map]. rewrite route_stats_spec.
    cbn [Backends].
    destruct (decide (Exists (λ u, Parse u = None) urls)) as [Hex|Hall].
    { destruct (first_unparseable Parse urls Hex)
        as (pre & bad & post & -> & Hpre & Hbad).
      by rewrite parse_backends_bad in Hp. }
    destruct (all_parseable Parse urls Hall) as [us Hus].
    rewrite (parse_backends_ok Parse urls [] us Hus) in Hp.
    injection Hp as <-. cbn [app].
    pose proof (Forall2_length _ _ _ Hus) as Hlen.
    assert (∀ l : list url.URL,
              filter (λ b, IsAlive b = true) (new_backend <$> l) =
                new_backend <$> l) as Hf.
    { intros l. induction l as [|u l IH]; [done|].
      rewrite fmap_cons, filter_cons. rewrite decide_True by done.
      by rewrite IH. }
    by rewrite Hf, length_fmap, Hlen.
Qed.
End gateway_setup.


Lemma Stats_routes_witness :
  let Parse := λ s : string,
    if String.eqb s "%zz" then None
    else Some (url.mkURL "http" s EmptyString) in
  let NewRequestWithContext := λ u : url.URL,
    if String.eqb (url.Host u) EmptyString then None else Some u in
  let Do := λ u : url.URL,
    if String.eqb (url.Host u) "localhost:8081" then Some 404
    else if String.eqb (url.Host u) "localhost:8083" then Some 503
    else None in
  let g := (gateway.AddRoute Parse "/api"
              ["localhost:8081"; "localhost:8082"; "localhost:8083"]
              (gateway.NewGateway 0 (gateway.mkConfig 0 0 0 0))).2 in
  gateway.stats_routes (gateway.Stats g) !! "/api" =
    Some {| gateway.total_backends := 3; gateway.alive_backends := 3 |} ∧
  gateway.stats_routes (gateway.Stats g) !! "/other" = None ∧
  gateway.stats_routes
    (gateway.Stats
       (gateway.healthCheckAll url.URL NewRequestWithContext Do g))
    !! "/api" =
    Some {| gateway.total_backends := 3; gateway.alive_backends := 1 |}.
Proof.
  intros Parse NewRequestWithContext Do g.
  split_and!.
  - destruct (Stats_routes Parse url.URL NewRequestWithContext Do
                (gateway.NewGateway 0 (gateway.mkConfig 0 0 0 0)) "/api")
      as (_ & _ & H).
    apply (H ["localhost:8081"; "localhost:8082"; "localhost:8083"]).
    reflexivity.
  - destruct (Stats_routes Parse url.URL NewRequestWithContext Do g "/other")
      as (H & _ & _).
    apply H. reflexivity.
  - destruct (Stats_routes Parse url.URL NewRequestWithContext Do g "/api")
      as (_ & H & _).
    destruct (H {| gateway.Path := "/api";
                   gateway.Backends :=
                     gateway.new_backend <$>
                       [url.mkURL "http" "localhost:8081" EmptyString;
                        url.mkURL "http" "localhost:8082" EmptyString;
                        url.mkURL "http" "localhost:8083" EmptyString];
                   gateway.current := 0 |}) as (_ & _ & Hh).
    + reflexivity.
    + rewrite Hh. reflexivity.
Defined.

(** ** Keys that have no bucket yet *)

Section limiter_keys.
Import time ratelimit.

Lemma Limiter_runs_fresh_keys (kts : list (Clock * (string * Time)))
    (st : State) :
  wf st → 1 ≤ lcapacity (limiter st) ≤ int64.max →
  NoDup ((λ x, x.2.1) <$> kts) →
  Forall (λ x, buckets (limiter st) !! x.2.1 = None) kts →
  Forall (λ x, keeps_full (limiter st) (at_new x.1) (at_bucket x.1 x.2.1) ∧
               keeps_full (limiter st) (at_new x.1) x.2.2) kts →
  ∃ st',
    Limiter_runs ((λ x, (x.1, (x.2.1, CallAllow x.2.2))) <$> kts) st =
      Some (replicate (length kts) true, st') ∧
    wf st' ∧
    lcapacity (limiter st') = lcapacity (limiter st) ∧
    lrefillRate (limiter st') = lrefillRate (limiter st) ∧
    linterval (limiter st') = linterval (limiter st).
Proof.
  revert st.
  induction kts as [|[clk [key now]] kts IH];
    intros st Hwf Hc Hnd Habs Hfull.
  { by exists st. }
  cbn [fmap list_fmap fst snd] in Hnd.
  apply NoDup_cons in Hnd as [Hkey Hnd].
  apply Forall_cons in Habs as [Hk Habs]. cbn [fst snd] in Hk.
  apply Forall_cons in Hfull as [[Hk1 Hk2] Hfull]. cbn [fst snd] in Hk1, Hk2.
  destruct (getBucket_absent clk key st Hwf Hk)
    as (st1 & Hget & _ & _ & Hc1 & Hr1 & Hi1 & _ & Hkeys & _).
  destruct (Limiter_run_absent clk (CallAllow now) key st Hwf Hk)
    as (st1' & tbf & Hget' & _ & _ & (Hctb & _) & Hfulltb & Hrun & Hwf2 & _);
    [done|done|].
  assert (st1' = st1) as -> by congruence.
  cbn [call_now call_take] in Hrun, Hwf2.
  rewrite take_one_full in Hrun, Hwf2 by (done || (rewrite Hctb; lia)).
  cbn [fst snd] in Hrun, Hwf2.
  set (st2 := {| heap := _; limiter := limiter st1 |}) in Hrun, Hwf2.
  destruct (IH st2) as (st' & Hruns & Hwf' & Hc' & Hr' & Hi');
    [done| |done| | |].
  - subst st2. cbn [limiter]. lia.
  - apply Forall_forall. intros [clk' [k t]] Hin. cbn [fst snd].
    rewrite Forall_forall in Habs. specialize (Habs _ Hin).
    cbn [fst snd] in Habs. subst st2. cbn [limiter].
    destruct (buckets (limiter st1) !! k) as [q|] eqn:Hq; [|done].
    destruct (Hkeys k q Hq) as [[-> _]|Hold]; [|congruence].
    exfalso. apply Hkey. apply list_elem_of_fmap.
    by exists (clk', (key, t)).
  - eapply Forall_impl; [exact Hfull|]. intros x [H1 H2]. subst st2.
    cbn [limiter]. split; by apply (keeps_full_config (limiter st)).
  - exists st'. rewrite fmap_cons.
    cbn [Limiter_runs fst snd length replicate].
    rewrite Hrun. cbn [mbind option_bind fst snd]. rewrite Hruns.
    split_and!; [done|done| | |].
    + rewrite Hc'. subst st2. by cbn [limiter].
    + rewrite Hr'. subst st2. by cbn [limiter].
    + rewrite Hi'. subst st2. by cbn [limiter].
Qed.

(** X16. Limiting is per key and nothing else.  On a well-formed limiter
    of capacity at least 1, [Allow] calls for pairwise different keys that
    have no bucket yet are all admitted, however many they are and whether
    or not a cleanup runs in between, when the bucket that each call makes
    is still full at the later readings of that call: they lie less than
    one interval after the creation, or the refill rate is not negative
    and the refill cannot overflow. *)
Theorem Limiter_fresh_keys_admitted (kts : list (Clock * (string * Time)))
    (st : State) :
  wf st → 1 ≤ lcapacity (limiter st) ≤ int64.max →
  NoDup ((λ x, x.2.1) <$> kts) →
  Forall (λ x, buckets (limiter st) !! x.2.1 = None) kts →
  Forall (λ x, keeps_full (limiter st) (at_new x.1) (at_bucket x.1 x.2.1) ∧
               keeps_full (limiter st) (at_new x.1) x.2.2) kts →
  ∃ st',
    Limiter_runs ((λ x, (x.1, (x.2.1, CallAllow x.2.2))) <$> kts) st =
      Some (replicate (length kts) true, st') ∧ wf st'.
Proof.
  intros Hwf Hc Hnd Habs Hfull.
  destruct (Limiter_runs_fresh_keys kts st Hwf Hc Hnd Habs Hfull)
    as (st' & H & Hwf' & _).
  by exists st'.
Qed.

Lemma Limiter_fresh_keys_admitted_witness :
  let clk := λ t : Time,
    {| at_new := t; at_cleanup := t + 1; at_bucket := λ _, t + 2 |} in
  ∃ st',
    Limiter_runs [(clk 0, ("a", CallAllow 3));
                  (clk (7 * Minute), ("b", CallAllow (9 * Minute)));
                  (clk 5, ("c", CallAllow 8))]
                 (NewLimiter 0 1 1 Minute) = Some ([true; true; true], st').
Proof.
  intros clk.
  destruct (Limiter_fresh_keys_admitted
              [(clk 0, ("a", 3)); (clk (7 * Minute), ("b", 9 * Minute));
               (clk 5, ("c", 8))]
              (NewLimiter 0 1 1 Minute)) as (st' & H & _).
  - apply NewLimiter_wf. reflexivity.
  - vm_compute. split; discriminate.
  - apply NoDup_cons. split; [|apply NoDup_cons; split;
      [|apply NoDup_cons; split; [|apply NoDup_nil_2]]].
    + intros Hin. apply elem_of_cons in Hin as [Hin|Hin]; [discriminate Hin|].
      apply elem_of_cons in Hin as [Hin|Hin]; [discriminate Hin|].
      by apply elem_of_nil in Hin.
    + intros Hin. apply elem_of_cons in Hin as [Hin|Hin]; [discriminate Hin|].
      by apply elem_of_nil in Hin.
    + intros Hin. by apply elem_of_nil in Hin.
  - repeat constructor.
  - apply Forall_cons. split; [split; left; reflexivity|].
    apply Forall_cons. split.
    { split; [left; reflexivity|].
      right. vm_compute. repeat split; discriminate. }
    apply Forall_cons. split; [split; left; reflexivity|].
    apply Forall_nil_2.
  - exists st'. exact H.
Defined.
End limiter_keys.

(** ** The middleware over a sequence of requests *)

Section middleware_more.
Import time http ratelimit middleware.
Variable SplitHostPort : string → option string.

Lemma RateLimit_unfold config next rd r st w :
  RateLimit SplitHostPort config next rd r (st, w) =
    if skipped config r then next rd r (st, w)
    else
      a ← Limiter_Allow (limiter_clock rd) (allow_now rd)
             (key_of SplitHostPort config r) st;
      if negb a.1 then Some (a.2, exceeded config w r)
      else next rd r
             (a.2, AddRateLimitHeaders (headers_now rd) w a.2
                     (key_of SplitHostPort config r)).
Proof. reflexivity. Qed.

Lemma AddRateLimitHeaders_config now w st st' key key' :
  lcapacity (limiter st') = lcapacity (limiter st) →
  linterval (limiter st') = linterval (limiter st) →
  AddRateLimitHeaders now w st' key' = AddRateLimitHeaders now w st key.
Proof.
  intros Hc Hi. unfold AddRateLimitHeaders, Stats.
  cbn [stats_capacity interval_ms]. by rewrite Hc, Hi.
Qed.

(** The limiter is called once for every request that is not skipped. *)
Lemma serve_RateLimit_state config next reqs st :
  (∀ rd r s w, ∃ w', next rd r (s, w) = Some (s, w')) →
  snd <$> serve (RateLimit SplitHostPort config next) reqs st =
  snd <$> Limiter_runs
            (limiter_call SplitHostPort config <$>
               filter (λ tr, skipped config tr.2 = false) reqs) st.
Proof.
  intros Hnext. revert st.
  induction reqs as [|[rd r] reqs IH]; intros st; [done|].
  cbn [serve fst snd]. rewrite RateLimit_unfold, filter_cons. cbn [fst snd].
  destruct (skipped config r) eqn:Hs.
  - rewrite decide_False by done.
    destruct (Hnext rd r st empty_response) as [w' ->].
    cbn [mbind option_bind fst snd]. rewrite <- IH.
    by destruct (serve _ reqs st) as [[ws st']|].
  - rewrite decide_True by done. rewrite fmap_cons.
    cbn [Limiter_runs Limiter_run limiter_call fst snd].
    destruct (Limiter_Allow _ _ _ st) as [[a st1]|]; [|done].
    cbn [mbind option_bind fst snd].
    assert (∃ w',
              (if negb a then Some (st1, exceeded config empty_response r)
               else next rd r
                      (st1, AddRateLimitHeaders (headers_now rd)
                              empty_response st1
                              (key_of SplitHostPort config r))) =
              Some (st1, w')) as [w' ->].
    { destruct a; cbn [negb]; [apply Hnext|by eexists]. }
    cbn [mbind option_bind fst snd]. specialize (IH st1).
    destruct (serve _ reqs st1) as [[ws st']|],
             (Limiter_runs _ st1) as [[res st'']|]; cbn in *; congruence.
Qed.

Lemma serve_length h reqs st ws st' :
  serve h reqs st = Some (ws, st') → length ws = length reqs.
Proof.
  revert st ws st'. induction reqs as [|tr reqs IH]; intros st ws st' H.
  { by injection H as <- _. }
  cbn [serve] in H. destruct (h _ _ _) as [x|]; [|done].
  cbn [mbind option_bind] in H.
  destruct (serve h reqs x.1) as [[ws1 st1]|] eqn:Hrest; [|done].
  injection H as <- _. cbn [length]. f_equal.
  by apply (IH x.1 ws1 st1).
Qed.

(** What every request is answered, when none is skipped and the next
    handler leaves the limiter alone. *)
Lemma serve_RateLimit_responses config next nextw reqs st0 :
  (∀ rd r s w, next rd r (s, w) = Some (s, nextw rd r w)) →
  Forall (λ tr, skipped config tr.2 = false) reqs →
  ∀ st res st',
    lcapacity (limiter st) = lcapacity (limiter st0) →
    linterval (limiter st) = linterval (limiter st0) →
    Limiter_runs (limiter_call SplitHostPort config <$> reqs) st =
      Some (res, st') →
    serve (RateLimit SplitHostPort config next) reqs st =
      Some (zip_with
              (λ tr (a : bool),
                 if a
                 then nextw tr.1 tr.2
                        (AddRateLimitHeaders (headers_now tr.1)
                           empty_response st0
                           (key_of SplitHostPort config tr.2))
                 else exceeded config empty_response tr.2)
              reqs res, st').
Proof.
  intros Hnext Hskip.
  induction Hskip as [|[rd r] reqs Hs _ IH]; intros st res st' Hc Hi Hruns.
  { by injection Hruns as <- <-. }
  cbn [fst snd] in Hs. rewrite fmap_cons in Hruns.
  cbn [Limiter_runs Limiter_run limiter_call fst snd] in Hruns.
  destruct (Limiter_Allow _ _ _ st) as [[a st1]|] eqn:Ha; [|done].
  cbn [mbind option_bind fst snd] in Hruns.
  destruct (Limiter_runs _ st1) as [[res1 st2]|] eqn:Hr1; [|done].
  injection Hruns as <- <-.
  destruct (Limiter_Allow_config _ _ _ _ _ _ Ha) as [Hc1 Hi1].
  cbn [serve fst snd]. rewrite RateLimit_unfold, Hs, Ha.
  cbn [mbind option_bind fst snd zip_with].
  rewrite (AddRateLimitHeaders_config (headers_now rd) empty_response st0
             st1 (key_of SplitHostPort config r)
             (key_of SplitHostPort config r))
    by congruence.
  destruct a; cbn [negb]; [rewrite Hnext|];
    cbn [mbind option_bind fst snd];
    rewrite (IH st1 res1 st2) by congruence; done.
Qed.

(** X17. The middleware asks the limiter once for every request that is
    not skipped, with the key extracted from that request and the clock
    readings of that request, and never otherwise: when the next handler
    leaves the limiter alone, the limiter after any sequence of requests is
    the limiter after the [Allow] calls of the requests not skipped, and a
    panic of one is a panic of the other.  On a well-formed limiter every
    request gets a response. *)
Theorem RateLimit_calls_limiter (config : RateLimitConfig) (next : Handler)
    (reqs : list (Readings * Request)) (st : State) :
  (∀ rd r s w, ∃ w', next rd r (s, w) = Some (s, w')) →
  snd <$> serve (RateLimit SplitHostPort config next) reqs st =
    snd <$> Limiter_runs
              ((λ tr, (limiter_clock tr.1,
                       (key_of SplitHostPort config tr.2,
                        CallAllow (allow_now tr.1)))) <$>
                 filter (λ tr, skipped config tr.2 = false) reqs) st ∧
  (wf st →
   ∃ ws st',
     serve (RateLimit SplitHostPort config next) reqs st = Some (ws, st') ∧
     length ws = length reqs ∧ wf st').
Proof.
  intros Hnext.
  pose proof (serve_RateLimit_state config next reqs st Hnext) as H.
  split; [exact H|]. intros Hwf.
  destruct (Limiter_runs_safe
              (limiter_call SplitHostPort config <$>
                 filter (λ tr, skipped config tr.2 = false) reqs) st Hwf)
    as (res & st' & Hruns & _ & Hwf').
  rewrite Hruns in H.
  destruct (serve _ reqs st) as [[ws st'']|] eqn:Hserve; [|done].
  injection H as ->. exists ws, st'.
  split_and!; [done| |done]. by eapply serve_length.
Qed.

Lemma fmap_key_calls config key (reqs : list (Readings * Request)) :
  Forall (λ tr, key_of SplitHostPort config tr.2 = key) reqs →
  limiter_call SplitHostPort config <$> reqs =
    (λ x, (x.1, (key, CallAllow x.2))) <$>
      ((λ tr, (limiter_clock tr.1, allow_now tr.1)) <$> reqs).
Proof.
  induction 1 as [|tr reqs Hk _ IH]; [done|].
  rewrite !fmap_cons. unfold limiter_call at 1. cbn [fst snd].
  by rewrite Hk, IH.
Qed.

(** One client, one burst: the requests of the burst are answered by the
    next handler while the capacity lasts and by the exceeded-handler
    afterwards. *)
Lemma RateLimit_budget config next nextw key st tr0 rest :
  (∀ rd r s w, next rd r (s, w) = Some (s, nextw rd r w)) →
  Forall (λ tr, skipped config tr.2 = false) (tr0 :: rest) →
  Forall (λ tr, key_of SplitHostPort config tr.2 = key) (tr0 :: rest) →
  wf st → 0 ≤ lcapacity (limiter st) ≤ int64.max →
  buckets (limiter st) !! key = None →
  Sub (at_cleanup (limiter_clock tr0.1)) (lastCleanup (limiter st)) <
    cleanupInterval (limiter st) →
  Forall (λ tr, Sub (allow_now tr.1) (at_new (limiter_clock tr0.1)) <
                  linterval (limiter st)) (tr0 :: rest) →
  ∃ ws st',
    serve (RateLimit SplitHostPort config next) (tr0 :: rest) st =
      Some (ws, st') ∧
    length ws = S (length rest) ∧
    ∀ (j : nat) tr, (tr0 :: rest) !! j = Some tr →
      ws !! j =
        Some (if bool_decide (Z.of_nat (S j) ≤ lcapacity (limiter st))
              then nextw tr.1 tr.2
                     (AddRateLimitHeaders (headers_now tr.1) empty_response
                        st key)
              else exceeded config empty_response tr.2).
Proof.
  intros Hnext Hskip Hkey Hwf Hc Habs Hnot Hrest.
  destruct (Limiter_runs_new_key key st (limiter_clock tr0.1)
              (allow_now tr0.1)
              ((λ tr, (limiter_clock tr.1, allow_now tr.1)) <$> rest)
              Hwf Hc Habs Hnot)
    as [st' Hruns].
  { rewrite <- list_fmap_compose.
    apply Forall_cons in Hrest as [Hfirst Hrest].
    apply Forall_cons. split; [done|]. by apply Forall_fmap. }
  rewrite length_fmap in Hruns.
  assert (limiter_call SplitHostPort config <$> (tr0 :: rest) =
          (limiter_clock tr0.1, (key, CallAllow (allow_now tr0.1))) ::
          ((λ x, (x.1, (key, CallAllow x.2))) <$>
             ((λ tr, (limiter_clock tr.1, allow_now tr.1)) <$> rest)))
    as Heq by (by rewrite (fmap_key_calls config key)).
  rewrite <- Heq in Hruns.
  pose proof (serve_RateLimit_responses config next nextw (tr0 :: rest) st
                Hnext Hskip st _ st' eq_refl eq_refl Hruns) as Hserve.
  eexists _, st'. split; [exact Hserve|]. split.
  - rewrite length_zip_with_l_eq; [done|].
    by rewrite length_fmap, length_seq.
  - intros j tr Hj. pose proof (lookup_lt_Some _ _ _ Hj) as Hlt.
    cbn [length] in Hlt.
    rewrite lookup_zip_with, Hj. cbn [mbind option_bind].
    rewrite list_lookup_fmap, lookup_seq_lt by lia.
    cbn [fmap option_fmap option_map mbind option_bind].
    rewrite Forall_lookup in Hkey. rewrite (Hkey j tr Hj).
    by replace (1 + j)%nat with (S j) by lia.
Qed.

(** X18. The budget of one client at the middleware.  No request skipped,
    a next handler that leaves the limiter alone, a well-formed limiter of
    capacity [c] in which the client's key has no bucket, no cleanup due
    at the first request, and the bucket's [Allow] of every request of the
    burst reading the clock less than one refill period after the bucket
    was made: every request is answered; the first [c] are handed to the
    next handler with the rate-limit headers set, and every later one is
    answered by the exceeded-handler, the next handler not being
    called. *)
Theorem RateLimit_client_budget (config : RateLimitConfig) (next : Handler)
    (nextw : Readings → Request → ResponseWriter → ResponseWriter)
    (key : string) (st : State) (tr0 : Readings * Request)
    (rest : list (Readings * Request)) :
  (∀ rd r s w, next rd r (s, w) = Some (s, nextw rd r w)) →
  Forall (λ tr, skipped config tr.2 = false) (tr0 :: rest) →
  Forall (λ tr, key_of SplitHostPort config tr.2 = key) (tr0 :: rest) →
  wf st → 0 ≤ lcapacity (limiter st) ≤ int64.max →
  buckets (limiter st) !! key = None →
  Sub (at_cleanup (limiter_clock tr0.1)) (lastCleanup (limiter st)) <
    cleanupInterval (limiter st) →
  Forall (λ tr, Sub (allow_now tr.1) (at_new (limiter_clock tr0.1)) <
                  linterval (limiter st)) (tr0 :: rest) →
  ∃ ws st',
    serve (RateLimit SplitHostPort config next) (tr0 :: rest) st =
      Some (ws, st') ∧
    length ws = S (length rest) ∧
    ∀ (j : nat) tr, (tr0 :: rest) !! j = Some tr →
      ws !! j =
        Some (if bool_decide (Z.of_nat (S j) ≤ lcapacity (limiter st))
              then nextw tr.1 tr.2
                     (AddRateLimitHeaders (headers_now tr.1) empty_response
                        st key)
              else exceeded config empty_response tr.2).
Proof. apply RateLimit_budget. Qed.

(** X19. The budgets of the two ready-made configurations.  With
    [NewDefaultConfig] made at [now0], requests of one IP key whose first
    cleanup check reads the clock less than five minutes after [now0] and
    whose [Allow] calls all read it less than a minute after the bucket
    was made are handed to the next handler for the first 100 and answered
    by [DefaultRateLimitHandler], with status 429, from the 101st on.
    With [NewAPIKeyConfig] the same holds per API key with 1000 in place
    of 100. *)
Theorem ready_made_configs_budget (now0 : Time) (next : Handler)
    (nextw : Readings → Request → ResponseWriter → ResponseWriter)
    (key : string) (tr0 : Readings * Request)
    (rest : list (Readings * Request)) :
  (∀ rd r s w, next rd r (s, w) = Some (s, nextw rd r w)) →
  Sub (at_cleanup (limiter_clock tr0.1)) now0 < 5 * Minute →
  Forall (λ tr, Sub (allow_now tr.1) (at_new (limiter_clock tr0.1)) <
                  Minute) (tr0 :: rest) →
  (Forall (λ tr, IPKeyExtractor SplitHostPort tr.2 = key) (tr0 :: rest) →
   ∃ ws st',
     serve (RateLimit SplitHostPort (NewDefaultConfig SplitHostPort now0).2
              next)
           (tr0 :: rest) (NewDefaultConfig SplitHostPort now0).1 =
       Some (ws, st') ∧
     length ws = S (length rest) ∧
     ∀ (j : nat) tr, (tr0 :: rest) !! j = Some tr →
       ws !! j =
         Some (if bool_decide (j < 100)%nat
               then nextw tr.1 tr.2
                      (AddRateLimitHeaders (headers_now tr.1) empty_response
                         (NewLimiter now0 100 100 Minute) key)
               else DefaultRateLimitHandler empty_response tr.2)) ∧
  (Forall (λ tr, APIKeyExtractor SplitHostPort tr.2 = key) (tr0 :: rest) →
   ∃ ws st',
     serve (RateLimit SplitHostPort (NewAPIKeyConfig SplitHostPort now0).2
              next)
           (tr0 :: rest) (NewAPIKeyConfig SplitHostPort now0).1 =
       Some (ws, st') ∧
     length ws = S (length rest) ∧
     ∀ (j : nat) tr, (tr0 :: rest) !! j = Some tr →
       ws !! j =
         Some (if bool_decide (j < 1000)%nat
               then nextw tr.1 tr.2
                      (AddRateLimitHeaders (headers_now tr.1) empty_response
                         (NewLimiter now0 1000 1000 Minute) key)
               else DefaultRateLimitHandler empty_response tr.2)) ∧
  (∀ r, status (DefaultRateLimitHandler empty_response r) =
          Some StatusTooManyRequests).
Proof.
  intros Hnext Hfirst Hrest. split_and!; [| |done].
  - intros Hkey.
    destruct (RateLimit_budget (NewDefaultConfig SplitHostPort now0).2 next
                nextw key (NewLimiter now0 100 100 Minute) tr0 rest Hnext)
      as (ws & st' & Hserve & Hlen & Hws);
      [by apply Forall_true|done|by apply NewLimiter_wf|done|
       apply lookup_empty|done|done|].
    exists ws, st'. split_and!; [done|done|].
    intros j tr Hj. rewrite (Hws j tr Hj). f_equal.
    cbn [limiter NewLimiter lcapacity].
    by rewrite (bool_decide_ext (Z.of_nat (S j) ≤ 100) (j < 100)%nat) by lia.
  - intros Hkey.
    destruct (RateLimit_budget (NewAPIKeyConfig SplitHostPort now0).2 next
                nextw key (NewLimiter now0 1000 1000 Minute) tr0 rest Hnext)
      as (ws & st' & Hserve & Hlen & Hws);
      [by apply Forall_true|done|by apply NewLimiter_wf|done|
       apply lookup_empty|done|done|].
    exists ws, st'. split_and!; [done|done|].
    intros j tr Hj. rewrite (Hws j tr Hj). f_equal.
    cbn [limiter NewLimiter lcapacity].
    by rewrite (bool_decide_ext (Z.of_nat (S j) ≤ 1000) (j < 1000)%nat)
      by lia.
Qed.

(** X20. Requests with pairwise different keys are never limited.  No
    request skipped, a next handler that leaves the limiter alone, a
    well-formed limiter of capacity at least 1: requests whose keys are
    pairwise different and have no bucket yet are all handed to the next
    handler, with the rate-limit headers set, whatever their number, when
    the bucket made for each request is still full at the later readings
    of the limiter's call for that request: they lie less than one
    interval after the creation, or the refill rate is not negative and
    the refill cannot overflow. *)
Theorem RateLimit_distinct_keys_served (config : RateLimitConfig)
    (next : Handler)
    (nextw : Readings → Request → ResponseWriter → ResponseWriter)
    (reqs : list (Readings * Request)) (st : State) :
  (∀ rd r s w, next rd r (s, w) = Some (s, nextw rd r w)) →
  Forall (λ tr, skipped config tr.2 = false) reqs →
  wf st → 1 ≤ lcapacity (limiter st) ≤ int64.max →
  NoDup ((λ tr, key_of SplitHostPort config tr.2) <$> reqs) →
  Forall (λ tr, buckets (limiter st) !! key_of SplitHostPort config tr.2 =
                  None) reqs →
  Forall (λ tr,
            keeps_full (limiter st) (at_new (limiter_clock tr.1))
              (at_bucket (limiter_clock tr.1)
                 (key_of SplitHostPort config tr.2)) ∧
            keeps_full (limiter st) (at_new (limiter_clock tr.1))
              (allow_now tr.1)) reqs →
  ∃ st',
    serve (RateLimit SplitHostPort config next) reqs st =
      Some ((λ tr, nextw tr.1 tr.2
                     (AddRateLimitHeaders (headers_now tr.1) empty_response
                        st (key_of SplitHostPort config tr.2))) <$> reqs,
            st').
Proof.
  intros Hnext Hskip Hwf Hc Hnd Habs Hfull.
  destruct (Limiter_runs_fresh_keys
              ((λ tr, (limiter_clock tr.1,
                       (key_of SplitHostPort config tr.2, allow_now tr.1)))
                 <$> reqs) st Hwf Hc) as (st' & Hruns & _).
  { by rewrite <- list_fmap_compose. }
  { by apply Forall_fmap. }
  { by apply Forall_fmap. }
  rewrite <- list_fmap_compose, length_fmap in Hruns.
  pose proof (serve_RateLimit_responses config next nextw reqs st
                Hnext Hskip st _ st' eq_refl eq_refl Hruns) as Hserve.
  exists st'. rewrite Hserve. do 2 f_equal.
  by rewrite zip_with_replicate_r_eq.
Qed.

(** X21. Which requests share a key.  Requests with the same non-empty
    [X-Forwarded-For] header have the same IP key, whatever their
    [X-Real-IP] header and remote address, and that key is the header
    itself when it is not of the form host:port.  Requests with the same
    non-empty [Authorization] header have the same API key, the header
    itself, whatever their addresses; without that header the API key is
    the IP key.  The path-based keys of two requests with the same IP key
    are equal exactly when their paths are. *)
Theorem key_extractors (r r' : Request) :
  (Header_Get "X-Forwarded-For" r ≠ EmptyString →
   Header_Get "X-Forwarded-For" r' = Header_Get "X-Forwarded-For" r →
   IPKeyExtractor SplitHostPort r' = IPKeyExtractor SplitHostPort r) ∧
  (Header_Get "X-Forwarded-For" r ≠ EmptyString →
   SplitHostPort (Header_Get "X-Forwarded-For" r) = None →
   IPKeyExtractor SplitHostPort r = Header_Get "X-Forwarded-For" r) ∧
  (Header_Get "Authorization" r ≠ EmptyString →
   APIKeyExtractor SplitHostPort r = Header_Get "Authorization" r ∧
   (Header_Get "Authorization" r' = Header_Get "Authorization" r →
    APIKeyExtractor SplitHostPort r' = APIKeyExtractor SplitHostPort r)) ∧
  (Header_Get "Authorization" r = EmptyString →
   APIKeyExtractor SplitHostPort r = IPKeyExtractor SplitHostPort r) ∧
  (IPKeyExtractor SplitHostPort r' = IPKeyExtractor SplitHostPort r →
   (PathBasedKeyExtractor SplitHostPort r' =
      PathBasedKeyExtractor SplitHostPort r ↔ URLPath r' = URLPath r)).
Proof.
  split_and!.
  - intros Hne Heq. unfold IPKeyExtractor. rewrite Heq.
    apply String.eqb_neq in Hne. by rewrite Hne.
  - intros Hne Hsplit. unfold IPKeyExtractor.
    apply String.eqb_neq in Hne. by rewrite Hne, Hsplit.
  - intros Hne. apply String.eqb_neq in Hne. split.
    + unfold APIKeyExtractor. by rewrite Hne.
    + intros Heq. unfold APIKeyExtractor. by rewrite Heq, Hne.
  - intros Heq. unfold APIKeyExtractor. by rewrite Heq.
  - intros Hip. unfold PathBasedKeyExtractor. rewrite Hip. split.
    + intros H. apply String.app_inj in H. by apply String.app_inj in H.
    + by intros ->.
Qed.
End middleware_more.

Lemma RateLimit_calls_limiter_witness :
  let split := λ s : string,
    if String.eqb s "10.0.0.1:5000" then Some "10.0.0.1" else None in
  let config :=
    {| middleware.KeyExtractor := None;
       middleware.OnRateLimitExceeded := None;
       middleware.SkipFunc :=
         Some (λ r, String.eqb (http.URLPath r) "/health") |} in
  let next : middleware.Handler :=
    λ _ _ sw, Some (sw.1, http.Write "ok" sw.2) in
  let req := http.mkRequest ∅ "10.0.0.1:5000" in
  let rd := λ t : time.Time,
    {| middleware.limiter_clock :=
         {| ratelimit.at_new := t; ratelimit.at_cleanup := t + 1;
            ratelimit.at_bucket := λ _, t + 2 |};
       middleware.allow_now := t + 3;
       middleware.headers_now := t + 4 |} in
  ∃ ws st',
    middleware.serve (middleware.RateLimit split config next)
      [(rd 0, req "/a"); (rd 1, req "/health"); (rd 2, req "/a")]
      (ratelimit.NewLimiter 0 1 1 time.Minute) = Some (ws, st') ∧
    length ws = 3%nat.
Proof.
  intros split config next req rd.
  destruct (RateLimit_calls_limiter split config next
              [(rd 0, req "/a"); (rd 1, req "/health"); (rd 2, req "/a")]
              (ratelimit.NewLimiter 0 1 1 time.Minute)) as [_ H].
  - intros now r s w. eexists. reflexivity.
  - destruct H as (ws & st' & Hs & Hl & _).
    + apply NewLimiter_wf. reflexivity.
    + exists ws, st'. split; [exact Hs|exact Hl].
Defined.

Lemma RateLimit_client_budget_witness :
  let split := λ s : string,
    if String.eqb s "10.0.0.1:5000" then Some "10.0.0.1" else None in
  let config :=
    {| middleware.KeyExtractor := None;
       middleware.OnRateLimitExceeded := None;
       middleware.SkipFunc := None |} in
  let nextw := λ (_ : middleware.Readings) (_ : http.Request),
    http.Write "ok" in
  let next : middleware.Handler :=
    λ now r sw, Some (sw.1, nextw now r sw.2) in
  let req := http.mkRequest ∅ "10.0.0.1:5000" "/a" in
  let rd := λ t : time.Time,
    {| middleware.limiter_clock :=
         {| ratelimit.at_new := t; ratelimit.at_cleanup := t + 1;
            ratelimit.at_bucket := λ _, t + 2 |};
       middleware.allow_now := t + 3;
       middleware.headers_now := t + 4 |} in
  ∃ ws st',
    middleware.serve (middleware.RateLimit split config next)
      [(rd 0, req); (rd 1, req); (rd 2, req)]
      (ratelimit.NewLimiter 0 2 2 time.Minute) = Some (ws, st') ∧
    http.status <$> ws !! 1%nat = Some (Some http.StatusOK) ∧
    http.status <$> ws !! 2%nat = Some (Some http.StatusTooManyRequests).
Proof.
  intros split config nextw next req rd.
  destruct (RateLimit_client_budget split config next nextw "10.0.0.1"
              (ratelimit.NewLimiter 0 2 2 time.Minute) (rd 0, req)
              [(rd 1, req); (rd 2, req)])
    as (ws & st' & Hs & _ & Hws).
  - intros now r s w. reflexivity.
  - repeat constructor.
  - repeat constructor.
  - apply NewLimiter_wf. reflexivity.
  - vm_compute. split; discriminate.
  - apply lookup_empty.
  - reflexivity.
  - repeat constructor.
  - exists ws, st'. split; [exact Hs|]. split.
    + rewrite (Hws 1%nat (rd 1, req) eq_refl). reflexivity.
    + rewrite (Hws 2%nat (rd 2, req) eq_refl). reflexivity.
Defined.

Lemma ready_made_configs_budget_witness :
  let split := λ s : string,
    if String.eqb s "10.0.0.1:5000" then Some "10.0.0.1" else None in
  let nextw := λ (_ : middleware.Readings) (_ : http.Request),
    http.Write "ok" in
  let next : middleware.Handler :=
    λ now r sw, Some (sw.1, nextw now r sw.2) in
  let req := http.mkRequest ∅ "10.0.0.1:5000" "/a" in
  let areq :=
    http.mkRequest {[ "Authorization" := "token-1" ]} "10.0.0.1:5000" "/a" in
  let rd := λ t : time.Time,
    {| middleware.limiter_clock :=
         {| ratelimit.at_new := t; ratelimit.at_cleanup := t + 1;
            ratelimit.at_bucket := λ _, t + 2 |};
       middleware.allow_now := t + 3;
       middleware.headers_now := t + 4 |} in
  (∃ ws st',
     middleware.serve
       (middleware.RateLimit split (middleware.NewDefaultConfig split 0).2
          next)
       [(rd 1, req); (rd 2, req)] (middleware.NewDefaultConfig split 0).1 =
       Some (ws, st') ∧ length ws = 2%nat) ∧
  (∃ ws st',
     middleware.serve
       (middleware.RateLimit split (middleware.NewAPIKeyConfig split 0).2
          next)
       [(rd 1, areq); (rd 2, areq)] (middleware.NewAPIKeyConfig split 0).1 =
       Some (ws, st') ∧ length ws = 2%nat).
Proof.
  intros split nextw next req areq rd. split.
  - destruct (ready_made_configs_budget split 0 next nextw "10.0.0.1"
                (rd 1, req) [(rd 2, req)]) as (H & _ & _).
    + intros now r s w. reflexivity.
    + reflexivity.
    + repeat constructor.
    + destruct H as (ws & st' & Hs & Hl & _); [repeat constructor|].
      exists ws, st'. split; [exact Hs|exact Hl].
  - destruct (ready_made_configs_budget split 0 next nextw "token-1"
                (rd 1, areq) [(rd 2, areq)]) as (_ & H & _).
    + intros now r s w. reflexivity.
    + reflexivity.
    + repeat constructor.
    + destruct H as (ws & st' & Hs & Hl & _); [repeat constructor|].
      exists ws, st'. split; [exact Hs|exact Hl].
Defined.

Lemma RateLimit_distinct_keys_served_witness :
  let split := λ _ : string, @None string in
  let config :=
    {| middleware.KeyExtractor := None;
       middleware.OnRateLimitExceeded := None;
       middleware.SkipFunc := None |} in
  let nextw := λ (_ : middleware.Readings) (_ : http.Request),
    http.Write "ok" in
  let next : middleware.Handler :=
    λ now r sw, Some (sw.1, nextw now r sw.2) in
  let req := λ xff : string,
    http.mkRequest {[ "X-Forwarded-For" := xff ]} "10.0.0.1:5000" "/a" in
  let rd := λ t : time.Time,
    {| middleware.limiter_clock :=
         {| ratelimit.at_new := t; ratelimit.at_cleanup := t + 1;
            ratelimit.at_bucket := λ _, t + 2 |};
       middleware.allow_now := t + 3;
       middleware.headers_now := t + 4 |} in
  ∃ ws st',
    middleware.serve (middleware.RateLimit split config next)
      [(rd 0, req "a"); (rd 1, req "b")]
      (ratelimit.NewLimiter 0 1 1 time.Minute) = Some (ws, st') ∧
    http.status <$> ws = [Some http.StatusOK; Some http.StatusOK].
Proof.
  intros split config nextw next req rd.
  destruct (RateLimit_distinct_keys_served split config next nextw
              [(rd 0, req "a"); (rd 1, req "b")]
              (ratelimit.NewLimiter 0 1 1 time.Minute)) as [st' Hs].
  - intros now r s w. reflexivity.
  - repeat constructor.
  - apply NewLimiter_wf. reflexivity.
  - vm_compute. split; discriminate.
  - apply NoDup_cons. split; [|apply NoDup_cons; split; [|apply NoDup_nil_2]].
    + intros Hin. apply elem_of_cons in Hin as [Hin|Hin];
        [vm_compute in Hin; discriminate Hin|by apply elem_of_nil in Hin].
    + intros Hin. by apply elem_of_nil in Hin.
  - repeat constructor.
  - apply Forall_cons. split; [split; left; reflexivity|].
    apply Forall_cons. split; [split; left; reflexivity|].
    apply Forall_nil_2.
  - eexists _, st'. split; [exact Hs|reflexivity].
Defined.

Lemma key_extractors_witness :
  let split := λ s : string,
    if String.eqb s "10.0.0.1:5000" then Some "10.0.0.1" else None in
  let r :=
    http.mkRequest {[ "X-Forwarded-For" := "1.2.3.4" ]} "10.0.0.1:5000"
      "/a" in
  let r' :=
    http.mkRequest {[ "X-Forwarded-For" := "1.2.3.4" ]} "10.0.0.9:80" "/b" in
  middleware.IPKeyExtractor split r' = middleware.IPKeyExtractor split r ∧
  middleware.IPKeyExtractor split r = "1.2.3.4" ∧
  middleware.APIKeyExtractor split r = middleware.IPKeyExtractor split r ∧
  middleware.PathBasedKeyExtractor split r' ≠
    middleware.PathBasedKeyExtractor split r.
Proof.
  intros split r r'.
  destruct (key_extractors split r r') as (Hsame & Hxff & _ & Hapi & Hpath).
  split_and!.
  - apply Hsame; [discriminate|reflexivity].
  - apply Hxff; [discriminate|reflexivity].
  - apply Hapi. reflexivity.
  - intros Heq. apply Hpath in Heq; [discriminate Heq|].
    apply Hsame; [discriminate|reflexivity].
Defined.

(** ** The gateway's handler: the request path behind the middleware *)

Section gateway_handler.
Import time http gateway proxy.
Variable Parse : string → option url.URL.
Variable request : Type.
Variable NewRequestWithContext : url.URL → option request.
Variable Do : request → option Z.
Variable SplitHostPort : string → option string.
Variable ServeHTTP : Backend → Request → ResponseWriter → ResponseWriter.

Lemma handleRequest_set_limiter r l g w :
  handleRequest ServeHTTP r (set_limiter l g, w) =
    (λ x, (set_limiter l x.1, x.2)) <$> handleRequest ServeHTTP r (g, w).
Proof.
  unfold handleRequest. cbn [fst snd routes set_limiter].
  destruct (routes g !! URLPath r) as [route|]; [|done].
  by destruct (NextBackend route) as [[[b|] route']|].
Qed.

Lemma handleRequest_limiter r g w g' w' :
  handleRequest ServeHTTP r (g, w) = Some (g', w') →
  limiter g' = limiter g ∧ healthCheck g' = healthCheck g.
Proof.
  unfold handleRequest. cbn [fst snd].
  destruct (routes g !! URLPath r) as [route|]; [|by intros [= <- _]].
  destruct (NextBackend route) as [[[b|] route']|]; [| |done];
    by intros [= <- _].
Qed.

Lemma handleRequest_ok r g w :
  (∀ path route, routes g !! path = Some route → cursor_ok route) →
  ∃ g' w',
    handleRequest ServeHTTP r (g, w) = Some (g', w') ∧
    (∀ path route, routes g' !! path = Some route → cursor_ok route) ∧
    limiter g' = limiter g.
Proof.
  intros Hok. unfold handleRequest. cbn [fst snd].
  destruct (routes g !! URLPath r) as [route|] eqn:Hr; [|by eexists _, _].
  pose proof (Hok _ _ Hr) as Hc. rewrite (NextBackend_find route Hc).
  destruct (list_find _ _) as [[i b]|] eqn:Hlf;
    cbn [mbind option_bind fst snd]; eexists _, _;
    (split; [reflexivity|]); (split; [|reflexivity]);
    intros path route' H; cbn [routes set_routes] in H;
    apply lookup_insert_Some in H as [[_ <-]|[_ H]];
    [|by eapply Hok|done|by eapply Hok].
  apply list_find_Some in Hlf as (Hb & _). apply lookup_lt_Some in Hb.
  rewrite length_rotate in Hb. destruct Hc as [Hcur Hmax].
  split; cbn [current Backends set_current]; [|done].
  pose proof (Z.mod_pos_bound (current route + 1 + Z.of_nat i)
                (Z.of_nat (length (Backends route)))).
  lia.
Qed.

Lemma NewGateway_ok now config :
  0 ≤ RateLimitInterval config → gateway_ok (NewGateway now config).
Proof.
  intros Hi. split.
  - unfold NewGateway. cbn [limiter]. apply NewLimiter_wf.
    destruct (Z.eqb_spec (RateLimitInterval config) 0); [done|lia].
  - intros path route H. unfold NewGateway in H. cbn [routes] in H.
    by rewrite lookup_empty in H.
Qed.

Lemma AddRoute_ok path urls g :
  Z.of_nat (length urls) ≤ int64.max →
  gateway_ok g → gateway_ok (AddRoute Parse path urls g).2.
Proof.
  intros Hlen [Hwf Hok]. unfold AddRoute.
  destruct (parse_backends Parse urls []) as [bad|bs] eqn:Hp; [done|].
  split; [done|]. cbn [snd routes set_routes]. intros p route H.
  apply lookup_insert_Some in H as [[_ <-]|[_ H]]; [|by eapply Hok].
  destruct (decide (Exists (λ u, Parse u = None) urls)) as [Hex|Hall].
  { destruct (first_unparseable Parse urls Hex)
      as (pre & bad & post & -> & Hpre & Hbad).
    by rewrite parse_backends_bad in Hp. }
  destruct (all_parseable Parse urls Hall) as [us Hus].
  rewrite (parse_backends_ok Parse urls [] us Hus) in Hp.
  injection Hp as <-. pose proof (Forall2_length _ _ _ Hus) as Hl.
  split; cbn [current Backends app]; rewrite length_fmap; lia.
Qed.

Lemma healthCheckAll_ok g :
  gateway_ok g →
  gateway_ok (healthCheckAll request NewRequestWithContext Do g).
Proof.
  intros [Hwf Hok]. split; [done|]. intros path route H.
  rewrite healthCheckAll_lookup in H.
  destruct (routes g !! path) as [route0|] eqn:Hr; [|done].
  injection H as <-. destruct (Hok _ _ Hr) as [Hcur Hmax].
  split; cbn [current Backends set_Backends]; by rewrite length_fmap.
Qed.

Lemma Handler_ok rd r g w :
  gateway_ok g →
  ∃ g' w',
    Handler SplitHostPort ServeHTTP rd r (g, w) = Some (g', w') ∧
    gateway_ok g'.
Proof.
  intros [Hwf Hok].
  destruct (Limiter_run_wf (middleware.limiter_clock rd)
              (ratelimit.CallAllow (middleware.allow_now rd))
              (middleware.key_of SplitHostPort
                 (Handler_config SplitHostPort) r) (limiter g) Hwf)
    as (a & st' & Hrun & Hwf').
  cbn [ratelimit.Limiter_run] in Hrun.
  unfold Handler. cbn [fst snd]. rewrite Hrun.
  cbn [mbind option_bind fst snd].
  destruct a; cbn [negb].
  - destruct (handleRequest_ok r (set_limiter st' g)
                (middleware.AddRateLimitHeaders
                   (middleware.headers_now rd) w st'
                   (middleware.key_of SplitHostPort
                      (Handler_config SplitHostPort) r)))
      as (g' & w' & Hh & Hok' & Hl); [exact Hok|].
    exists g', w'. split; [done|]. split; [|done]. by rewrite Hl.
  - eexists _, _. split; [reflexivity|]. by split.
Qed.

(** X22. The gateway never panics.  A gateway is in order when its
    limiter is well formed and every cursor is inside its route.
    [NewGateway] makes a gateway in order from any configuration whose
    interval is not negative; [AddRoute], whether it succeeds or not,
    [healthCheckAll] and the handler keep it in order; and the handler
    answers every request to a gateway in order: no refill divides by
    zero and no backend is looked up out of range. *)
Theorem gateway_never_panics (g : Gateway) :
  (∀ now config,
     0 ≤ RateLimitInterval config → gateway_ok (NewGateway now config)) ∧
  (gateway_ok g →
   (∀ path urls, Z.of_nat (length urls) ≤ int64.max →
      gateway_ok (AddRoute Parse path urls g).2) ∧
   gateway_ok (healthCheckAll request NewRequestWithContext Do g) ∧
   (∀ rd r w, ∃ g' w',
      Handler SplitHostPort ServeHTTP rd r (g, w) = Some (g', w') ∧
      gateway_ok g')).
Proof.
  split; [apply NewGateway_ok|]. intros Hg. split_and!.
  - intros path urls Hlen. by apply AddRoute_ok.
  - by apply healthCheckAll_ok.
  - intros rd r w. by apply Handler_ok.
Qed.

(** X23. The handler is [handleRequest] behind the rate-limit middleware:
    as far as the limiter and the response go, it is [RateLimit] with the
    gateway's limiter, the IP key and the default exceeded-handler, and
    [handleRequest] as the next handler.  A request the limiter denies is
    answered by [DefaultRateLimitHandler] and reaches no route: no cursor
    moves and no backend is called.  A request the limiter admits is
    handled by [handleRequest] on the gateway's routes, the rate-limit
    headers being set first; the token is taken whatever [handleRequest]
    answers, a 404 or a 503 included. *)
Theorem Handler_behind_RateLimit (rd : middleware.Readings) (r : Request)
    (g : Gateway) (w : ResponseWriter) :
  (λ x, (limiter x.1, x.2)) <$>
     Handler SplitHostPort ServeHTTP rd r (g, w) =
    middleware.RateLimit SplitHostPort (Handler_config SplitHostPort)
      (next_of ServeHTTP g) rd r (limiter g, w) ∧
  ∀ admitted st',
    ratelimit.Limiter_Allow (middleware.limiter_clock rd)
      (middleware.allow_now rd) (middleware.IPKeyExtractor SplitHostPort r)
      (limiter g) = Some (admitted, st') →
    (admitted = false →
     Handler SplitHostPort ServeHTTP rd r (g, w) =
       Some (set_limiter st' g, middleware.DefaultRateLimitHandler w r)) ∧
    (admitted = true →
     Handler SplitHostPort ServeHTTP rd r (g, w) =
       (λ x, (set_limiter st' x.1, x.2)) <$>
         handleRequest ServeHTTP r
           (g, middleware.AddRateLimitHeaders (middleware.headers_now rd) w
                 st' (middleware.IPKeyExtractor SplitHostPort r))).
Proof.
  split.
  - rewrite RateLimit_unfold. unfold Handler.
    cbn [middleware.skipped middleware.SkipFunc Handler_config fst snd].
    destruct (ratelimit.Limiter_Allow _ _ _ (limiter g)) as [[a st']|];
      [|done].
    cbn [mbind option_bind fst snd]. destruct a; cbn [negb]; [|done].
    unfold next_of. cbn [fst snd].
    destruct (handleRequest ServeHTTP r (set_limiter st' g, _))
      as [[g' w']|] eqn:Hh; [|done].
    apply handleRequest_limiter in Hh as [Hl _].
    cbn [fmap option_fmap option_map mbind option_bind fst snd].
    by rewrite Hl.
  - intros admitted st' Ha. unfold Handler. cbn [fst snd].
    change (middleware.key_of SplitHostPort (Handler_config SplitHostPort) r)
      with (middleware.IPKeyExtractor SplitHostPort r).
    rewrite Ha. cbn [mbind option_bind fst snd]. split; intros ->.
    + done.
    + cbn [negb]. apply handleRequest_set_limiter.
Qed.
End gateway_handler.

Lemma gateway_never_panics_witness :
  let Parse := λ s : string,
    if String.eqb s "%zz" then None
    else Some (url.mkURL "http" s EmptyString) in
  let split := λ s : string,
    if String.eqb s "10.0.0.1:5000" then Some "10.0.0.1" else None in
  let serve := λ (b : gateway.Backend) (_ : http.Request),
    http.Write (url.Host (gateway.URL b)) in
  let g := (gateway.AddRoute Parse "/api" ["localhost:8081"]
              (gateway.NewGateway 0 (gateway.mkConfig 0 0 0 0))).2 in
  let rd :=
    {| middleware.limiter_clock :=
         {| ratelimit.at_new := 1; ratelimit.at_cleanup := 2;
            ratelimit.at_bucket := λ _, 3 |};
       middleware.allow_now := 4;
       middleware.headers_now := 5 |} in
  proxy.gateway_ok g ∧
  ∃ g' w',
    proxy.Handler split serve rd
      (http.mkRequest ∅ "10.0.0.1:5000" "/api") (g, http.empty_response) =
      Some (g', w') ∧ proxy.gateway_ok g'.
Proof.
  intros Parse split serve g rd.
  destruct (gateway_never_panics Parse url.URL (λ u, Some u) (λ _, Some 200)
              split serve (gateway.NewGateway 0 (gateway.mkConfig 0 0 0 0)))
    as [Hnew Hkeep].
  destruct Hkeep as (Hadd & _ & _); [apply Hnew; discriminate|].
  assert (proxy.gateway_ok g) as Hg.
  { apply (Hadd "/api" ["localhost:8081"]). discriminate. }
  split; [exact Hg|].
  destruct (gateway_never_panics Parse url.URL (λ u, Some u) (λ _, Some 200)
              split serve g) as [_ Hkeep].
  destruct (Hkeep Hg) as (_ & _ & Hh).
  exact (Hh rd (http.mkRequest ∅ "10.0.0.1:5000" "/api")
            http.empty_response).
Defined.

Lemma Handler_behind_RateLimit_witness :
  let split := λ s : string,
    if String.eqb s "10.0.0.1:5000" then Some "10.0.0.1" else None in
  let serve := λ (b : gateway.Backend) (_ : http.Request),
    http.Write (url.Host (gateway.URL b)) in
  let g := {| gateway.routes := {[ "/api" := gateway.route3 ]};
              gateway.limiter := ratelimit.NewLimiter 0 0 1 time.Minute;
              gateway.healthCheck := 10 * time.Second |} in
  let r := http.mkRequest ∅ "10.0.0.1:5000" "/api" in
  let rd :=
    {| middleware.limiter_clock :=
         {| ratelimit.at_new := 1; ratelimit.at_cleanup := 2;
            ratelimit.at_bucket := λ _, 3 |};
       middleware.allow_now := 4;
       middleware.headers_now := 5 |} in
  ∃ g',
    proxy.Handler split serve rd r (g, http.empty_response) =
      Some (g', middleware.DefaultRateLimitHandler http.empty_response r) ∧
    gateway.routes g' = gateway.routes g.
Proof.
  intros split serve g r rd.
  destruct (Handler_behind_RateLimit split serve rd r g http.empty_response)
    as [_ H].
  destruct (Limiter_run_wf (middleware.limiter_clock rd)
              (ratelimit.CallAllow 4)
              (middleware.IPKeyExtractor split r) (gateway.limiter g))
    as (a & st' & Hrun & _).
  { apply NewLimiter_wf. reflexivity. }
  cbn [ratelimit.Limiter_run] in Hrun.
  destruct (H a st' Hrun) as [Hdenied _].
  assert (a = false) as ->.
  { vm_compute in Hrun. injection Hrun as <- _. reflexivity. }
  eexists. split; [exact (Hdenied eq_refl)|reflexivity].
Defined.
